(** * ragstack knowledge store: the graph store

    A shallow embedding of
    [libs/knowledge-store/ragstack_knowledge_store/graph_store.py]:
    the serialization helpers, the write path [add_nodes], the id lookup
    [_nodes_with_ids], the two traversals and the adjacency primitive,
    together with the properties the specification states about them.

    Conventions of the embedding.
    - A Python [str] is a [string]; an [int] is a [Z]; [Optional[T]] is
      [option T].
    - A Python [set] is the list of its elements in the order in which the
      program iterates it (an order Python leaves unspecified).  A set built
      with [set()] and [.add] never holds an element twice ([set_add]).
      Two sets are equal when they have the same members ([same_set]).
    - A Python [dict] is an association list in insertion order; assigning
      to a key that is present updates it in place ([dict_set]).
    - A raised exception is the [Raise] case of [result].
    - Embedding vectors ([List[float]]) are an abstract type [vector]: no
      function of this file computes with their components. *)

From stdpp Require Import base strings list gmap.
From Stdlib Require Import ZArith Lia.

Set Warnings "-register-all,-clear-no-such-hyp".

Local Open Scope string_scope.

(** ** Exceptions and fallible computations *)

Inductive exn :=
| TypeError                 (* json.dumps: object is not JSON serializable *)
| AttributeError            (* attribute or method missing on the object *)
| JSONDecodeError           (* json.loads on a text that is not a document *)
| KeyError (key : string)   (* d[key] with key absent *)
| ValueError (msg : string).

Inductive result (A : Type) :=
| Ok (a : A)
| Raise (e : exn).
Arguments Ok {A} a.
Arguments Raise {A} e.

Definition bind {A B} (m : result A) (k : A → result B) : result B :=
  match m with
  | Ok a => k a
  | Raise e => Raise e
  end.

Notation "'let*' x ':=' m 'in' k" := (bind m (fun x => k))
  (at level 10, x pattern, m at level 100, k at level 200).

Definition is_ok {A} (r : result A) : bool :=
  match r with Ok _ => true | Raise _ => false end.

(** ** Python sets and dicts *)

Section Containers.
Context {A : Type} `{EqDecision A}.

(** [s.add(x)] *)
Definition set_add (x : A) (s : list A) : list A :=
  if decide (x ∈ s) then s else s ++ [x].

(** Equality of two sets given by their iteration orders. *)
Definition same_set (s1 s2 : list A) : Prop := ∀ x, x ∈ s1 ↔ x ∈ s2.

Context {V : Type}.

(** [d.get(k)] *)
Fixpoint dict_get (k : A) (d : list (A * V)) : option V :=
  match d with
  | [] => None
  | (k', v) :: d' => if decide (k = k') then Some v else dict_get k d'
  end.

(** [d[k] = v] *)
Fixpoint dict_set (k : A) (v : V) (d : list (A * V)) : list (A * V) :=
  match d with
  | [] => [(k, v)]
  | (k', v') :: d' =>
      if decide (k = k') then (k, v) :: d' else (k', v') :: dict_set k v d'
  end.

(** [d.keys()] *)
Definition dict_keys (d : list (A * V)) : list A := d.*1.
End Containers.

(** ** Links and nodes *)

Module Link.
(** Modelled from the spec: [links.Link] (section 3), a frozen dataclass
    of three strings, equal and hashed by its fields.  [direction] is
    declared to be one of ["in"], ["out"], ["bidir"]; Python does not
    enforce it. *)
Record t := mk { kind : string; direction : string; tag : string }.

#[global] Instance eq_dec : EqDecision t.
Proof. solve_decision. Defined.
End Link.

(** ** Python values and JSON documents *)

(** The values a metadata dict can hold ([Dict[str, Any]]): the JSON-shaped
    ones, sets, and [Link] objects.  Floats are left out. *)
Inductive pyval :=
| PNone
| PBool (b : bool)
| PInt (n : Z)
| PStr (s : string)
| PList (xs : list pyval)
| PDict (kvs : list (string * pyval))
| PSet (xs : list pyval)
| PLink (l : Link.t).

(** A JSON text is represented by the document it denotes; [json.dumps]
    produces such a text and [json.loads] reads it back. *)
Inductive json :=
| JNull
| JBool (b : bool)
| JInt (n : Z)
| JStr (s : string)
| JArr (xs : list json)
| JObj (kvs : list (string * json)).

(** The two encoders [json.dumps] is called with.  The base [JSONEncoder]
    raises [TypeError] on an object that is not JSON-shaped;
    [SetAndLinkEncoder.default] turns a dataclass into the dict of its
    fields and any other iterable into a list, which is then encoded. *)
Inductive encoder := JSONEncoder | SetAndLinkEncoder.

Definition link_asdict (l : Link.t) : list (string * json) :=
  [("kind", JStr (Link.kind l));
   ("direction", JStr (Link.direction l));
   ("tag", JStr (Link.tag l))].

Fixpoint json_dumps (cls : encoder) (v : pyval) : result json :=
  match v with
  | PNone => Ok JNull
  | PBool b => Ok (JBool b)
  | PInt n => Ok (JInt n)
  | PStr s => Ok (JStr s)
  | PList xs =>
      let* js :=
        (fix items (l : list pyval) : result (list json) :=
           match l with
           | [] => Ok []
           | x :: l' =>
               let* j := json_dumps cls x in
               let* js := items l' in
               Ok (j :: js)
           end) xs in
      Ok (JArr js)
  | PDict kvs =>
      let* js :=
        (fix items (l : list (string * pyval)) : result (list (string * json)) :=
           match l with
           | [] => Ok []
           | (k, x) :: l' =>
               let* j := json_dumps cls x in
               let* js := items l' in
               Ok ((k, j) :: js)
           end) kvs in
      Ok (JObj js)
  | PSet xs =>
      match cls with
      | JSONEncoder => Raise TypeError
      | SetAndLinkEncoder =>
          let* js :=
            (fix items (l : list pyval) : result (list json) :=
               match l with
               | [] => Ok []
               | x :: l' =>
                   let* j := json_dumps cls x in
                   let* js := items l' in
                   Ok (j :: js)
               end) xs in
          Ok (JArr js)
      end
  | PLink l =>
      match cls with
      | JSONEncoder => Raise TypeError
      | SetAndLinkEncoder => Ok (JObj (link_asdict l))
      end
  end.

Fixpoint json_value (j : json) : pyval :=
  match j with
  | JNull => PNone
  | JBool b => PBool b
  | JInt n => PInt n
  | JStr s => PStr s
  | JArr xs => PList (map json_value xs)
  | JObj kvs => PDict (map (λ kv, (kv.1, json_value kv.2)) kvs)
  end.

(** [json.loads(json_blob or "")]: a blob is [None] when the column is
    NULL or holds the empty string, and [json.loads("")] raises. *)
Definition json_loads (json_blob : option json) : result pyval :=
  match json_blob with
  | Some j => Ok (json_value j)
  | None => Raise JSONDecodeError
  end.

Module Node.
(** [Node]: [links] is the set of links in iteration order. *)
Record t := mk {
  text : string;
  id : option string;
  metadata : pyval;
  links : list Link.t
}.
End Node.

(** ** Serialization *)

Definition _serialize_metadata (md : pyval) : result json :=
  match md with
  | PDict kvs =>
      match dict_get "links" kvs with
      | Some (PSet xs) =>
          let md := dict_set "links" (PList xs) kvs in
          json_dumps JSONEncoder (PDict md)
      | _ => json_dumps JSONEncoder (PDict kvs)
      end
  | _ => Raise AttributeError
  end.

Definition _serialize_links (links : list Link.t) : result json :=
  json_dumps SetAndLinkEncoder (PList (map PLink links)).

Definition _deserialize_metadata (json_blob : option json) : result pyval :=
  json_loads json_blob.

(** [link["kind"]] on a decoded element. *)
Definition getitem (v : pyval) (key : string) : result pyval :=
  match v with
  | PDict kvs =>
      match dict_get key kvs with
      | Some x => Ok x
      | None => Raise (KeyError key)
      end
  | _ => Raise TypeError
  end.

(** [Link]'s fields are declared [str]; a decoded field that is not a JSON
    string is outside that type and is rejected here. *)
Definition as_str (v : pyval) : result string :=
  match v with
  | PStr s => Ok s
  | _ => Raise TypeError
  end.

Definition decode_link (link : pyval) : result Link.t :=
  let* k := bind (getitem link "kind") as_str in
  let* d := bind (getitem link "direction") as_str in
  let* t := bind (getitem link "tag") as_str in
  Ok (Link.mk k d t).

Fixpoint decode_links (items : list pyval) (acc : list Link.t)
  : result (list Link.t) :=
  match items with
  | [] => Ok acc
  | link :: items' =>
      let* l := decode_link link in
      decode_links items' (set_add l acc)
  end.

(** The comprehension iterates what [json.loads] returned: the elements
    of a list, the keys of a dict, the characters of a string; any other
    value is not iterable. *)
Definition _deserialize_links (json_blob : option json) : result (list Link.t) :=
  let* v := json_loads json_blob in
  match v with
  | PList items => decode_links items []
  | PDict kvs => decode_links (map (λ kv, PStr kv.1) kvs) []
  | PStr s => decode_links (map (λ c, PStr (String c "")) (String.list_ascii_of_string s)) []
  | _ => Raise TypeError
  end.

Module Row.
(** A row of the passage table as the read statements select it. *)
Record t := mk {
  content_id : string;
  text_content : string;
  metadata_blob : option json;
  links_blob : option json
}.
End Row.

Definition _row_to_node (row : Row.t) : result Node.t :=
  let* metadata := _deserialize_metadata (Row.metadata_blob row) in
  let* links := _deserialize_links (Row.links_blob row) in
  Ok (Node.mk (Row.text_content row) (Some (Row.content_id row)) metadata links).

(** ** The write path *)

(** A statement handed to [cq.execute] by the write path, with its bound
    parameters. *)
Inductive statement (vector : Type) :=
| InsertPassage (content_id text_content : string) (text_embedding : vector)
    (link_to_tags : list (string * string)) (metadata_blob links_blob : json)
| InsertTag (target_content_id kind tag : string)
    (target_text_embedding : vector).
Arguments InsertPassage {vector}.
Arguments InsertTag {vector}.

(** The two tag sets the inner loop of [add_nodes] builds from a node's
    links: [(link_to_tags, link_from_tags)]. *)
Definition tag_sets_step (sets : list (string * string) * list (string * string))
    (tag : Link.t) : list (string * string) * list (string * string) :=
  let '(link_to_tags, link_from_tags) := sets in
  let link_from_tags :=
    if (Link.direction tag =? "in") || (Link.direction tag =? "bidir")
    then set_add (Link.kind tag, Link.tag tag) link_from_tags
    else link_from_tags in
  let link_to_tags :=
    if (Link.direction tag =? "out") || (Link.direction tag =? "bidir")
    then set_add (Link.kind tag, Link.tag tag) link_to_tags
    else link_to_tags in
  (link_to_tags, link_from_tags).

Definition tag_sets (links : list Link.t)
  : list (string * string) * list (string * string) :=
  foldl tag_sets_step ([], []) links.

Section WritePath.
Context {vector : Type}.
(** [secrets.token_hex(8)]: the value of the n-th draw. *)
Variable token_hex : nat → string.
(** [self._embedding.embed_texts] *)
Variable embed_texts : list string → list vector.

(** The first loop of [add_nodes]: [not node.id] holds for [None] and for
    the empty string. *)
Fixpoint assign_ids (nodes : list Node.t) (draws : nat) : list string :=
  match nodes with
  | [] => []
  | node :: nodes' =>
      match Node.id node with
      | Some (String c s) => String c s :: assign_ids nodes' draws
      | _ => token_hex draws :: assign_ids nodes' (S draws)
      end
  end.

(** [zip(node_ids, texts, text_embeddings, metadatas, nodes_links)] stops
    at the shortest of its arguments. *)
Definition zip5 (node_ids texts : list string) (text_embeddings : list vector)
    (metadatas : list pyval) (nodes_links : list (list Link.t)) :=
  zip node_ids (zip texts (zip text_embeddings (zip metadatas nodes_links))).

(** The body of the second loop: the statements enqueued for one node. *)
Definition node_statements (node_id text : string) (text_embedding : vector)
    (metadata : pyval) (links : list Link.t)
  : result (list (statement vector)) :=
  let '(link_to_tags, link_from_tags) := tag_sets links in
  let* metadata_blob := _serialize_metadata metadata in
  let* links_blob := _serialize_links links in
  Ok (InsertPassage node_id text text_embedding link_to_tags
        metadata_blob links_blob
      :: map (λ '(kind, value), InsertTag node_id kind value text_embedding)
           link_from_tags).

(** The second loop, over the queue [cq] of enqueued statements.  When a
    serialization raises, the statements enqueued so far stay enqueued. *)
Fixpoint add_nodes_loop
    (tuples : list (string * (string * (vector * (pyval * list Link.t)))))
    (cq : list (statement vector))
  : list (statement vector) * result () :=
  match tuples with
  | [] => (cq, Ok ())
  | (node_id, (text, (text_embedding, (metadata, links)))) :: tuples' =>
      match node_statements node_id text text_embedding metadata links with
      | Ok stmts => add_nodes_loop tuples' (cq ++ stmts)
      | Raise e => (cq, Raise e)
      end
  end.

(** [GraphStore.add_nodes]: the statements enqueued and the value
    returned. *)
Definition add_nodes (nodes : list Node.t)
  : list (statement vector) * result (list string) :=
  let node_ids := assign_ids nodes 0 in
  let texts := map Node.text nodes in
  let metadatas := map Node.metadata nodes in
  let nodes_links := map Node.links nodes in
  let text_embeddings := embed_texts texts in
  let tuples := zip5 node_ids texts text_embeddings metadatas nodes_links in
  match add_nodes_loop tuples [] with
  | (cq, Ok _) => (cq, Ok node_ids)
  | (cq, Raise e) => (cq, Raise e)
  end.
End WritePath.

(** ** The tables *)

Module Passage.
(** A row of the node table under its primary key [content_id].  A
    collection column that was written empty reads back as NULL. *)
Record t (vector : Type) := mk {
  text_content : string;
  text_embedding : vector;
  link_to_tags : option (list (string * string));
  metadata_blob : option json;
  links_blob : option json
}.
Arguments mk {vector}.
Arguments text_content {vector}.
Arguments text_embedding {vector}.
Arguments link_to_tags {vector}.
Arguments metadata_blob {vector}.
Arguments links_blob {vector}.
End Passage.

Module Target.
(** A row of the targets table. *)
Record t (vector : Type) := mk {
  target_content_id : string;
  kind : string;
  tag : string;
  target_text_embedding : vector
}.
Arguments mk {vector}.
Arguments target_content_id {vector}.
Arguments kind {vector}.
Arguments tag {vector}.
Arguments target_text_embedding {vector}.
End Target.

Module Store.
(** The two tables, and the rows the approximate nearest-neighbour
    ordering of the backend puts first: [ann_passages q limit] are the
    keys of the node rows selected by [ORDER BY text_embedding ANN OF q
    LIMIT limit], [ann_targets kind tag q limit] the rows of the targets
    table selected among those of the partition [(kind, tag)]. *)
Record t (vector : Type) := mk {
  passages : gmap string (Passage.t vector);
  targets : list (Target.t vector);
  ann_passages : vector → Z → list string;
  ann_targets : string → string → vector → Z → list (Target.t vector)
}.
Arguments mk {vector}.
Arguments passages {vector}.
Arguments targets {vector}.
Arguments ann_passages {vector}.
Arguments ann_targets {vector}.
End Store.

Section ReadStatements.
Context {vector : Type}.
Variable store : Store.t vector.

(** [_query_by_id]: [WHERE content_id = ?] on the primary key. *)
Definition query_by_id (content_id : string) : list Row.t :=
  match Store.passages store !! content_id with
  | Some p => [Row.mk content_id (Passage.text_content p)
                 (Passage.metadata_blob p) (Passage.links_blob p)]
  | None => []
  end.

(** [_query_ids_and_link_to_tags_by_id] *)
Definition query_ids_and_link_to_tags_by_id (content_id : string)
  : list (string * option (list (string * string))) :=
  match Store.passages store !! content_id with
  | Some p => [(content_id, Passage.link_to_tags p)]
  | None => []
  end.

(** [_query_ids_and_link_to_tags_by_embedding] *)
Definition query_ids_and_link_to_tags_by_embedding (q : vector) (limit : Z)
  : list (string * option (list (string * string))) :=
  mjoin (map query_ids_and_link_to_tags_by_id (Store.ann_passages store q limit)).

(** [_query_ids_and_embedding_by_embedding] *)
Definition query_ids_and_embedding_by_embedding (q : vector) (limit : Z)
  : list (string * vector) :=
  omap (λ content_id,
          p ← Store.passages store !! content_id;
          Some (content_id, Passage.text_embedding p))
       (Store.ann_passages store q limit).

(** [_query_source_tags_by_id] *)
Definition query_source_tags_by_id (content_id : string)
  : list (option (list (string * string))) :=
  match Store.passages store !! content_id with
  | Some p => [Passage.link_to_tags p]
  | None => []
  end.

(** [_query_targets_by_kind_and_value]: [WHERE kind = ? AND tag = ?] *)
Definition query_targets_by_kind_and_value (kind tag : string)
  : list (Target.t vector) :=
  filter (λ t, Target.kind t = kind ∧ Target.tag t = tag) (Store.targets store).

(** [_query_targets_embeddings_by_kind_and_tag_and_embedding] *)
Definition query_targets_embeddings_by_kind_and_tag_and_embedding
    (kind tag : string) (q : vector) (limit : Z) : list (Target.t vector) :=
  Store.ann_targets store kind tag q limit.
End ReadStatements.

(** ** The concurrent query scope *)

(** [concurrency.ConcurrentQueries] is not among the sources; it is
    modelled from section 4.1 of the specification.  A scheduled call with
    its callback is a value of type [Q]; [complete q s] is the effect of the
    call [q] completing on the state [s] the callbacks share: the new state
    and the calls its callback scheduled.  The order of completion is an
    input of the model ([pick]), so a statement about every [pick] is a
    statement about every order. *)
Section ConcurrentQueries.
Context {St Q : Type}.
Variable complete : Q → St → St * list Q.

(** Modelled from the spec: the scope of [ConcurrentQueries].  [execute]
    schedules one backend call; when the call completes its callback
    receives the rows and may call [execute] again; callbacks complete in
    no guaranteed order and one at a time; leaving the scope waits until
    no call is pending. *)
Record scope := Scope {
  shared : St;
  pending : list Q;     (* calls scheduled and not yet completed *)
  executed : list Q     (* every call passed to [execute], in order *)
}.

(** Modelled from the spec: [cq.execute(statement, parameters, callback)]
    schedules the call. *)
Definition cq_execute (q : Q) (st : scope) : scope :=
  Scope (shared st) (pending st ++ [q]) (executed st ++ [q]).

(** Modelled from the spec: the [i]-th pending call completes, and its
    callback runs. *)
Definition cq_complete (i : nat) (st : scope) : option scope :=
  match pending st !! i with
  | Some q =>
      let '(s, new) := complete q (shared st) in
      Some (Scope s (delete i (pending st) ++ new) (executed st ++ new))
  | None => None
  end.

Inductive cq_step : scope → scope → Prop :=
| cq_step_complete i st st' :
    cq_complete i st = Some st' → cq_step st st'.

(** One pending call completes, chosen by [n]; nothing happens when no
    call is pending. *)
Definition cq_progress (n : nat) (st : scope) : scope :=
  match cq_complete (n `mod` length (pending st)) st with
  | Some st' => st'
  | None => st
  end.

(** Modelled from the spec: leaving the scope.  Pending calls complete,
    in the order [pick] chooses, until none is left; at most [fuel] of
    them. *)
Fixpoint cq_exit (fuel : nat) (pick : nat → nat) (st : scope) : scope :=
  match fuel with
  | O => st
  | S fuel' => cq_exit fuel' (λ n, pick (S n)) (cq_progress (pick O) st)
  end.

(** The scope has been left: no call is pending. *)
Definition quiescent (st : scope) : bool :=
  match pending st with [] => true | _ :: _ => false end.
End ConcurrentQueries.
Arguments scope : clear implicits.
Arguments Scope {St Q}.

(** ** [_nodes_with_ids] *)

(** The state the callbacks of [_nodes_with_ids] share: the [results] dict
    and the first exception a callback raised, which leaving the scope
    raises again (section 4.1 of the specification: an error from a
    callback is captured and re-raised on scope exit). *)
Record nwi_state := NwiState {
  results : list (string * option Node.t);
  raised : option exn
}.

(** The one call [_nodes_with_ids] schedules: [_query_by_id] with the
    callback [add_nodes]. *)
Inductive nwi_call := QueryById (node_id : string).

#[global] Instance nwi_call_eq_dec : EqDecision nwi_call.
Proof. solve_decision. Defined.

(** [get_result(node_id)] *)
Definition get_result (results : list (string * option Node.t))
    (node_id : string) : result Node.t :=
  match dict_get node_id results with
  | Some (Some result) => Ok result
  | Some None => Raise (ValueError ("No node with ID '" ++ node_id ++ "'"))
  | None => Raise (KeyError node_id)
  end.

(** [[get_result(node_id) for node_id in ids]] *)
Fixpoint get_results (results : list (string * option Node.t))
    (ids : list string) : result (list Node.t) :=
  match ids with
  | [] => Ok []
  | node_id :: ids' =>
      let* node := get_result results node_id in
      let* nodes := get_results results ids' in
      Ok (node :: nodes)
  end.

Section NodesWithIds.
Context {vector : Type}.
Variable store : Store.t vector.

(** The callback [add_nodes(rows)]. *)
Fixpoint nwi_add_nodes (rows : list Row.t) (s : nwi_state) : nwi_state :=
  match rows with
  | [] => s
  | row :: rows' =>
      match _row_to_node row with
      | Ok node =>
          nwi_add_nodes rows'
            (NwiState (dict_set (Row.content_id row) (Some node) (results s))
               (raised s))
      | Raise e =>
          NwiState (results s)
            (match raised s with Some e0 => Some e0 | None => Some e end)
      end
  end.

Definition nwi_complete (q : nwi_call) (s : nwi_state)
  : nwi_state * list nwi_call :=
  match q with
  | QueryById node_id => (nwi_add_nodes (query_by_id store node_id) s, [])
  end.

(** The loop over [ids].  Callbacks of calls scheduled earlier may
    complete while the loop runs: before the loop reads [results] for the
    n-th id, the pending calls chosen by [sched n] complete. *)
Fixpoint nwi_loop (ids : list string) (sched : nat → list nat)
    (st : scope nwi_state nwi_call) : scope nwi_state nwi_call :=
  match ids with
  | [] => st
  | node_id :: ids' =>
      let st := foldl (λ st n, cq_progress nwi_complete n st) st (sched O) in
      let st :=
        match dict_get node_id (results (shared st)) with
        | None =>
            let s := NwiState (dict_set node_id None (results (shared st)))
                       (raised (shared st)) in
            cq_execute (QueryById node_id)
              (Scope s (pending st) (executed st))
        | Some _ => st
        end in
      nwi_loop ids' (λ n, sched (S n)) st
  end.

(** [GraphStore._nodes_with_ids]: the calls issued and the value
    returned.  No callback schedules a call, so leaving the scope takes
    as many completions as calls are pending. *)
Definition _nodes_with_ids (sched : nat → list nat) (pick : nat → nat)
    (ids : list string) : list nwi_call * result (list Node.t) :=
  let st := nwi_loop ids sched (Scope (NwiState [] None) [] []) in
  let st := cq_exit nwi_complete (length (pending st)) pick st in
  (executed st,
   match raised (shared st) with
   | Some e => Raise e
   | None => get_results (results (shared st)) ids
   end).
End NodesWithIds.

(** ** [traversal_search] *)

(** The state the callbacks of [traversal_search] share. *)
Record ts_state := TsState {
  visited_ids : list (string * Z);
  visited_tags : list ((string * string) * Z)
}.

(** The calls [traversal_search] schedules, each with the depth its
    callback closes over. *)
Inductive ts_call (vector : Type) :=
| QueryIdsAndLinkToTagsByEmbedding (query_embedding : vector) (k : Z)
    (* callback: visit_nodes(0, nodes) *)
| QueryTargetsByKindAndValue (kind value : string) (d : Z)
    (* callback: visit_targets(d, rows) *)
| QueryIdsAndLinkToTagsById (node_id : string) (d : Z).
    (* callback: visit_nodes(d + 1, rows) *)
Arguments QueryIdsAndLinkToTagsByEmbedding {vector}.
Arguments QueryTargetsByKindAndValue {vector}.
Arguments QueryIdsAndLinkToTagsById {vector}.

(** Truth value of a collection column: NULL and the empty set are false. *)
Definition truthy {A} (c : option (list A)) : bool :=
  match c with
  | Some (_ :: _) => true
  | _ => false
  end.

(** [c or []] *)
Definition or_empty {A} (c : option (list A)) : list A :=
  match c with
  | Some (x :: l) => x :: l
  | _ => []
  end.

Section TraversalSearch.
Context {vector : Type}.
Variable store : Store.t vector.
Variable embed_query : string → vector.
Variable depth : Z.

(** The body of the loop over [node.link_to_tags] in [visit_nodes]. *)
Definition visit_tag (d : Z)
    (acc : list ((string * string) * Z) * list (string * string))
    (kv : string * string) :=
  let '(visited_tags, outgoing_tags) := acc in
  if (d <=? default depth (dict_get kv visited_tags))%Z
  then (dict_set kv d visited_tags, set_add kv outgoing_tags)
  else (visited_tags, outgoing_tags).

(** The body of the loop over [nodes] in [visit_nodes]. *)
Definition visit_node (d : Z)
    (acc : list (string * Z) * list ((string * string) * Z)
           * list (string * string))
    (node : string * option (list (string * string))) :=
  let '(visited_ids, visited_tags, outgoing_tags) := acc in
  let content_id := node.1 in
  if (d <=? default depth (dict_get content_id visited_ids))%Z then
    let visited_ids := dict_set content_id d visited_ids in
    if (d <? depth)%Z && truthy node.2 then
      let '(visited_tags, outgoing_tags) :=
        foldl (visit_tag d) (visited_tags, outgoing_tags) (or_empty node.2) in
      (visited_ids, visited_tags, outgoing_tags)
    else (visited_ids, visited_tags, outgoing_tags)
  else (visited_ids, visited_tags, outgoing_tags).

Definition visit_nodes (d : Z)
    (nodes : list (string * option (list (string * string))))
    (s : ts_state) : ts_state * list (ts_call vector) :=
  let '(visited_ids, visited_tags, outgoing_tags) :=
    foldl (visit_node d) (visited_ids s, visited_tags s, []) nodes in
  (TsState visited_ids visited_tags,
   map (λ '(kind, value), QueryTargetsByKindAndValue kind value d)
     outgoing_tags).

Definition visit_targets (d : Z) (targets : list (Target.t vector))
    (s : ts_state) : ts_state * list (ts_call vector) :=
  let new_nodes_at_next_depth :=
    foldl (λ new target,
             let content_id := Target.target_content_id target in
             if (d <? default depth (dict_get content_id (visited_ids s)))%Z
             then set_add content_id new else new)
      [] targets in
  (s, map (λ node_id, QueryIdsAndLinkToTagsById node_id d)
        new_nodes_at_next_depth).

Definition ts_complete (q : ts_call vector) (s : ts_state)
  : ts_state * list (ts_call vector) :=
  match q with
  | QueryIdsAndLinkToTagsByEmbedding query_embedding k =>
      visit_nodes 0 (query_ids_and_link_to_tags_by_embedding store query_embedding k) s
  | QueryTargetsByKindAndValue kind value d =>
      visit_targets d (query_targets_by_kind_and_value store kind value) s
  | QueryIdsAndLinkToTagsById node_id d =>
      visit_nodes (d + 1) (query_ids_and_link_to_tags_by_id store node_id) s
  end.

(** The scope of [traversal_search] when it is entered and the first
    call is scheduled. *)
Definition ts_enter (query : string) (k : Z)
  : scope ts_state (ts_call vector) :=
  cq_execute (QueryIdsAndLinkToTagsByEmbedding (embed_query query) k)
    (Scope (TsState [] []) [] []).

(** [GraphStore.traversal_search]: the calls issued in its scope, the
    [visited_ids] it ends with, and what [_nodes_with_ids] does on their
    keys.  [None] when [fuel] completions do not empty the scope. *)
Definition traversal_search (fuel : nat) (pick : nat → nat)
    (sched' : nat → list nat) (pick' : nat → nat) (query : string) (k : Z)
  : option (list (ts_call vector) * list (string * Z)
            * (list nwi_call * result (list Node.t))) :=
  let st := cq_exit ts_complete fuel pick (ts_enter query k) in
  if quiescent st then
    Some (executed st, visited_ids (shared st),
          _nodes_with_ids store sched' pick' (dict_keys (visited_ids (shared st))))
  else None.
End TraversalSearch.

(** ** [_get_adjacent] *)

Module Edge.
(** [_Edge] *)
Record t (vector : Type) := mk {
  target_content_id : string;
  target_text_embedding : vector
}.
Arguments mk {vector}.
Arguments target_content_id {vector}.
Arguments target_text_embedding {vector}.
End Edge.

(** The state the callbacks of [_get_adjacent] share: the caller's
    [visited_tags] set, which they update in place, and [targets]. *)
Record ga_state (vector : Type) := GaState {
  ga_visited_tags : list (string * string);
  ga_targets : list (string * vector)
}.
Arguments GaState {vector}.
Arguments ga_visited_tags {vector}.
Arguments ga_targets {vector}.

Inductive ga_call (vector : Type) :=
| QuerySourceTagsById (source_id : string)
    (* callback: add_sources *)
| QueryTargetsEmbeddingsByKindAndTagAndEmbedding (kind tag : string)
    (query_embedding : vector) (limit : Z).
    (* callback: add_targets *)
Arguments QuerySourceTagsById {vector}.
Arguments QueryTargetsEmbeddingsByKindAndTagAndEmbedding {vector}.

(** [k_per_tag or 10]: [None] and [0] are false. *)
Definition or_default (k_per_tag : option Z) (default : Z) : Z :=
  match k_per_tag with
  | None => default
  | Some 0%Z => default
  | Some k => k
  end.

(** [targets.setdefault(key, value)] *)
Definition dict_setdefault {V} (key : string) (value : V)
    (d : list (string * V)) : list (string * V) :=
  match dict_get key d with
  | Some _ => d
  | None => dict_set key value d
  end.

Section GetAdjacent.
Context {vector : Type}.
Variable store : Store.t vector.

(** The body of the loop over [row.link_to_tags or []] in
    [add_sources]. *)
Definition add_source_tag (query_embedding : vector) (k_per_tag : option Z)
    (acc : list (string * string) * list (ga_call vector))
    (new_tag : string * string) :=
  let '(visited_tags, calls) := acc in
  if decide (new_tag ∈ visited_tags) then (visited_tags, calls)
  else
    (set_add new_tag visited_tags,
     (calls ++ [QueryTargetsEmbeddingsByKindAndTagAndEmbedding
                  new_tag.1 new_tag.2 query_embedding
                  (or_default k_per_tag 10)])%list).

Definition add_sources (query_embedding : vector) (k_per_tag : option Z)
    (rows : list (option (list (string * string)))) (s : ga_state vector)
  : ga_state vector * list (ga_call vector) :=
  let '(visited_tags, calls) :=
    foldl (λ acc row,
             foldl (add_source_tag query_embedding k_per_tag) acc (or_empty row))
      (ga_visited_tags s, []) rows in
  (GaState visited_tags (ga_targets s), calls).

Definition add_targets (rows : list (Target.t vector)) (s : ga_state vector)
  : ga_state vector * list (ga_call vector) :=
  (GaState (ga_visited_tags s)
     (foldl (λ targets row,
               dict_setdefault (Target.target_content_id row)
                 (Target.target_text_embedding row) targets)
        (ga_targets s) rows),
   []).

Definition ga_complete (query_embedding : vector) (k_per_tag : option Z)
    (q : ga_call vector) (s : ga_state vector)
  : ga_state vector * list (ga_call vector) :=
  match q with
  | QuerySourceTagsById source_id =>
      add_sources query_embedding k_per_tag
        (query_source_tags_by_id store source_id) s
  | QueryTargetsEmbeddingsByKindAndTagAndEmbedding kind tag q limit =>
      add_targets
        (query_targets_embeddings_by_kind_and_tag_and_embedding
           store kind tag q limit) s
  end.

(** The scope of [_get_adjacent] once the loop over [source_ids] has
    scheduled its calls.  The loop reads nothing the callbacks write, so
    a callback completing during the loop has the effect of the same
    callback completing after it. *)
Definition ga_enter (source_ids : list string)
    (visited_tags : list (string * string))
  : scope (ga_state vector) (ga_call vector) :=
  foldl (λ st source_id, cq_execute (QuerySourceTagsById source_id) st)
    (Scope (GaState visited_tags []) [] []) source_ids.

(** [GraphStore._get_adjacent]: the calls issued, [visited_tags] as the
    callbacks leave it, and the edges returned.  [None] when [fuel]
    completions do not empty the scope. *)
Definition _get_adjacent (fuel : nat) (pick : nat → nat)
    (source_ids : list string) (visited_tags : list (string * string))
    (query_embedding : vector) (k_per_tag : option Z)
  : option (list (ga_call vector) * list (string * string)
            * list (Edge.t vector)) :=
  let st := cq_exit (ga_complete query_embedding k_per_tag) fuel pick
              (ga_enter source_ids visited_tags) in
  if quiescent st then
    Some (executed st, ga_visited_tags (shared st),
          map (λ '(content_id, embedding), Edge.mk content_id embedding)
            (ga_targets (shared st)))
  else None.
End GetAdjacent.

(** ** [mmr_traversal_search] *)

(** What [mmr_traversal_search] uses of [_mmr_helper.MmrHelper], which is
    not among the sources: the statements below hold for every
    implementation.  The helper is an object the search updates in place;
    here each operation returns the updated helper. *)
Class MmrHelper (vector float helper : Type) := {
  (** [MmrHelper(k=..., query_embedding=..., lambda_mult=...,
      score_threshold=...)] *)
  new_helper : Z → vector → float → float → helper;
  add_candidates : list (string * vector) → helper → helper;
  pop_best : helper → option string * helper;
  candidate_ids : helper → list string;
  selected_ids : helper → list string
}.

(** The state of the selection loop, and a record of what it did:
    [expanded] lists the ids [_get_adjacent] was called for, each with the
    depth [depths] held for it at that moment; [adjacent_calls] lists the
    calls issued inside [_get_adjacent]. *)
Record mmr_state (vector helper : Type) := MmrState {
  mmr_helper : helper;
  mmr_depths : list (string * Z);
  mmr_visited_tags : list (string * string);
  expanded : list (string * Z);
  adjacent_calls : list (ga_call vector)
}.
Arguments MmrState {vector helper}.
Arguments mmr_helper {vector helper}.
Arguments mmr_depths {vector helper}.
Arguments mmr_visited_tags {vector helper}.
Arguments expanded {vector helper}.
Arguments adjacent_calls {vector helper}.

Section MmrTraversalSearch.
Context {vector float helper : Type} `{!MmrHelper vector float helper}.
Variable store : Store.t vector.
Variable depth : Z.
Variable adjacent_k : Z.
Variable query_embedding : vector.

(** The body of the loop over [adjacents]. *)
Definition add_adjacent (next_depth : Z)
    (acc : list (string * vector) * list (string * Z))
    (adjacent : Edge.t vector) :=
  let '(new_candidates, depths) := acc in
  (dict_set (Edge.target_content_id adjacent)
     (Edge.target_text_embedding adjacent) new_candidates,
   if (next_depth <?
         default (depth + 1) (dict_get (Edge.target_content_id adjacent) depths))%Z
   then dict_set (Edge.target_content_id adjacent) next_depth depths
   else depths).

(** [for _ in range(k)], [n] iterations left; [i] counts the iterations
    done.  The result is [None] when a scope of [_get_adjacent] does not
    empty within [fuel] completions; otherwise the state the loop stops
    in, and the exception it stopped with if any. *)
Fixpoint mmr_loop (fuel : nat) (sched : nat → nat → nat) (n i : nat)
    (s : mmr_state vector helper)
  : option (mmr_state vector helper * result ()) :=
  match n with
  | O => Some (s, Ok ())
  | S n' =>
      let '(selected, helper') := pop_best (mmr_helper s) in
      match selected with
      | None =>
          Some (MmrState helper' (mmr_depths s) (mmr_visited_tags s)
                  (expanded s) (adjacent_calls s), Ok ())
      | Some selected_id =>
          match dict_get selected_id (mmr_depths s) with
          | None =>
              Some (MmrState helper' (mmr_depths s) (mmr_visited_tags s)
                      (expanded s) (adjacent_calls s),
                    Raise (KeyError selected_id))
          | Some selected_depth =>
              let next_depth := (selected_depth + 1)%Z in
              if (next_depth <? depth)%Z then
                match _get_adjacent store fuel (sched i) [selected_id]
                        (mmr_visited_tags s) query_embedding (Some adjacent_k)
                with
                | None => None
                | Some (calls, visited_tags', adjacents) =>
                    let '(new_candidates, depths') :=
                      foldl (add_adjacent next_depth) ([], mmr_depths s)
                        adjacents in
                    mmr_loop fuel sched n' (S i)
                      (MmrState (add_candidates new_candidates helper')
                         depths' visited_tags'
                         (expanded s ++ [(selected_id, selected_depth)])
                         (adjacent_calls s ++ calls))
                end
              else
                mmr_loop fuel sched n' (S i)
                  (MmrState helper' (mmr_depths s) (mmr_visited_tags s)
                     (expanded s) (adjacent_calls s))
          end
      end
  end.
End MmrTraversalSearch.

Section MmrTraversalSearchEntry.
Context {vector float helper : Type} `{!MmrHelper vector float helper}.
Variable store : Store.t vector.
Variable embed_query : string → vector.

(** The helper and the depths [mmr_traversal_search] starts its loop
    with. *)
Definition mmr_enter (query : string) (k fetch_k : Z)
    (lambda_mult score_threshold : float) : mmr_state vector helper :=
  let query_embedding := embed_query query in
  let helper0 : helper :=
    new_helper k query_embedding lambda_mult score_threshold in
  let fetched := query_ids_and_embedding_by_embedding store query_embedding fetch_k in
  let helper1 :=
    add_candidates
      (foldl (λ d row, dict_set row.1 row.2 d) [] fetched) helper0 in
  let depths :=
    foldl (λ d candidate_id, dict_set candidate_id 0%Z d) []
      (candidate_ids helper1) in
  MmrState helper1 depths [] [] [].

(** [GraphStore.mmr_traversal_search]: the state its loop stops in and
    what [_nodes_with_ids] does on [helper.selected_ids]. *)
Definition mmr_traversal_search (fuel : nat) (sched : nat → nat → nat)
    (sched' : nat → list nat) (pick' : nat → nat)
    (query : string) (k depth fetch_k adjacent_k : Z)
    (lambda_mult score_threshold : float)
  : option (mmr_state vector helper
            * result (list nwi_call * result (list Node.t))) :=
  match mmr_loop store depth adjacent_k (embed_query query) fuel sched
          (Z.to_nat k) O
          (mmr_enter query k fetch_k lambda_mult score_threshold) with
  | None => None
  | Some (s, Raise e) => Some (s, Raise e)
  | Some (s, Ok _) =>
      Some (s, Ok (_nodes_with_ids store sched' pick'
                     (selected_ids (mmr_helper s))))
  end.
End MmrTraversalSearchEntry.

(** ** Construction *)






Section Construction.
(** [len(self._embedding.embed_query("Test Query"))] *)
Variable embedding_dim : nat.



End Construction.

(** ** The write path over an object store

    [add_nodes] once more, with the objects it is passed held in a store of
    objects and reached through references, so that what the call does to
    its arguments can be stated.  Lists and sets the call creates for its
    own use stay values. *)
Module Heap.
Inductive obj :=
| ONode (text : string) (id : option string) (metadata links : nat)
    (* a [Node]; [metadata] and [links] refer to a dict and a set *)
| ODict (kvs : list (string * pyval))
| OSet (links : list Link.t).

(** A new object at a reference not in use. *)
Definition alloc (o : obj) (h : gmap nat obj) : nat * gmap nat obj :=
  let l := fresh (dom h) in (l, <[l := o]> h).

Definition _serialize_metadata (md : nat) (h : gmap nat obj)
  : gmap nat obj * result json :=
  match h !! md with
  | Some (ODict kvs) =>
      match dict_get "links" kvs with
      | Some (PSet xs) =>
          (* md = md.copy() *)
          let '(md, h) := alloc (ODict kvs) h in
          (* md["links"] = list(md["links"]) *)
          let h := alter (λ o, match o with
                               | ODict kvs => ODict (dict_set "links" (PList xs) kvs)
                               | _ => o
                               end) md h in
          match h !! md with
          | Some (ODict kvs) => (h, json_dumps JSONEncoder (PDict kvs))
          | _ => (h, Raise AttributeError)
          end
      | _ => (h, json_dumps JSONEncoder (PDict kvs))
      end
  | _ => (h, Raise AttributeError)
  end.

Section WritePath.
Context {vector : Type}.
Variable token_hex : nat → string.
Variable embed_texts : list string → list vector.

(** The first loop: the fields read from each node. *)
Fixpoint read_nodes (h : gmap nat obj) (nodes : list nat) (draws : nat)
  : result (list (string * (string * (nat * nat)))) :=
  match nodes with
  | [] => Ok []
  | node :: nodes' =>
      match h !! node with
      | Some (ONode text id metadata links) =>
          match id with
          | Some (String c s) =>
              let* rest := read_nodes h nodes' draws in
              Ok ((String c s, (text, (metadata, links))) :: rest)
          | _ =>
              let* rest := read_nodes h nodes' (S draws) in
              Ok ((token_hex draws, (text, (metadata, links))) :: rest)
          end
      | _ => Raise AttributeError
      end
  end.

Fixpoint add_nodes_loop
    (tuples : list (string * (string * (vector * (nat * nat)))))
    (h : gmap nat obj) (cq : list (statement vector))
  : gmap nat obj * list (statement vector) * result () :=
  match tuples with
  | [] => (h, cq, Ok ())
  | (node_id, (text, (text_embedding, (metadata, links)))) :: tuples' =>
      match h !! links with
      | Some (OSet ls) =>
          let '(link_to_tags, link_from_tags) := tag_sets ls in
          let '(h, r) := _serialize_metadata metadata h in
          match r, _serialize_links ls with
          | Ok metadata_blob, Ok links_blob =>
              add_nodes_loop tuples' h
                (cq ++ InsertPassage node_id text text_embedding
                         link_to_tags metadata_blob links_blob
                       :: map (λ '(kind, value),
                                 InsertTag node_id kind value text_embedding)
                            link_from_tags)
          | Raise e, _ => (h, cq, Raise e)
          | _, Raise e => (h, cq, Raise e)
          end
      | _ => (h, cq, Raise TypeError)
      end
  end.

Definition add_nodes (nodes : list nat) (h : gmap nat obj)
  : gmap nat obj * list (statement vector) * result (list string) :=
  match read_nodes h nodes 0 with
  | Raise e => (h, [], Raise e)
  | Ok fields =>
      let node_ids := fields.*1 in
      let texts := map (λ f, f.2.1) fields in
      let metadatas := map (λ f, f.2.2.1) fields in
      let nodes_links := map (λ f, f.2.2.2) fields in
      let text_embeddings := embed_texts texts in
      let tuples :=
        zip node_ids (zip texts (zip text_embeddings
                                   (zip metadatas nodes_links))) in
      match add_nodes_loop tuples h [] with
      | (h, cq, Ok _) => (h, cq, Ok node_ids)
      | (h, cq, Raise e) => (h, cq, Raise e)
      end
  end.
End WritePath.

(** The [Node] value an object denotes. *)
Definition node_at (h : gmap nat obj) (l : nat) : option Node.t :=
  match h !! l with
  | Some (ONode text id metadata links) =>
      match h !! metadata, h !! links with
      | Some (ODict kvs), Some (OSet ls) =>
          Some (Node.mk text id (PDict kvs) ls)
      | _, _ => None
      end
  | _ => None
  end.
End Heap.

(** ** Vocabulary of the statements

    The predicates the statements below are written with. *)

(** *** Serialization and the write path *)



(** The statement writes a row of the node table. *)
Definition is_insert_passage {vector} (s : statement vector) : bool :=
  match s with InsertPassage _ _ _ _ _ _ => true | InsertTag _ _ _ _ => false end.

(** The primary key of the targets row a statement writes. *)
Definition target_key {vector} (s : statement vector)
  : option (string * string * string) :=
  match s with
  | InsertTag target_content_id kind tag _ => Some (kind, tag, target_content_id)
  | InsertPassage _ _ _ _ _ _ => None
  end.

(** A link that makes its node a source of its tag, and one that makes it
    a destination. *)
Definition emits (l : Link.t) : Prop :=
  Link.direction l = "out" ∨ Link.direction l = "bidir".

Definition receives (l : Link.t) : Prop :=
  Link.direction l = "in" ∨ Link.direction l = "bidir".

(** The directions the writer recognizes. *)
Definition recognized (direction : string) : Prop :=
  direction = "out" ∨ direction = "in" ∨ direction = "bidir".

(** A node without the link [l]. *)
Definition without_link (l : Link.t) (node : Node.t) : Node.t :=
  Node.mk (Node.text node) (Node.id node) (Node.metadata node)
    (filter (λ l', l' ≠ l) (Node.links node)).

(** A statement with its [links_blob] parameter blanked. *)
Definition erase_links_blob {vector} (s : statement vector) : statement vector :=
  match s with
  | InsertPassage content_id text_content text_embedding link_to_tags
      metadata_blob _ =>
      InsertPassage content_id text_content text_embedding link_to_tags
        metadata_blob JNull
  | InsertTag _ _ _ _ => s
  end.

(** *** [_nodes_with_ids] *)

(** The node the row of [node_id] decodes to, if the row exists and
    decodes. *)
Definition fetched {vector} (store : Store.t vector) (node_id : string)
  : option Node.t :=
  match query_by_id store node_id with
  | row :: _ =>
      match _row_to_node row with
      | Ok node => Some node
      | Raise _ => None
      end
  | [] => None
  end.

(** The row of [node_id], if any, decodes. *)
Definition decodable {vector} (store : Store.t vector) (node_id : string) : Prop :=
  ∀ row, row ∈ query_by_id store node_id → is_ok (_row_to_node row) = true.

(** *** Reachability through tags *)

(** The outgoing tags of a stored node. *)
Definition link_to_tags_of {vector} (store : Store.t vector) (node_id : string)
  : list (string * string) :=
  match Store.passages store !! node_id with
  | Some p => or_empty (Passage.link_to_tags p)
  | None => []
  end.

(** One tag-hop: [a] emits a tag for which [b] has a row in the targets
    table. *)
Definition hop {vector} (store : Store.t vector) (a b : string) : Prop :=
  ∃ target, target ∈ Store.targets store ∧
    (Target.kind target, Target.tag target) ∈ link_to_tags_of store a ∧
    Target.target_content_id target = b.

(** [within_hops store seeds n b]: [b] is reached from one of [seeds] by
    [n] tag-hops. *)
Inductive within_hops {vector} (store : Store.t vector) (seeds : list string)
  : nat → string → Prop :=
| within_seed node_id :
    node_id ∈ seeds → within_hops store seeds 0 node_id
| within_hop n a b :
    within_hops store seeds n a → hop store a b →
    within_hops store seeds (S n) b.

(** The ids of the rows the seeding query of [traversal_search] returns. *)
Definition ann_seeds {vector} (store : Store.t vector) (q : vector) (k : Z)
  : list string :=
  (query_ids_and_link_to_tags_by_embedding store q k).*1.

(** *** [_get_adjacent] and construction *)

(** The limit a call of [_get_adjacent] binds in its queries on the
    targets table. *)
Definition ga_limit_is {vector} (limit : Z) (q : ga_call vector) : Prop :=
  match q with
  | QuerySourceTagsById _ => True
  | QueryTargetsEmbeddingsByKindAndTagAndEmbedding _ _ _ limit' => limit' = limit
  end.


(** ** Invariants *)

(** The state of the scope of [_nodes_with_ids] once the loop has handled
    the ids [seen]: one call was issued for each of them, and [results]
    holds for each either the mark [None], while its call is pending, or
    what its row decoded to. *)
Definition nwi_inv {vector} (store : Store.t vector) (seen : list string)
    (st : scope nwi_state nwi_call) : Prop :=
  raised (shared st) = None ∧
  NoDup (pending st) ∧
  NoDup (executed st) ∧
  (∀ node_id, QueryById node_id ∈ executed st ↔ node_id ∈ seen) ∧
  (∀ node_id, QueryById node_id ∈ pending st → node_id ∈ seen) ∧
  (∀ node_id, node_id ∉ seen →
     dict_get node_id (results (shared st)) = None) ∧
  (∀ node_id, node_id ∈ seen →
     dict_get node_id (results (shared st))
     = if decide (QueryById node_id ∈ pending st) then Some None
       else Some (fetched store node_id)).

(** What the traversal maintains: every visited id is recorded at a depth
    that is at most [depth] and is the length of a path from a seed, and
    every pending call was scheduled from such a path. *)
Definition ts_visited_ok {vector} (store : Store.t vector) (depth : Z)
    (seeds : list string) (visited_ids : list (string * Z)) : Prop :=
  ∀ node_id d, dict_get node_id visited_ids = Some d →
    ∃ n, d = Z.of_nat n ∧ (d ≤ depth)%Z ∧ within_hops store seeds n node_id.

Definition ts_call_ok {vector} (store : Store.t vector) (depth : Z)
    (query_embedding : vector) (k : Z) (seeds : list string)
    (q : ts_call vector) : Prop :=
  match q with
  | QueryIdsAndLinkToTagsByEmbedding q' k' => q' = query_embedding ∧ k' = k
  | QueryTargetsByKindAndValue kind value d =>
      ∃ n a, d = Z.of_nat n ∧ (d < depth)%Z ∧ within_hops store seeds n a ∧
        (kind, value) ∈ link_to_tags_of store a
  | QueryIdsAndLinkToTagsById node_id d =>
      ∃ n, d = Z.of_nat n ∧ (d < depth)%Z ∧ within_hops store seeds (S n) node_id
  end.

Definition ts_inv {vector} (store : Store.t vector) (depth : Z)
    (query_embedding : vector) (k : Z)
    (st : scope ts_state (ts_call vector)) : Prop :=
  let seeds := ann_seeds store query_embedding k in
  ts_visited_ok store depth seeds (visited_ids (shared st)) ∧
  Forall (ts_call_ok store depth query_embedding k seeds) (pending st).

(** What the selection loop maintains, [roots] being the candidates the
    loop starts with: a recorded depth is never negative and is [0] for
    roots only; an id was expanded only when the depth recorded for it
    passed the gate; and the queries on the targets table bind the limit
    [k_per_tag or 10]. *)
Definition mmr_inv {vector helper} (depth adjacent_k : Z) (roots : list string)
    (s : mmr_state vector helper) : Prop :=
  (∀ node_id d, dict_get node_id (mmr_depths s) = Some d →
     (0 ≤ d)%Z ∧ (d = 0%Z → node_id ∈ roots)) ∧
  (∀ node_id d, (node_id, d) ∈ expanded s →
     (d + 1 < depth)%Z ∧ (0 ≤ d)%Z ∧ (d = 0%Z → node_id ∈ roots)) ∧
  Forall (ga_limit_is (or_default (Some adjacent_k) 10)) (adjacent_calls s).

(** The fields of a stored node, against the node it denotes. *)
Definition fields_of (h : gmap nat Heap.obj)
    (f : string * (nat * nat)) (node : Node.t) : Prop :=
  f.1 = Node.text node ∧
  (∃ kvs, h !! f.2.1 = Some (Heap.ODict kvs) ∧ Node.metadata node = PDict kvs) ∧
  h !! f.2.2 = Some (Heap.OSet (Node.links node)).

(** A tuple of the second loop over the store, against the tuple of
    values it denotes. *)
Definition tuple_of {vector} (h : gmap nat Heap.obj)
    (t : string * (string * (vector * (nat * nat))))
    (t' : string * (string * (vector * (pyval * list Link.t)))) : Prop :=
  t.1 = t'.1 ∧ t.2.1 = t'.2.1 ∧ t.2.2.1 = t'.2.2.1 ∧
  (∃ kvs, h !! t.2.2.2.1 = Some (Heap.ODict kvs) ∧ t'.2.2.2.1 = PDict kvs) ∧
  h !! t.2.2.2.2 = Some (Heap.OSet t'.2.2.2.2).

(** ** Measures

    A bound on the completions a scope needs: the weight of a pending call
    exceeds the weights of the calls its callback schedules. *)

(** The largest number of outgoing tags of a stored node. *)
Definition max_tags {vector} (store : Store.t vector) : nat :=
  max_list ((λ kv, length (or_empty (Passage.link_to_tags kv.2)))
              <$> map_to_list (Store.passages store)).

Definition ga_weight {vector} (store : Store.t vector) (q : ga_call vector) : nat :=
  match q with
  | QuerySourceTagsById source_id => 1 + length (link_to_tags_of store source_id)
  | QueryTargetsEmbeddingsByKindAndTagAndEmbedding _ _ _ _ => 1
  end.

(** The weight of a call of [visit_nodes] with [r] levels left below it,
    when a node has at most [L] tags and a tag at most [M] target rows. *)
Fixpoint ts_visit_weight (L M r : nat) : nat :=
  match r with
  | O => 1
  | S r' => 1 + L * (1 + M * ts_visit_weight L M r')
  end.

Definition ts_weight {vector} (store : Store.t vector) (depth : Z)
    (q : ts_call vector) : nat :=
  let L := max_tags store in
  let M := length (Store.targets store) in
  let visit d := ts_visit_weight L M (Z.to_nat (depth - d)) in
  match q with
  | QueryIdsAndLinkToTagsByEmbedding query_embedding k =>
      1 + length (Store.ann_passages store query_embedding k) * L
          * (1 + M * visit 1%Z)
  | QueryTargetsByKindAndValue _ _ d => 1 + M * visit (d + 1)%Z
  | QueryIdsAndLinkToTagsById _ d => visit (d + 1)%Z
  end.

(** ** Example data *)

Definition ex_token_hex (n : nat) : string := "9f86d081884c7d65".

Definition ex_embed_texts (texts : list string) : list nat :=
  map String.length texts.

Definition ex_link_out : Link.t := Link.mk "hyperlink" "out" "T".
Definition ex_link_in : Link.t := Link.mk "hyperlink" "in" "U".
Definition ex_link_bidir : Link.t := Link.mk "keyword" "bidir" "K".
Definition ex_link_odd : Link.t := Link.mk "hyperlink" "sideways" "V".

Definition ex_node : Node.t :=
  Node.mk "alpha" (Some "a")
    (PDict [("links", PSet [PStr "x"; PStr "y"]); ("page", PInt 3)])
    [ex_link_out; ex_link_in; ex_link_bidir].

Definition ex_node_odd : Node.t :=
  Node.mk "beta" None (PDict []) [ex_link_odd].

(** Scenario S2 of the specification: node [a] has an outgoing link to the
    tag ["T"], node [b] an incoming link from it; [c] stands apart.  The
    nearest-neighbour orderings return the rows in table order. *)
Definition ex_passages : gmap string (Passage.t nat) :=
  list_to_map
    [("a", Passage.mk "alpha" 5 (Some [("hyperlink", "T")]) (Some (JObj []))
             (Some (JArr [JObj (link_asdict (Link.mk "hyperlink" "out" "T"))])));
     ("b", Passage.mk "beta" 4 None (Some (JObj []))
             (Some (JArr [JObj (link_asdict (Link.mk "hyperlink" "in" "T"))])));
     ("c", Passage.mk "gamma" 5 None (Some (JObj [("page", JInt 7)]))
             (Some (JArr [])))].

Definition ex_targets : list (Target.t nat) :=
  [Target.mk "b" "hyperlink" "T" 4].

Definition ex_store : Store.t nat :=
  Store.mk ex_passages ex_targets
    (λ _ limit, take (Z.to_nat limit) ["a"; "c"; "b"])
    (λ kind tag _ limit,
       take (Z.to_nat limit)
         (filter (λ t, Target.kind t = kind ∧ Target.tag t = tag) ex_targets)).

Definition ex_embed_query (query : string) : nat := String.length query.

(** A helper that selects its candidates in the order they arrived; it
    stands for [MmrHelper] in the examples. *)
Record fifo_helper := FifoHelper {
  fifo_candidates : list (string * nat);
  fifo_selected : list string
}.

#[global] Instance fifo_mmr_helper : MmrHelper nat () fifo_helper := {
  new_helper _ _ _ _ := FifoHelper [] [];
  add_candidates cs h :=
    FifoHelper
      (foldl (λ acc c,
                if decide (c.1 ∈ acc.*1 ∨ c.1 ∈ fifo_selected h) then acc
                else (acc ++ [c])%list)
         (fifo_candidates h) cs)
      (fifo_selected h);
  pop_best h :=
    match fifo_candidates h with
    | [] => (None, h)
    | c :: cs => (Some c.1, FifoHelper cs (fifo_selected h ++ [c.1])%list)
    end;
  candidate_ids h := (fifo_candidates h).*1;
  selected_ids h := fifo_selected h
}.

(** Three objects: a node without an id, its metadata dict, which holds a
    set under ["links"], and its set of links. *)
Definition ex_heap : gmap nat Heap.obj :=
  list_to_map
    [(0%nat, Heap.ONode "alpha" None 1 2);
     (1%nat, Heap.ODict [("links", PSet [PStr "x"; PStr "y"]); ("page", PInt 3)]);
     (2%nat, Heap.OSet [ex_link_out; ex_link_in; ex_link_bidir])].

(** ** Further vocabulary *)

(** Truth value of [node.id]: [None] and the empty string are false. *)
Definition has_id (node : Node.t) : bool :=
  match Node.id node with
  | Some (String _ _) => true
  | _ => false
  end.

(** The statements the second loop of [add_nodes] enqueues for a tuple. *)
Definition tuple_statements {vector}
    (t : string * (string * (vector * (pyval * list Link.t))))
  : result (list (statement vector)) :=
  node_statements t.1 t.2.1 t.2.2.1 t.2.2.2.1 t.2.2.2.2.

(** *** What the traversal reaches *)

(** [key] is recorded in a depth map at [e] or less. *)
Definition visited_within {K} `{EqDecision K} (visited : list (K * Z))
    (key : K) (e : Z) : Prop :=
  ∃ v, dict_get key visited = Some v ∧ (v ≤ e)%Z.

(** Every row of the targets table refers to a row of the node table. *)
Definition targets_stored {vector} (store : Store.t vector) : Prop :=
  ∀ target, target ∈ Store.targets store →
    is_Some (Store.passages store !! Target.target_content_id target).

(** [node_id] is recorded at depth [e] or less, or a call is pending whose
    callback visits it at such a depth. *)
Definition ts_handled {vector} (st : scope ts_state (ts_call vector))
    (node_id : string) (e : Z) : Prop :=
  visited_within (visited_ids (shared st)) node_id e ∨
  ∃ d, QueryIdsAndLinkToTagsById node_id d ∈ pending st ∧ (d + 1 ≤ e)%Z.

(** The tags of a node recorded below the depth limit are recorded no
    deeper than the node. *)
Definition ts_tags_ok {vector} (store : Store.t vector) (depth : Z)
    (s : ts_state) : Prop :=
  ∀ node_id v, dict_get node_id (visited_ids s) = Some v → (v < depth)%Z →
    ∀ t, t ∈ link_to_tags_of store node_id →
      visited_within (visited_tags s) t v.

(** For a recorded tag, the query for its targets is pending at the depth
    recorded, or every target is handled one level below. *)
Definition ts_targets_ok {vector} (store : Store.t vector)
    (st : scope ts_state (ts_call vector)) : Prop :=
  ∀ t d, dict_get t (visited_tags (shared st)) = Some d →
    QueryTargetsByKindAndValue t.1 t.2 d ∈ pending st ∨
    ∀ target, target ∈ Store.targets store →
      (Target.kind target, Target.tag target) = t →
      ts_handled st (Target.target_content_id target) (d + 1).

(** The seeding query is pending, or every seed is recorded at depth 0. *)
Definition ts_seeds_ok {vector} (store : Store.t vector)
    (query_embedding : vector) (k : Z)
    (st : scope ts_state (ts_call vector)) : Prop :=
  QueryIdsAndLinkToTagsByEmbedding query_embedding k ∈ pending st ∨
  ∀ node_id, node_id ∈ ann_seeds store query_embedding k →
    visited_within (visited_ids (shared st)) node_id 0.

(** What the traversal maintains towards reaching every node within
    [depth] hops. *)
Definition ts_closed {vector} (store : Store.t vector) (depth : Z)
    (query_embedding : vector) (k : Z)
    (st : scope ts_state (ts_call vector)) : Prop :=
  ts_seeds_ok store query_embedding k st ∧
  ts_tags_ok store depth (shared st) ∧
  ts_targets_ok store st.

(** *** [_nodes_with_ids] under any schedule *)

(** The distinct elements of a list, in the order of their first
    occurrence. *)
Definition first_occurrences {A} `{EqDecision A} (l : list A) : list A :=
  foldl (λ acc x, set_add x acc) [] l.



(** ** [similarity_search] *)

Section SimilaritySearch.
Context {vector : Type}.
Variable store : Store.t vector.

(** [_query_by_embedding]: the rows [ORDER BY text_embedding ANN OF ?
    LIMIT ?] selects, in that order. *)
Definition query_by_embedding (q : vector) (limit : Z) : list Row.t :=
  mjoin (map (query_by_id store) (Store.ann_passages store q limit)).

(** The loop of the generator over the rows: the nodes it yields, and
    the exception that ends it when a row does not decode. *)
Fixpoint yield_nodes (rows : list Row.t) : list Node.t * option exn :=
  match rows with
  | [] => ([], None)
  | row :: rows' =>
      match _row_to_node row with
      | Ok node =>
          let '(nodes, e) := yield_nodes rows' in (node :: nodes, e)
      | Raise e => ([], Some e)
      end
  end.

(** [GraphStore.similarity_search], iterated to its end. *)
Definition similarity_search (embedding : vector) (k : Z)
  : list Node.t * option exn :=
  yield_nodes (query_by_embedding embedding k).
End SimilaritySearch.

(** ** What [_get_adjacent] queries *)

(** The tag for which a call queries the targets table. *)
Definition ga_query_tag {vector} (q : ga_call vector) : option (string * string) :=
  match q with
  | QuerySourceTagsById _ => None
  | QueryTargetsEmbeddingsByKindAndTagAndEmbedding kind tag _ _ => Some (kind, tag)
  end.

(** The source whose tags a call reads. *)
Definition ga_query_source {vector} (q : ga_call vector) : option string :=
  match q with
  | QuerySourceTagsById source_id => Some source_id
  | QueryTargetsEmbeddingsByKindAndTagAndEmbedding _ _ _ _ => None
  end.

(** The rows a call on the targets table returns. *)
Definition ga_rows {vector} (store : Store.t vector) (q : ga_call vector)
  : list (Target.t vector) :=
  match q with
  | QuerySourceTagsById _ => []
  | QueryTargetsEmbeddingsByKindAndTagAndEmbedding kind tag q limit =>
      query_targets_embeddings_by_kind_and_tag_and_embedding store kind tag q limit
  end.

(** What the scope of [_get_adjacent] maintains, for the sources
    [source_ids] and the set [visited_tags] the caller passed: the tags
    queried are pairwise distinct tags of the sources that were not in
    [visited_tags]; the set holds the caller's tags and the tags queried; a
    source is pending or its tags are in the set; [targets] has one entry
    for each target id, taken from a row of a query issued; and a query on
    the targets table is pending or its rows are in [targets]. *)
Definition ga_inv {vector} (store : Store.t vector) (source_ids : list string)
    (visited_tags : list (string * string))
    (st : scope (ga_state vector) (ga_call vector)) : Prop :=
  let queried := omap ga_query_tag (executed st) in
  NoDup queried ∧
  (∀ t, t ∈ ga_visited_tags (shared st) ↔ t ∈ visited_tags ∨ t ∈ queried) ∧
  (∀ t, t ∈ queried →
     (t ∉ visited_tags) ∧ ∃ s, s ∈ source_ids ∧ t ∈ link_to_tags_of store s) ∧
  (∀ s, s ∈ source_ids →
     QuerySourceTagsById s ∈ pending st ∨
     ∀ t, t ∈ link_to_tags_of store s → t ∈ ga_visited_tags (shared st)) ∧
  omap ga_query_source (executed st) = source_ids ∧
  (∀ q, q ∈ pending st → q ∈ executed st) ∧
  NoDup (dict_keys (ga_targets (shared st))) ∧
  (∀ id emb, (id, emb) ∈ ga_targets (shared st) →
     ∃ q row, q ∈ executed st ∧ row ∈ ga_rows store q ∧
       Target.target_content_id row = id ∧ Target.target_text_embedding row = emb) ∧
  (∀ q, q ∈ executed st →
     q ∈ pending st ∨
     ∀ row, row ∈ ga_rows store q →
       Target.target_content_id row ∈ dict_keys (ga_targets (shared st))).

(** ** What [mmr_traversal_search] queries *)

(** What the selection loop maintains about its adjacency queries: no tag
    is queried twice, a tag queried is in [visited_tags], and the tags of
    a source are read once for each expansion. *)
Definition mmr_queries_inv {vector helper} (s : mmr_state vector helper) : Prop :=
  NoDup (omap ga_query_tag (adjacent_calls s)) ∧
  (∀ t, t ∈ omap ga_query_tag (adjacent_calls s) → t ∈ mmr_visited_tags s) ∧
  omap ga_query_source (adjacent_calls s) = (expanded s).*1.

(** Modelled from the spec: what section 4.2 says of the candidates of the
    helper.  [pop_best] returns the id of a candidate; it adds none;
    [add_candidates] adds the ids of the map it is given and no other. *)
Definition mmr_helper_laws (vector float helper : Type)
    `{!MmrHelper vector float helper} : Prop :=
  (∀ (h h' : helper) x, pop_best h = (Some x, h') → x ∈ candidate_ids h) ∧
  (∀ (h h' : helper) o y,
     pop_best h = (o, h') → y ∈ candidate_ids h' → y ∈ candidate_ids h) ∧
  (∀ (cs : list (string * vector)) (h : helper) y,
     y ∈ candidate_ids (add_candidates cs h) →
     y ∈ candidate_ids h ∨ y ∈ dict_keys cs).

(** Every candidate of the helper has a depth. *)
Definition mmr_depths_cover {vector float helper : Type}
    `{!MmrHelper vector float helper} (s : mmr_state vector helper) : Prop :=
  ∀ x, x ∈ candidate_ids (mmr_helper s) → is_Some (dict_get x (mmr_depths s)).

(** ** Further example data *)

(** An embedding model that returns one vector, whatever the number of
    texts. *)
Definition ex_embed_one (texts : list string) : list nat :=
  take 1 (ex_embed_texts texts).



(** ** The effect of the inserts on the tables

    [add_nodes] hands its statements to the scope, and the backend applies
    them.  Section 3 of the specification gives the keys of the two tables
    and says that a write under a key that is present replaces the row
    (an upsert). *)
Section Writes.
Context {vector : Type}.







End Writes.





(** ** [LinkExtractorTransformer]

    [libs/langchain/ragstack_langchain/graph_store/extractors/link_extractor_transformer.py].
    [Document], the extractors and [add_links] belong to other packages:
    a document is a value of a type [Document], the [extract_many] of an
    extractor is a function from the documents to the sets of links it
    yields, taken to depend on the documents as they are when
    [transform_documents] is called, and a call of [add_links] is
    recorded with its arguments. *)
Section LinkExtractorTransformer.
Context {Document : Type}.

(** [zip] applied to the starred list of iterables: the tuples of the
    i-th elements, up to the shortest iterable; applied to nothing it
    yields nothing. *)
Fixpoint zip_star {A} (iterables : list (list A)) : list (list A) :=
  match iterables with
  | [] => []
  | xs :: iterables' =>
      match iterables' with
      | [] => map (λ x, [x]) xs
      | _ :: _ => zip_with cons xs (zip_star iterables')
      end
  end.

(** [LinkExtractorTransformer.transform_documents]: the calls
    [add_links(document, *links)] it makes, in order, and the value it
    returns. *)
Definition transform_documents
    (link_extractors : list (list Document → list (list Link.t)))
    (documents : list Document)
  : list (Document * list (list Link.t)) * list Document :=
  let document_links :=
    zip documents
      (zip_star (map (λ extractor, extractor documents) link_extractors)) in
  (document_links, documents).
End LinkExtractorTransformer.

(** * Properties *)

(** ** Sets and dicts *)

Section ContainerFacts.
Context {A : Type} `{EqDecision A}.

Lemma elem_of_set_add (x y : A) (s : list A) :
  y ∈ set_add x s ↔ y = x ∨ y ∈ s.
Proof.
  unfold set_add. case_decide as Hx.
  - split; [by right | intros [-> | ?]; done].
  - rewrite elem_of_app, list_elem_of_singleton. tauto.
Qed.

Lemma NoDup_set_add (x : A) (s : list A) : NoDup s → NoDup (set_add x s).
Proof.
  intros Hs. unfold set_add. case_decide as Hx; [done |].
  apply NoDup_app. split_and!; [done | | apply NoDup_singleton].
  intros y Hy ->%list_elem_of_singleton. done.
Qed.

Context {V : Type}.

Lemma dict_get_set_eq (k : A) (v : V) d : dict_get k (dict_set k v d) = Some v.
Proof.
  induction d as [| [k' v'] d IH]; simpl.
  - by rewrite decide_True.
  - case_decide; simpl; [by rewrite decide_True |].
    by rewrite decide_False.
Qed.

Lemma dict_get_set_ne (k k' : A) (v : V) d :
  k ≠ k' → dict_get k' (dict_set k v d) = dict_get k' d.
Proof.
  intros Hne. induction d as [| [k0 v0] d IH]; simpl.
  - by rewrite decide_False.
  - destruct (decide (k = k0)) as [-> | Hk]; simpl.
    + by rewrite !decide_False.
    + by rewrite IH.
Qed.

Lemma dict_get_Some_elem (k : A) (v : V) d :
  dict_get k d = Some v → (k, v) ∈ d.
Proof.
  induction d as [| [k0 v0] d IH]; simpl; [done |].
  case_decide as Hk.
  - intros [= ->]. subst. apply list_elem_of_here.
  - intros ?. apply list_elem_of_further. auto.
Qed.

Lemma dict_get_None_keys (k : A) (d : list (A * V)) :
  dict_get k d = None ↔ k ∉ dict_keys d.
Proof.
  unfold dict_keys. induction d as [| [k0 v0] d IH]; simpl.
  - split; [intros _; apply not_elem_of_nil | done].
  - rewrite not_elem_of_cons. case_decide as Hk; [| rewrite IH]; naive_solver.
Qed.

Lemma dict_keys_set (k : A) (v : V) d x :
  x ∈ dict_keys (dict_set k v d) ↔ x = k ∨ x ∈ dict_keys d.
Proof.
  unfold dict_keys. induction d as [| [k0 v0] d IH]; simpl.
  - rewrite list_elem_of_singleton. set_solver.
  - case_decide as Hk; simpl; rewrite !elem_of_cons.
    + subst. tauto.
    + rewrite IH. tauto.
Qed.
End ContainerFacts.

Lemma filter_none {A} (P : A → Prop) `{∀ x, Decision (P x)} (l : list A) :
  Forall (λ x, ¬ P x) l → filter P l = [].
Proof.
  induction 1 as [| x l Hx _ IH]; [done |].
  by rewrite filter_cons_False.
Qed.

Lemma sum_list_with_const {A} (w : A → nat) (c : nat) (l : list A) :
  Forall (λ x, w x = c) l → sum_list_with w l = (length l * c)%nat.
Proof. induction 1 as [| x l Hx _ IH]; simpl; [done | lia]. Qed.

Lemma length_set_add {A} `{EqDecision A} (x : A) (s : list A) :
  (length (set_add x s) ≤ S (length s))%nat.
Proof. unfold set_add. case_decide; [lia |]. rewrite length_app. simpl. lia. Qed.

(** ** Serialization *)







(** [_serialize_links] never raises: every link becomes the object of
    its three fields. *)
Lemma _serialize_links_eq links :
  _serialize_links links = Ok (JArr (map (λ l, JObj (link_asdict l)) links)).
Proof.
  unfold _serialize_links. simpl.
  assert ((fix items (l : list pyval) : result (list json) :=
             match l with
             | [] => Ok []
             | x :: l' =>
                 let* j := json_dumps SetAndLinkEncoder x in
                 let* js := items l' in Ok (j :: js)
             end) (map PLink links)
          = Ok (map (λ l, JObj (link_asdict l)) links)) as ->; [| done].
  induction links as [| l links IH]; [done |].
  simpl. rewrite IH. done.
Qed.

Lemma decode_link_asdict l :
  decode_link (json_value (JObj (link_asdict l))) = Ok l.
Proof. destruct l as [k d t]. reflexivity. Qed.

Lemma decode_links_asdict links : ∀ acc,
  decode_links (map json_value (map (λ l, JObj (link_asdict l)) links)) acc
  = Ok (foldl (λ acc l, set_add l acc) acc links).
Proof.
  induction links as [| l links IH]; intros acc; [done |].
  cbn [map decode_links]. rewrite decode_link_asdict. simpl. apply IH.
Qed.

Lemma foldl_set_add_spec {A} `{EqDecision A} (xs : list A) : ∀ acc,
  NoDup acc →
  NoDup (foldl (λ acc x, set_add x acc) acc xs) ∧
  ∀ x, x ∈ foldl (λ acc x, set_add x acc) acc xs ↔ x ∈ acc ∨ x ∈ xs.
Proof.
  induction xs as [| y xs IH]; intros acc Hacc; simpl.
  - split; [done |]. intros x. rewrite elem_of_nil. tauto.
  - destruct (IH (set_add y acc) (NoDup_set_add y acc Hacc)) as [Hnd Hin].
    split; [done |]. intros x.
    rewrite Hin, elem_of_set_add, elem_of_cons. tauto.
Qed.

Lemma _deserialize_serialize_links links lb :
  _serialize_links links = Ok lb →
  ∃ links', _deserialize_links (Some lb) = Ok links' ∧
    NoDup links' ∧ same_set links' links.
Proof.
  rewrite _serialize_links_eq. intros [= <-].
  exists (foldl (λ acc l, set_add l acc) [] links).
  destruct (foldl_set_add_spec links [] (NoDup_nil_2 (A:=_))) as [Hnd Hin].
  split; [| split; [done |]].
  - unfold _deserialize_links. simpl. apply decode_links_asdict.
  - intros l. rewrite Hin, elem_of_nil. tauto.
Qed.



(** ** The write path *)

Lemma eqb_or_spec (d a b : string) :
  (d =? a)%string || (d =? b)%string = true ↔ d = a ∨ d = b.
Proof. rewrite orb_true_iff, !String.eqb_eq. done. Qed.

Lemma eqb_or_false (d a b : string) :
  (d =? a)%string || (d =? b)%string = false ↔ ¬ (d = a ∨ d = b).
Proof. rewrite <- eqb_or_spec. destruct (_ || _); naive_solver. Qed.

(** What one link adds to the two sets. *)
Lemma tag_sets_step_spec to from l :
  let '(to', from') := tag_sets_step (to, from) l in
  (NoDup to → NoDup to') ∧ (NoDup from → NoDup from') ∧
  (∀ p, p ∈ to' ↔ p ∈ to ∨ (emits l ∧ p = (Link.kind l, Link.tag l))) ∧
  (∀ p, p ∈ from' ↔ p ∈ from ∨ (receives l ∧ p = (Link.kind l, Link.tag l))).
Proof.
  unfold tag_sets_step, emits, receives.
  destruct ((Link.direction l =? "in") || _) eqn:Hin;
    destruct ((Link.direction l =? "out") || _) eqn:Hout;
    first [apply eqb_or_spec in Hin | apply eqb_or_false in Hin];
    first [apply eqb_or_spec in Hout | apply eqb_or_false in Hout]; cbn;
    repeat apply conj; auto using NoDup_set_add;
    intros p; rewrite ?elem_of_set_add; tauto.
Qed.

Lemma foldl_tag_sets_spec links : ∀ to from,
  NoDup to → NoDup from →
  let '(to', from') := foldl tag_sets_step (to, from) links in
  NoDup to' ∧ NoDup from' ∧
  (∀ p, p ∈ to' ↔ p ∈ to ∨
     ∃ l, l ∈ links ∧ emits l ∧ p = (Link.kind l, Link.tag l)) ∧
  (∀ p, p ∈ from' ↔ p ∈ from ∨
     ∃ l, l ∈ links ∧ receives l ∧ p = (Link.kind l, Link.tag l)).
Proof.
  induction links as [| l links IH]; intros to from Hto Hfrom; cbn [foldl].
  - split; [done | split; [done | split]]; intros p; split; auto;
      intros [? | (l & []%elem_of_nil & _)]; done.
  - pose proof (tag_sets_step_spec to from l) as Hstep.
    destruct (tag_sets_step (to, from) l) as [to1 from1].
    destruct Hstep as (Hto1 & Hfrom1 & Hin_to & Hin_from).
    specialize (IH to1 from1 (Hto1 Hto) (Hfrom1 Hfrom)).
    destruct (foldl tag_sets_step (to1, from1) links) as [to' from'].
    destruct IH as (? & ? & IHto & IHfrom).
    split; [done | split; [done | split]]; intros p.
    + rewrite IHto, Hin_to. setoid_rewrite elem_of_cons. naive_solver.
    + rewrite IHfrom, Hin_from. setoid_rewrite elem_of_cons. naive_solver.
Qed.

Lemma tag_sets_spec links :
  let '(link_to_tags, link_from_tags) := tag_sets links in
  NoDup link_to_tags ∧ NoDup link_from_tags ∧
  (∀ p, p ∈ link_to_tags ↔
     ∃ l, l ∈ links ∧ emits l ∧ p = (Link.kind l, Link.tag l)) ∧
  (∀ p, p ∈ link_from_tags ↔
     ∃ l, l ∈ links ∧ receives l ∧ p = (Link.kind l, Link.tag l)).
Proof.
  unfold tag_sets.
  pose proof (foldl_tag_sets_spec links [] [] (NoDup_nil_2 (A:=_)) (NoDup_nil_2 (A:=_))) as H.
  destruct (foldl tag_sets_step ([], []) links) as [to from].
  destruct H as (? & ? & Hto & Hfrom).
  split; [done | split; [done | split]]; intros p; [rewrite Hto | rewrite Hfrom];
    rewrite elem_of_nil; tauto.
Qed.

Section WritePathFacts.
Context {vector : Type}.
Variable token_hex : nat → string.
Variable embed_texts : list string → list vector.

Lemma length_assign_ids nodes : ∀ draws,
  length (assign_ids token_hex nodes draws) = length nodes.
Proof.
  induction nodes as [| n nodes IH]; intros draws; simpl; [done |].
  destruct (Node.id n) as [[| c s] |]; simpl; by rewrite IH.
Qed.

(** A caller-provided id that is not empty is the id assigned. *)
Lemma assign_ids_given nodes : ∀ draws i node x,
  nodes !! i = Some node → Node.id node = Some x → x ≠ "" →
  assign_ids token_hex nodes draws !! i = Some x.
Proof.
  induction nodes as [| n nodes IH]; intros draws i node x Hi Hid Hx; [done |].
  destruct i as [| i]; simpl in *.
  - injection Hi as ->. rewrite Hid. by destruct x.
  - destruct (Node.id n) as [[| c s] |]; simpl; eauto.
Qed.

(** The queue after the second loop, when no serialization raises: the
    statements of each tuple, in order. *)
Lemma add_nodes_loop_Ok
    (tuples : list (string * (string * (vector * (pyval * list Link.t))))) :
  ∀ cq cq',
  add_nodes_loop tuples cq = (cq', Ok ()) →
  ∃ segs, cq' = (cq ++ concat segs)%list ∧
    Forall2 (λ '(node_id, (text, (emb, (metadata, links)))) seg,
               node_statements node_id text emb metadata links = Ok seg)
      tuples segs.
Proof.
  induction tuples as [| [node_id [text [emb [metadata links]]]] tuples IH];
    intros cq cq'; simpl.
  - intros [= <-]. exists []. simpl. by rewrite app_nil_r.
  - destruct (node_statements _ _ _ _ _) as [stmts |] eqn:Hst; [| done].
    intros (segs & -> & Hall)%IH.
    exists (stmts :: segs). simpl. rewrite <- app_assoc. split; [done |].
    by constructor.
Qed.

Lemma add_nodes_Ok nodes cq ids :
  length (embed_texts (map Node.text nodes)) = length nodes →
  add_nodes token_hex embed_texts nodes = (cq, Ok ids) →
  ids = assign_ids token_hex nodes 0 ∧
  ∃ segs, cq = concat segs ∧ length segs = length nodes ∧
    ∀ i node, nodes !! i = Some node →
      ∃ node_id emb seg,
        ids !! i = Some node_id ∧
        embed_texts (map Node.text nodes) !! i = Some emb ∧
        segs !! i = Some seg ∧
        node_statements node_id (Node.text node) emb
          (Node.metadata node) (Node.links node) = Ok seg.
Proof.
  intros Hlen. unfold add_nodes.
  destruct (add_nodes_loop _ _) as [cq0 [[] | e]] eqn:Hloop; [| done].
  intros [= <- <-]. split; [done |].
  apply add_nodes_loop_Ok in Hloop as (segs & -> & Hall).
  exists segs. split; [done |].
  assert (Hlt : length (zip5 (assign_ids token_hex nodes 0) (map Node.text nodes)
                   (embed_texts (map Node.text nodes)) (map Node.metadata nodes)
                   (map Node.links nodes)) = length nodes).
  { unfold zip5. rewrite !length_zip_with, length_assign_ids, !length_map, Hlen.
    lia. }
  split; [by rewrite <- (Forall2_length _ _ _ Hall) |].
  intros i node Hi.
  assert (is_Some (embed_texts (map Node.text nodes) !! i)) as [emb Hemb].
  { apply lookup_lt_is_Some. rewrite Hlen. by eapply lookup_lt_Some. }
  assert (is_Some (assign_ids token_hex nodes 0 !! i)) as [node_id Hid].
  { apply lookup_lt_is_Some. rewrite length_assign_ids. by eapply lookup_lt_Some. }
  assert (Htup : zip5 (assign_ids token_hex nodes 0) (map Node.text nodes)
            (embed_texts (map Node.text nodes)) (map Node.metadata nodes)
            (map Node.links nodes) !! i
          = Some (node_id, (Node.text node, (emb, (Node.metadata node, Node.links node))))).
  { unfold zip5. rewrite !lookup_zip_with, !list_lookup_fmap, Hid, Hemb, Hi. done. }
  destruct (Forall2_lookup_l _ _ _ _ _ Hall Htup) as (seg & Hseg & Hst).
  exists node_id, emb, seg. done.
Qed.
End WritePathFacts.

Section WritePathClaims.
Context {vector : Type}.
Variable token_hex : nat → string.
Variable embed_texts : list string → list vector.

Lemma node_statements_Ok node_id text (emb : vector) metadata links seg :
  node_statements node_id text emb metadata links = Ok seg →
  ∃ mb lb,
    _serialize_metadata metadata = Ok mb ∧
    _serialize_links links = Ok lb ∧
    seg = InsertPassage node_id text emb (tag_sets links).1 mb lb
          :: map (λ '(kind, value), InsertTag node_id kind value emb)
               (tag_sets links).2.
Proof.
  unfold node_statements. destruct (tag_sets links) as [to from].
  destruct (_serialize_metadata metadata) as [mb |]; [| done].
  destruct (_serialize_links links) as [lb |]; [| done].
  simpl. intros [= <-]. eauto.
Qed.

Lemma filter_insert_passage_tags node_id (emb : vector) tags :
  filter (λ s, is_insert_passage s)
    (map (λ '(kind, value), InsertTag node_id kind value emb) tags) = [].
Proof.
  induction tags as [| [k v] tags IH]; [done |].
  simpl. rewrite filter_cons_False; [done |]. simpl. auto.
Qed.

(** The passage inserts of the queue are the heads of its segments. *)
Lemma filter_insert_passage_concat (segs : list (list (statement vector))) :
  Forall (λ seg, ∃ p node_id emb tags,
            is_insert_passage p = true ∧
            seg = p :: map (λ '(kind, value), InsertTag node_id kind value emb) tags)
    segs →
  ∀ i seg, segs !! i = Some seg →
    filter (λ s, is_insert_passage s) (concat segs) !! i = head seg.
Proof.
  induction 1 as [| seg0 segs (p & node_id & emb & tags & Hp & ->) _ IH];
    intros i seg; [done |].
  simpl. rewrite filter_cons_True by (by rewrite Hp).
  rewrite filter_app, filter_insert_passage_tags. simpl.
  destruct i as [| i]; simpl.
  - intros [= <-]. done.
  - apply IH.
Qed.

(** The passage insert of the i-th node. *)
Lemma add_nodes_passage (nodes : list Node.t) cq ids i node :
  length (embed_texts (map Node.text nodes)) = length nodes →
  add_nodes token_hex embed_texts nodes = (cq, Ok ids) →
  nodes !! i = Some node →
  ∃ node_id emb mb lb,
    ids !! i = Some node_id ∧
    embed_texts (map Node.text nodes) !! i = Some emb ∧
    _serialize_metadata (Node.metadata node) = Ok mb ∧
    _serialize_links (Node.links node) = Ok lb ∧
    filter (λ s, is_insert_passage s) cq !! i
    = Some (InsertPassage node_id (Node.text node) emb
              (tag_sets (Node.links node)).1 mb lb).
Proof.
  intros Hlen Hadd Hi.
  destruct (add_nodes_Ok _ _ _ _ _ Hlen Hadd) as (_ & segs & -> & Hl & Hsegs).
  assert (Hheads : Forall (λ seg, ∃ p node_id emb tags,
            is_insert_passage p = true ∧
            seg = p :: map (λ '(kind, value),
                              InsertTag (vector:=vector) node_id kind value emb) tags)
            segs).
  { apply Forall_lookup_2. intros j seg Hj.
    assert (is_Some (nodes !! j)) as [nj Hnj].
    { apply lookup_lt_is_Some. rewrite <- Hl. by eapply lookup_lt_Some. }
    destruct (Hsegs j nj Hnj) as (x & e & seg' & _ & _ & Hj' & Hst).
    rewrite Hj in Hj'. injection Hj' as <-.
    apply node_statements_Ok in Hst as (mb & lb & _ & _ & ->).
    eexists _, x, e, _. split; [| done]. done. }
  destruct (Hsegs i node Hi) as (node_id & emb & seg & Hid & Hemb & Hseg & Hst).
  apply node_statements_Ok in Hst as (mb & lb & Hmb & Hlb & ->).
  exists node_id, emb, mb, lb. do 4 (split; [done |]).
  rewrite (filter_insert_passage_concat segs Hheads i _ Hseg). done.
Qed.

(** C1.  The [link_to_tags] parameter of the passage insert of each node
    is the set of the [(kind, tag)] pairs of the node's links of
    direction [out] or [bidir]: each of these links contributes its pair,
    and no other link contributes. *)
Theorem add_nodes_link_to_tags (nodes : list Node.t) cq ids i node :
  length (embed_texts (map Node.text nodes)) = length nodes →
  add_nodes token_hex embed_texts nodes = (cq, Ok ids) →
  nodes !! i = Some node →
  ∃ node_id emb link_to_tags mb lb,
    ids !! i = Some node_id ∧
    filter (λ s, is_insert_passage s) cq !! i
    = Some (InsertPassage node_id (Node.text node) emb link_to_tags mb lb) ∧
    NoDup link_to_tags ∧
    ∀ kind tag,
      (kind, tag) ∈ link_to_tags ↔
      ∃ l, l ∈ Node.links node ∧
           (Link.direction l = "out" ∨ Link.direction l = "bidir") ∧
           Link.kind l = kind ∧ Link.tag l = tag.
Proof.
  intros Hlen Hadd Hi.
  destruct (add_nodes_passage nodes cq ids i node Hlen Hadd Hi)
    as (node_id & emb & mb & lb & Hid & _ & _ & _ & Hp).
  exists node_id, emb, (tag_sets (Node.links node)).1, mb, lb.
  do 2 (split; [done |]).
  pose proof (tag_sets_spec (Node.links node)) as Hspec.
  destruct (tag_sets (Node.links node)) as [to from].
  destruct Hspec as (Hnd & _ & Hto & _). split; [done |].
  intros kind tag. rewrite Hto. unfold emits. naive_solver.
Qed.

Lemma filter_target_key_tags node_id (emb : vector) tags kind tag :
  NoDup tags → (kind, tag) ∈ tags →
  filter (λ s, target_key s = Some (kind, tag, node_id))
    (map (λ '(kind, value), InsertTag node_id kind value emb) tags)
  = [InsertTag node_id kind tag emb].
Proof.
  induction tags as [| [k v] tags IH]; intros Hnd Hin.
  - by apply elem_of_nil in Hin.
  - apply NoDup_cons in Hnd as [Hnotin Hnd]. simpl.
    destruct (decide ((k, v) = (kind, tag))) as [[= -> ->] | Hne].
    + rewrite filter_cons_True by done. f_equal.
      apply filter_none, Forall_forall.
      intros s ([k' v'] & -> & Hin')%list_elem_of_fmap. simpl.
      intros [= -> ->]. done.
    + rewrite filter_cons_False by (simpl; congruence).
      apply IH; [done |]. apply elem_of_cons in Hin as [Heq | ?]; [| done].
      by destruct Hne.
Qed.

(** C2.  The statements enqueued for a node with assigned id [x] hold,
    for each of its links of direction [in] or [bidir], exactly one
    insert into the targets table with the key [(kind, tag, x)] of that
    link, and the embedding it binds is the embedding computed for the
    node; every insert into the targets table enqueued for the node comes
    from such a link. *)
Theorem add_nodes_target_inserts (nodes : list Node.t) cq ids :
  length (embed_texts (map Node.text nodes)) = length nodes →
  add_nodes token_hex embed_texts nodes = (cq, Ok ids) →
  ∃ segs, cq = concat segs ∧ length segs = length nodes ∧
    ∀ i node, nodes !! i = Some node →
      ∃ x emb seg,
        ids !! i = Some x ∧
        embed_texts (map Node.text nodes) !! i = Some emb ∧
        segs !! i = Some seg ∧
        (∀ l, l ∈ Node.links node →
           Link.direction l = "in" ∨ Link.direction l = "bidir" →
           filter (λ s, target_key s = Some (Link.kind l, Link.tag l, x)) seg
           = [InsertTag x (Link.kind l) (Link.tag l) emb]) ∧
        (∀ s, s ∈ seg → is_insert_passage s = false →
           ∃ l, l ∈ Node.links node ∧
                (Link.direction l = "in" ∨ Link.direction l = "bidir") ∧
                s = InsertTag x (Link.kind l) (Link.tag l) emb).
Proof.
  intros Hlen Hadd.
  destruct (add_nodes_Ok _ _ _ _ _ Hlen Hadd) as (_ & segs & -> & Hl & Hsegs).
  exists segs. split; [done |]. split; [done |].
  intros i node Hi.
  destruct (Hsegs i node Hi) as (x & emb & seg & Hid & Hemb & Hseg & Hst).
  exists x, emb, seg. do 3 (split; [done |]).
  apply node_statements_Ok in Hst as (mb & lb & _ & _ & ->).
  pose proof (tag_sets_spec (Node.links node)) as Hspec.
  destruct (tag_sets (Node.links node)) as [to from]. simpl.
  destruct Hspec as (_ & Hnd & _ & Hfrom). split.
  - intros l Hl' Hdir. rewrite filter_cons_False by done.
    apply filter_target_key_tags; [done |].
    apply Hfrom. exists l. done.
  - intros s [-> | Hs]%elem_of_cons; [done |]. intros _.
    apply list_elem_of_fmap in Hs as ([k v] & -> & Hkv).
    apply Hfrom in Hkv as (l & Hl' & Hdir & [= -> ->]). eauto.
Qed.

(** A link of a direction the writer does not recognize leaves both tag
    sets as they are. *)
Lemma tag_sets_step_unrecognized sets l :
  ¬ recognized (Link.direction l) → tag_sets_step sets l = sets.
Proof.
  intros Hl. destruct sets as [to from]. unfold tag_sets_step.
  assert ((Link.direction l =? "in") || (Link.direction l =? "bidir") = false)
    as ->.
  { apply eqb_or_false. unfold recognized in Hl. tauto. }
  assert ((Link.direction l =? "out") || (Link.direction l =? "bidir") = false)
    as ->.
  { apply eqb_or_false. unfold recognized in Hl. tauto. }
  done.
Qed.

Lemma tag_sets_without l links :
  ¬ recognized (Link.direction l) →
  tag_sets (filter (λ l', l' ≠ l) links) = tag_sets links.
Proof.
  intros Hl. unfold tag_sets. generalize (@nil (string * string), @nil (string * string)).
  induction links as [| l' links IH]; intros sets; [done |].
  destruct (decide (l' = l)) as [-> | Hne].
  - rewrite filter_cons_False by (intros ?; done). simpl.
    rewrite tag_sets_step_unrecognized by done. apply IH.
  - rewrite filter_cons_True by done. simpl. apply IH.
Qed.

Lemma node_statements_without l node_id text (emb : vector) metadata links :
  ¬ recognized (Link.direction l) →
  match node_statements node_id text emb metadata links,
        node_statements node_id text emb metadata (filter (λ l', l' ≠ l) links)
  with
  | Ok seg, Ok seg' => map erase_links_blob seg = map erase_links_blob seg'
  | Raise e, Raise e' => e = e'
  | _, _ => False
  end.
Proof.
  intros Hl. unfold node_statements. rewrite (tag_sets_without l links Hl).
  destruct (tag_sets links) as [to from].
  rewrite !_serialize_links_eq.
  destruct (_serialize_metadata metadata) as [mb |]; simpl; done.
Qed.

Lemma zip5_without l : ∀ (ids texts : list string) (embs : list vector)
    (mds : list pyval) (lks : list (list Link.t)),
  zip5 ids texts embs mds (map (filter (λ l', l' ≠ l)) lks)
  = map (λ '(node_id, (text, (emb, (md, links)))),
           (node_id, (text, (emb, (md, filter (λ l', l' ≠ l) links)))))
      (zip5 ids texts embs mds lks).
Proof.
  unfold zip5. induction ids as [| node_id ids IH];
    intros [| text texts] [| emb embs] [| md mds] [| links lks]; try done.
  simpl. f_equal. apply IH.
Qed.

Lemma add_nodes_loop_without l
    (tuples : list (string * (string * (vector * (pyval * list Link.t))))) :
  ¬ recognized (Link.direction l) →
  ∀ cq cq', map erase_links_blob cq = map erase_links_blob cq' →
    let r := add_nodes_loop tuples cq in
    let r' := add_nodes_loop
                (map (λ '(node_id, (text, (emb, (md, links)))),
                        (node_id, (text, (emb, (md, filter (λ l', l' ≠ l) links)))))
                   tuples) cq' in
    map erase_links_blob r.1 = map erase_links_blob r'.1 ∧ r.2 = r'.2.
Proof.
  intros Hl.
  induction tuples as [| [node_id [text [emb [md links]]]] tuples IH];
    intros cq cq' Hcq; simpl; [done |].
  pose proof (node_statements_without l node_id text emb md links Hl) as Hst.
  destruct (node_statements node_id text emb md links) as [seg | e];
    destruct (node_statements node_id text emb md _) as [seg' | e'];
    try done.
  - apply IH. rewrite !map_app. by f_equal.
  - simpl. by subst.
Qed.

Lemma assign_ids_without l nodes : ∀ draws,
  assign_ids token_hex (map (without_link l) nodes) draws
  = assign_ids token_hex nodes draws.
Proof.
  induction nodes as [| n nodes IH]; intros draws; simpl; [done |].
  destruct (Node.id n) as [[| c s] |]; by rewrite IH.
Qed.

(** C8, as amended.  A link of a direction other than [out], [in] and
    [bidir] adds nothing to [link_to_tags] and causes no insert into the
    targets table, and it changes neither whether [add_nodes] raises nor
    what it returns: with the link removed from every node the same
    statements are enqueued, up to their [links_blob].  The link is not
    dropped from [links_blob]: the blob written for a node that holds the
    link decodes to a set that holds it. *)
Theorem add_nodes_unrecognized_direction (nodes : list Node.t) (l : Link.t) :
  ¬ recognized (Link.direction l) →
  (map erase_links_blob (add_nodes token_hex embed_texts nodes).1
   = map erase_links_blob
       (add_nodes token_hex embed_texts (map (without_link l) nodes)).1 ∧
   (add_nodes token_hex embed_texts nodes).2
   = (add_nodes token_hex embed_texts (map (without_link l) nodes)).2) ∧
  ∀ cq ids i node,
    length (embed_texts (map Node.text nodes)) = length nodes →
    add_nodes token_hex embed_texts nodes = (cq, Ok ids) →
    nodes !! i = Some node → l ∈ Node.links node →
    ∃ node_id emb link_to_tags mb lb links',
      filter (λ s, is_insert_passage s) cq !! i
      = Some (InsertPassage node_id (Node.text node) emb link_to_tags mb lb) ∧
      _deserialize_links (Some lb) = Ok links' ∧ l ∈ links'.
Proof.
  intros Hl. split.
  - unfold add_nodes.
    rewrite !map_map, assign_ids_without. simpl.
    rewrite <- (map_map Node.links (filter (λ l', l' ≠ l))), zip5_without.
    pose proof (add_nodes_loop_without l
      (zip5 (assign_ids token_hex nodes 0) (map Node.text nodes)
         (embed_texts (map Node.text nodes)) (map Node.metadata nodes)
         (map Node.links nodes)) Hl [] [] eq_refl) as [Hcq Hres].
    destruct (add_nodes_loop _ _) as [cq [[] | e]];
      destruct (add_nodes_loop _ _) as [cq' [[] | e']]; simpl in *;
      try done.
    split; [done |]. by injection Hres as ->.
  - intros cq ids i node Hlen Hadd Hi Hin.
    destruct (add_nodes_passage nodes cq ids i node Hlen Hadd Hi)
      as (node_id & emb & mb & lb & _ & _ & _ & Hlb & Hp).
    apply _deserialize_serialize_links in Hlb as (links' & Hdec & _ & Hsame).
    exists node_id, emb, (tag_sets (Node.links node)).1, mb, lb, links'.
    do 2 (split; [done |]). by apply Hsame.
Qed.
End WritePathClaims.

(** C8, as stated, fails: a link of direction ["sideways"] is written into
    [links_blob], so what is persisted for the node differs from what is
    persisted without the link. *)
Lemma add_nodes_persists_unrecognized_link :
  ex_link_odd ∈ Node.links ex_node_odd ∧
  ¬ recognized (Link.direction ex_link_odd) ∧
  add_nodes ex_token_hex ex_embed_texts [ex_node_odd]
  ≠ add_nodes ex_token_hex ex_embed_texts [without_link ex_link_odd ex_node_odd].
Proof.
  split; [apply list_elem_of_here |]. split.
  - unfold recognized. simpl. intros [? | [? | ?]]; discriminate.
  - vm_compute. discriminate.
Qed.

(** [add_nodes] returns when every metadata dict can be encoded. *)
Lemma add_nodes_returns {vector} (token_hex : nat → string)
    (embed_texts : list string → list vector) (nodes : list Node.t) :
  Forall (λ node, is_ok (_serialize_metadata (Node.metadata node)) = true) nodes →
  ∃ cq, add_nodes token_hex embed_texts nodes
        = (cq, Ok (assign_ids token_hex nodes 0)).
Proof.
  intros Hall. unfold add_nodes.
  assert (Htup : Forall (λ tup : string * (string * (vector * (pyval * list Link.t))),
                    is_ok (_serialize_metadata tup.2.2.2.1) = true)
            (zip5 (assign_ids token_hex nodes 0) (map Node.text nodes)
               (embed_texts (map Node.text nodes)) (map Node.metadata nodes)
               (map Node.links nodes))).
  { apply Forall_forall. intros [x [t [e [md lk]]]] Hin. simpl.
    unfold zip5 in Hin.
    apply elem_of_zip_r, elem_of_zip_r, elem_of_zip_r, elem_of_zip_l in Hin.
    apply list_elem_of_fmap in Hin as (node & -> & Hnode).
    rewrite Forall_forall in Hall. by apply Hall. }
  generalize (@nil (statement vector)).
  induction Htup as [| [x [t [e [md lk]]]] tuples Hmd _ IH]; intros cq; simpl.
  - eauto.
  - unfold node_statements. destruct (tag_sets lk) as [to from].
    simpl in Hmd. destruct (_serialize_metadata md) as [mb |]; [| done].
    rewrite _serialize_links_eq. simpl. apply IH.
Qed.

Lemma add_nodes_link_to_tags_witness :
  length (ex_embed_texts (map Node.text [ex_node; ex_node_odd])) = 2 ∧
  ∃ node_id emb link_to_tags mb lb,
    ["a"; "9f86d081884c7d65"] !! 0 = Some node_id ∧
    filter (λ s, is_insert_passage s)
      (add_nodes ex_token_hex ex_embed_texts [ex_node; ex_node_odd]).1 !! 0
    = Some (InsertPassage node_id "alpha" emb link_to_tags mb lb) ∧
    NoDup link_to_tags ∧
    ∀ kind tag,
      (kind, tag) ∈ link_to_tags ↔
      ∃ l, l ∈ Node.links ex_node ∧
           (Link.direction l = "out" ∨ Link.direction l = "bidir") ∧
           Link.kind l = kind ∧ Link.tag l = tag.
Proof.
  split; [reflexivity |].
  apply (add_nodes_link_to_tags ex_token_hex ex_embed_texts
           [ex_node; ex_node_odd] _ _ 0 ex_node);
    reflexivity.
Defined.

Lemma add_nodes_target_inserts_witness :
  length (ex_embed_texts (map Node.text [ex_node; ex_node_odd])) = 2 ∧
  ∃ segs,
    (add_nodes ex_token_hex ex_embed_texts [ex_node; ex_node_odd]).1 = concat segs ∧
    length segs = 2 ∧
    ∀ i node, [ex_node; ex_node_odd] !! i = Some node →
      ∃ x emb seg,
        ["a"; "9f86d081884c7d65"] !! i = Some x ∧
        ex_embed_texts (map Node.text [ex_node; ex_node_odd]) !! i = Some emb ∧
        segs !! i = Some seg ∧
        (∀ l, l ∈ Node.links node →
           Link.direction l = "in" ∨ Link.direction l = "bidir" →
           filter (λ s, target_key s = Some (Link.kind l, Link.tag l, x)) seg
           = [InsertTag x (Link.kind l) (Link.tag l) emb]) ∧
        (∀ s, s ∈ seg → is_insert_passage s = false →
           ∃ l, l ∈ Node.links node ∧
                (Link.direction l = "in" ∨ Link.direction l = "bidir") ∧
                s = InsertTag x (Link.kind l) (Link.tag l) emb).
Proof.
  split; [reflexivity |].
  apply (add_nodes_target_inserts ex_token_hex ex_embed_texts
           [ex_node; ex_node_odd]); reflexivity.
Defined.

(** ** The concurrent query scope *)

Lemma elem_of_delete_NoDup {A} (l : list A) i x y :
  NoDup l → l !! i = Some y → x ∈ delete i l ↔ x ∈ l ∧ x ≠ y.
Proof.
  intros Hnd Hi. rewrite delete_take_drop.
  pose proof (take_drop_middle l i y Hi) as Hl.
  assert (x ∈ l ↔ x ∈ take i l ∨ x = y ∨ x ∈ drop (S i) l) as Hx.
  { rewrite <- Hl at 1. by rewrite elem_of_app, elem_of_cons. }
  rewrite <- Hl in Hnd.
  apply NoDup_app in Hnd as (_ & Hdisj & [Hy _]%NoDup_cons).
  rewrite Hx, elem_of_app. split; [| tauto].
  intros [H | H].
  - split; [tauto |]. intros ->. apply (Hdisj _ H), list_elem_of_here.
  - split; [tauto |]. by intros ->.
Qed.

Lemma NoDup_delete {A} (l : list A) i : NoDup l → NoDup (delete i l).
Proof. intros Hnd. apply (sublist_NoDup _ l); [done | apply sublist_delete]. Qed.

Section ScopeFacts.
Context {St Q : Type}.
Variable complete : Q → St → St * list Q.

Lemma cq_progress_pending (n : nat) (st : scope St Q) :
  pending st ≠ [] →
  ∃ i q, pending st !! i = Some q ∧
    cq_complete complete i st = Some (cq_progress complete n st).
Proof.
  intros Hne. unfold cq_progress.
  assert (n `mod` length (pending st) < length (pending st)) as Hlt.
  { apply Nat.mod_upper_bound. by destruct (pending st). }
  destruct (lookup_lt_is_Some_2 _ _ Hlt) as [q Hq].
  exists (n `mod` length (pending st)), q. split; [done |].
  unfold cq_complete. rewrite Hq. by destruct (complete q (shared st)).
Qed.

Lemma cq_progress_idle (n : nat) (st : scope St Q) :
  pending st = [] → cq_progress complete n st = st.
Proof.
  intros Hnil. unfold cq_progress, cq_complete. rewrite Hnil. done.
Qed.

(** A property every completion preserves holds when the scope is
    left. *)
Lemma cq_progress_preserves (P : scope St Q → Prop) n st :
  (∀ i st st', cq_complete complete i st = Some st' → P st → P st') →
  P st → P (cq_progress complete n st).
Proof.
  intros Hstep HP. destruct (decide (pending st = [])) as [Hnil | Hne].
  - by rewrite cq_progress_idle.
  - destruct (cq_progress_pending n st Hne) as (i & q & _ & Hc). eauto.
Qed.

Lemma cq_exit_preserves (P : scope St Q → Prop) fuel : ∀ pick st,
  (∀ i st st', cq_complete complete i st = Some st' → P st → P st') →
  P st → P (cq_exit complete fuel pick st).
Proof.
  induction fuel as [| fuel IH]; intros pick st Hstep HP; simpl; [done |].
  apply IH; [done |]. by apply cq_progress_preserves.
Qed.

(** Leaving the scope is a sequence of completions. *)
Lemma cq_exit_steps fuel : ∀ pick st,
  rtc (cq_step complete) st (cq_exit complete fuel pick st).
Proof.
  induction fuel as [| fuel IH]; intros pick st; simpl; [done |].
  destruct (decide (pending st = [])) as [Hnil | Hne].
  - rewrite cq_progress_idle by done. apply IH.
  - destruct (cq_progress_pending (pick 0) st Hne) as (i & q & _ & Hc).
    eapply rtc_l; [by econstructor | apply IH].
Qed.
End ScopeFacts.

Section ScopeDrain.
Context {St Q : Type}.
Variable complete : Q → St → St * list Q.

(** When no callback schedules a call, as many completions as calls are
    pending empty the scope. *)
Lemma cq_exit_drains fuel : ∀ pick (st : scope St Q),
  (∀ q s, (complete q s).2 = []) →
  (length (pending st) ≤ fuel)%nat →
  pending (cq_exit complete fuel pick st) = [].
Proof.
  induction fuel as [| fuel IH]; intros pick st Hnone Hlen; simpl.
  - destruct (pending st); [done | simpl in Hlen; lia].
  - apply IH; [done |].
    destruct (decide (pending st = [])) as [Hnil | Hne].
    + rewrite cq_progress_idle by done. rewrite Hnil. simpl. lia.
    + destruct (cq_progress_pending complete (pick 0) st Hne) as (i & q & Hq & Hc).
      unfold cq_complete in Hc. rewrite Hq in Hc.
      specialize (Hnone q (shared st)).
      destruct (complete q (shared st)) as [s new]. simpl in Hnone. subst new.
      injection Hc as <-. simpl. rewrite app_nil_r, length_delete by eauto.
      lia.
Qed.

Lemma sum_list_with_delete (w : Q → nat) (l : list Q) : ∀ i q,
  l !! i = Some q →
  (sum_list_with w (delete i l) + w q = sum_list_with w l)%nat.
Proof.
  induction l as [| x l IH]; intros [| i] q; simpl; try done.
  - intros [= ->]. lia.
  - intros Hi. specialize (IH i q Hi). lia.
Qed.

(** When the calls a callback schedules weigh less than the call it
    belongs to, as many completions as the pending calls weigh empty the
    scope, in whatever order the calls complete. *)
Lemma cq_exit_terminates (w : Q → nat) fuel : ∀ pick (st : scope St Q),
  (∀ q s, (sum_list_with w (complete q s).2 < w q)%nat) →
  (sum_list_with w (pending st) ≤ fuel)%nat →
  pending (cq_exit complete fuel pick st) = [].
Proof.
  induction fuel as [| fuel IH]; intros pick st Hw Hfuel; simpl.
  - destruct (pending st) as [| q l] eqn:Hp; [done |].
    specialize (Hw q (shared st)). simpl in Hfuel. lia.
  - apply IH; [done |].
    destruct (decide (pending st = [])) as [Hnil | Hne].
    + rewrite cq_progress_idle by done. rewrite Hnil. simpl. lia.
    + destruct (cq_progress_pending complete (pick 0) st Hne) as (i & q & Hq & Hc).
      unfold cq_complete in Hc. rewrite Hq in Hc.
      specialize (Hw q (shared st)).
      destruct (complete q (shared st)) as [s new]. simpl in Hw.
      injection Hc as <-. simpl. rewrite sum_list_with_app.
      pose proof (sum_list_with_delete w _ _ _ Hq). lia.
Qed.
End ScopeDrain.

(** ** [_nodes_with_ids] *)

Section NodesWithIdsFacts.
Context {vector : Type}.
Variable store : Store.t vector.

Lemma nwi_complete_decodable node_id s :
  decodable store node_id →
  nwi_complete store (QueryById node_id) s
  = (NwiState
       (match fetched store node_id with
        | Some node => dict_set node_id (Some node) (results s)
        | None => results s
        end) (raised s), []).
Proof.
  unfold decodable, fetched, nwi_complete, query_by_id.
  destruct (Store.passages store !! node_id) as [p |]; simpl.
  - intros Hdec. specialize (Hdec _ (list_elem_of_here _ _)).
    destruct (_row_to_node _) as [node |]; [| done]. done.
  - intros _. by destruct s.
Qed.

Lemma fetched_None node_id :
  decodable store node_id →
  fetched store node_id = None ↔ Store.passages store !! node_id = None.
Proof.
  unfold decodable, fetched, query_by_id.
  destruct (Store.passages store !! node_id) as [p |]; simpl; [| done].
  intros Hdec. specialize (Hdec _ (list_elem_of_here _ _)).
  destruct (_row_to_node _) as [node |]; done.
Qed.

Lemma fetched_id node_id node :
  fetched store node_id = Some node → Node.id node = Some node_id.
Proof.
  unfold fetched, query_by_id.
  destruct (Store.passages store !! node_id) as [p |]; [| done].
  unfold _row_to_node. simpl.
  destruct (_deserialize_metadata _); [| done].
  destruct (_deserialize_links _); [| done]. simpl. by intros [= <-].
Qed.

(** A completion keeps the invariant. *)
Lemma nwi_inv_complete seen i st st' :
  (∀ node_id, node_id ∈ seen → decodable store node_id) →
  cq_complete (nwi_complete store) i st = Some st' →
  nwi_inv store seen st → nwi_inv store seen st'.
Proof.
  intros Hdec Hc (Hraised & Hndp & Hnde & Hexec & Hpend & Hnew & Hres).
  unfold cq_complete in Hc.
  destruct (pending st !! i) as [[node_id] |] eqn:Hi; [| done].
  assert (node_id ∈ seen) as Hseen by (apply Hpend; by eapply list_elem_of_lookup_2).
  rewrite (nwi_complete_decodable _ _ (Hdec _ Hseen)) in Hc.
  injection Hc as <-. unfold nwi_inv. simpl. rewrite !app_nil_r.
  split; [done |]. split; [by apply NoDup_delete |]. split; [done |].
  split; [done |]. split.
  { intros x Hx. apply Hpend. eapply elem_of_delete_NoDup in Hx; [| done..].
    tauto. }
  split.
  { intros x Hx. destruct (fetched store node_id); [| by apply Hnew].
    rewrite dict_get_set_ne by (intros ->; done). by apply Hnew. }
  intros x Hx. specialize (Hres x Hx).
  destruct (decide (x = node_id)) as [-> | Hne].
  - rewrite decide_False.
    2:{ rewrite (elem_of_delete_NoDup _ _ _ _ Hndp Hi). tauto. }
    rewrite decide_True in Hres by (by eapply list_elem_of_lookup_2).
    destruct (fetched store node_id); [by rewrite dict_get_set_eq | done].
  - assert (dict_get x
              match fetched store node_id with
              | Some node => dict_set node_id (Some node) (results (shared st))
              | None => results (shared st)
              end = dict_get x (results (shared st))) as ->.
    { destruct (fetched store node_id); [| done].
      by rewrite dict_get_set_ne. }
    rewrite Hres. apply decide_ext.
    rewrite (elem_of_delete_NoDup _ _ _ _ Hndp Hi). split; [| tauto].
    intros ?. split; [done |]. by intros [= ->].
Qed.

Lemma nwi_inv_ext seen seen' st :
  (∀ x, x ∈ seen ↔ x ∈ seen') → nwi_inv store seen st → nwi_inv store seen' st.
Proof.
  intros Heq (? & ? & ? & Hexec & Hpend & Hnew & Hres).
  unfold nwi_inv. do 3 (split; [done |]).
  split; [intros x; by rewrite Hexec |].
  split; [intros x Hx; by apply Heq, Hpend |].
  split; [intros x Hx; apply Hnew; by rewrite Heq | intros x Hx; apply Hres; by rewrite Heq].
Qed.

(** The loop over [ids] extends the invariant to the ids it handles. *)
Lemma nwi_inv_loop (ids : list string) : ∀ sched (seen : list string) st,
  (∀ node_id, node_id ∈ (seen ++ ids)%list → decodable store node_id) →
  nwi_inv store seen st →
  nwi_inv store (seen ++ ids) (nwi_loop store ids sched st).
Proof.
  induction ids as [| node_id ids IH]; intros sched seen st Hdec Hinv; simpl.
  - by rewrite app_nil_r.
  - set (st1 := foldl (λ st n, cq_progress (nwi_complete store) n st) st (sched 0)).
    assert (nwi_inv store seen st1) as Hinv1.
    { subst st1. generalize (sched 0). intros picks. revert st Hinv.
      induction picks as [| n picks IHp]; intros st Hinv; simpl; [done |].
      apply IHp. apply (cq_progress_preserves _ (nwi_inv store seen)); [| done].
      intros i s s' Hc. apply (nwi_inv_complete seen i); [| done].
      intros x Hx. apply Hdec, elem_of_app. by left. }
    clearbody st1. clear st Hinv.
    rewrite (cons_middle node_id seen ids), app_assoc.
    rewrite (cons_middle node_id seen ids), app_assoc in Hdec.
    pose proof Hinv1 as (Hraised & Hndp & Hnde & Hexec & Hpend & Hnew & Hres).
    destruct (dict_get node_id (results (shared st1))) as [r |] eqn:Hget.
    + (* already requested *)
      assert (node_id ∈ seen) as Hseen.
      { destruct (decide (node_id ∈ seen)) as [| Hn]; [done |].
        by rewrite (Hnew _ Hn) in Hget. }
      apply IH; [done |].
      apply (nwi_inv_ext seen); [| done].
      intros x. rewrite elem_of_app, list_elem_of_singleton. naive_solver.
    + (* first request: mark the id and schedule its call *)
      assert (node_id ∉ seen) as Hfresh.
      { intros Hseen. rewrite (Hres _ Hseen) in Hget. by case_decide. }
      assert (QueryById node_id ∉ pending st1) as Hnp by (intros ?%Hpend; done).
      apply IH; [done |].
      unfold nwi_inv, cq_execute. simpl. split; [done |].
      split.
      { apply NoDup_app. split; [done |]. split; [| apply NoDup_singleton].
        by intros x Hx ->%list_elem_of_singleton. }
      split.
      { apply NoDup_app. split; [done |]. split; [| apply NoDup_singleton].
        intros x Hx ->%list_elem_of_singleton. by apply Hexec in Hx. }
      split.
      { intros x. rewrite !elem_of_app, !list_elem_of_singleton, Hexec.
        naive_solver. }
      split.
      { intros x. rewrite !elem_of_app, !list_elem_of_singleton.
        intros [?%Hpend | [= ->]]; auto. }
      split.
      { intros x. rewrite elem_of_app, list_elem_of_singleton. intros Hx.
        rewrite dict_get_set_ne by naive_solver. apply Hnew. naive_solver. }
      intros x [Hx | ->%list_elem_of_singleton]%elem_of_app.
      * rewrite dict_get_set_ne by (intros ->; done). rewrite (Hres _ Hx).
        apply decide_ext. rewrite elem_of_app, list_elem_of_singleton.
        split; [tauto |]. intros [? | [= ->]]; done.
      * rewrite dict_get_set_eq, decide_True; [done |].
        rewrite elem_of_app, list_elem_of_singleton. by right.
Qed.

Lemma nwi_complete_schedules_nothing q s : (nwi_complete store q s).2 = [].
Proof. by destruct q. Qed.

(** What [results] holds when the scope is left. *)
Lemma nwi_results sched pick ids :
  (∀ node_id, node_id ∈ ids → decodable store node_id) →
  let st := nwi_loop store ids sched (Scope (NwiState [] None) [] []) in
  let st' := cq_exit (nwi_complete store) (length (pending st)) pick st in
  raised (shared st') = None ∧
  NoDup (executed st') ∧
  (∀ node_id, QueryById node_id ∈ executed st' ↔ node_id ∈ ids) ∧
  ∀ node_id, node_id ∈ ids →
    dict_get node_id (results (shared st')) = Some (fetched store node_id).
Proof.
  intros Hdec st st'.
  assert (nwi_inv store ids st) as Hinv.
  { apply (nwi_inv_loop ids sched []).
    - done.
    - unfold nwi_inv. simpl. split; [done |]. do 2 (split; [constructor |]).
      split; [intros x; by rewrite !elem_of_nil |].
      split; [by intros x ?%elem_of_nil |].
      split; [done | by intros x ?%elem_of_nil]. }
  assert (nwi_inv store ids st') as (Hraised & _ & Hnde & Hexec & _ & _ & Hres).
  { subst st'. apply cq_exit_preserves; [| done].
    intros i s s' Hc. by apply (nwi_inv_complete ids i). }
  assert (pending st' = []) as Hq.
  { subst st'. apply cq_exit_drains; [apply nwi_complete_schedules_nothing | done]. }
  do 3 (split; [done |]). intros x Hx. rewrite (Hres x Hx), Hq.
  rewrite decide_False; [done | apply not_elem_of_nil].
Qed.
End NodesWithIdsFacts.

Section NodesWithIdsClaims.
Context {vector : Type}.
Variable store : Store.t vector.


Lemma decodable_check node_id :
  forallb (λ row, is_ok (_row_to_node row)) (query_by_id store node_id) = true →
  decodable store node_id.
Proof.
  rewrite forallb_forall. intros Hall row Hrow.
  by apply Hall, list_elem_of_In.
Qed.

Lemma get_results_fetched results (ids : list string) :
  (∀ node_id, node_id ∈ ids →
     dict_get node_id results = Some (fetched store node_id)) →
  (∀ node_id, node_id ∈ ids → decodable store node_id) →
  ((∀ node_id, node_id ∈ ids → is_Some (Store.passages store !! node_id)) →
   ∃ nodes, get_results results ids = Ok nodes ∧ length nodes = length ids ∧
     ∀ i node_id, ids !! i = Some node_id →
       ∃ node, nodes !! i = Some node ∧ fetched store node_id = Some node) ∧
  ((∃ node_id, node_id ∈ ids ∧ Store.passages store !! node_id = None) →
   ∃ node_id, node_id ∈ ids ∧ Store.passages store !! node_id = None ∧
     get_results results ids
     = Raise (ValueError ("No node with ID '" ++ node_id ++ "'"))).
Proof.
  induction ids as [| node_id ids IH]; intros Hres Hdec.
  - split.
    + intros _. exists []. simpl. split; [done |]. split; [done |].
      intros i x. by rewrite lookup_nil.
    + intros (x & []%elem_of_nil & _).
  - destruct IH as [IHok IHraise].
    { intros x Hx. apply Hres. by right. }
    { intros x Hx. apply Hdec. by right. }
    assert (dict_get node_id results = Some (fetched store node_id)) as Hhd
      by (apply Hres; left).
    pose proof (fetched_None store node_id (Hdec _ (list_elem_of_here _ _)))
      as Hnone.
    simpl. unfold get_result. rewrite Hhd.
    destruct (fetched store node_id) as [node |] eqn:Hf.
    + assert (is_Some (Store.passages store !! node_id)) as Hsome.
      { destruct (Store.passages store !! node_id); [done |].
        destruct Hnone as [_ Hn]. by specialize (Hn eq_refl). }
      split.
      * intros Hall. destruct IHok as (nodes & -> & Hlen & Hnth).
        { intros x Hx. apply Hall. by right. }
        exists (node :: nodes). simpl. split; [done |]. split; [by rewrite Hlen |].
        intros [| i] x; simpl; [intros [= <-]; eauto | apply Hnth].
      * intros (x & [-> | Hx]%elem_of_cons & Hmiss).
        { rewrite Hmiss in Hsome. by destruct Hsome. }
        destruct IHraise as (y & Hy & Hymiss & ->); [eauto |].
        exists y. simpl. split; [by right | done].
    + split.
      * intros Hall. destruct (Hall node_id (list_elem_of_here _ _)) as [p Hp].
        destruct Hnone as [Hn _]. rewrite (Hn eq_refl) in Hp. done.
      * intros _. exists node_id. split; [left |]. split; [by apply Hnone | done].
Qed.

(** C4.  [_nodes_with_ids] issues one fetch for each distinct id and no
    other; when every id has a row it returns one node for each id of the
    list, in the order of the list, the node its row decodes to; and it
    raises ["No node with ID ..."] exactly when some id has no row.  The
    rows of the ids are taken to decode, as rows written by [add_nodes]
    do. *)
Theorem _nodes_with_ids_spec sched pick (ids : list string) :
  (∀ node_id, node_id ∈ ids → decodable store node_id) →
  let r := _nodes_with_ids store sched pick ids in
  (NoDup r.1 ∧ ∀ node_id, QueryById node_id ∈ r.1 ↔ node_id ∈ ids) ∧
  ((∀ node_id, node_id ∈ ids → is_Some (Store.passages store !! node_id)) →
   ∃ nodes, r.2 = Ok nodes ∧ length nodes = length ids ∧
     ∀ i node_id, ids !! i = Some node_id →
       ∃ node, nodes !! i = Some node ∧
         fetched store node_id = Some node ∧ Node.id node = Some node_id) ∧
  ((∃ node_id, node_id ∈ ids ∧ Store.passages store !! node_id = None) ↔
   ∃ node_id, r.2 = Raise (ValueError ("No node with ID '" ++ node_id ++ "'"))).
Proof.
  intros Hdec. unfold _nodes_with_ids.
  destruct (nwi_results store sched pick ids Hdec) as (Hraised & Hnd & Hexec & Hres).
  cbn zeta. simpl. rewrite Hraised.
  destruct (get_results_fetched _ ids Hres Hdec) as [Hok Hraise].
  split; [done |]. split.
  - intros Hall. destruct (Hok Hall) as (nodes & Hn & Hlen & Hnth).
    exists nodes. do 2 (split; [done |]). intros i x Hi.
    destruct (Hnth i x Hi) as (node & ? & Hf). exists node.
    do 2 (split; [done |]). by eapply fetched_id.
  - split.
    + intros Hmiss. destruct (Hraise Hmiss) as (x & _ & _ & ->). eauto.
    + intros (x & Hx).
      destruct (decide (Forall (λ y, is_Some (Store.passages store !! y)) ids))
        as [Hall | Hnall].
      * rewrite Forall_forall in Hall.
        destruct (Hok Hall) as (nodes & Hn & _). congruence.
      * apply not_Forall_Exists in Hnall; [| apply _].
        apply Exists_exists in Hnall as (y & Hy & Hnone).
        exists y. split; [done |].
        by apply eq_None_not_Some.
Qed.
End NodesWithIdsClaims.

Lemma _nodes_with_ids_spec_witness :
  (∀ node_id, node_id ∈ ["b"; "a"; "b"] → decodable ex_store node_id) ∧
  let r := _nodes_with_ids ex_store (λ n, [n]) (λ n, n) ["b"; "a"; "b"] in
  (NoDup r.1 ∧ ∀ node_id, QueryById node_id ∈ r.1 ↔ node_id ∈ ["b"; "a"; "b"]) ∧
  ((∀ node_id, node_id ∈ ["b"; "a"; "b"] →
      is_Some (Store.passages ex_store !! node_id)) →
   ∃ nodes, r.2 = Ok nodes ∧ length nodes = 3 ∧
     ∀ i node_id, ["b"; "a"; "b"] !! i = Some node_id →
       ∃ node, nodes !! i = Some node ∧
         fetched ex_store node_id = Some node ∧ Node.id node = Some node_id) ∧
  ((∃ node_id, node_id ∈ ["b"; "a"; "b"] ∧
      Store.passages ex_store !! node_id = None) ↔
   ∃ node_id, r.2 = Raise (ValueError ("No node with ID '" ++ node_id ++ "'"))).
Proof.
  assert (∀ node_id, node_id ∈ ["b"; "a"; "b"] → decodable ex_store node_id) as Hdec.
  { intros x Hx. apply decodable_check.
    repeat (apply elem_of_cons in Hx as [-> | Hx]; [reflexivity |]).
    by apply elem_of_nil in Hx. }
  split; [exact Hdec |].
  exact (_nodes_with_ids_spec ex_store (λ n, [n]) (λ n, n) ["b"; "a"; "b"] Hdec).
Defined.

Lemma get_results_Ok results (ids : list string) : ∀ nodes,
  get_results results ids = Ok nodes →
  Forall2 (λ node_id node, dict_get node_id results = Some (Some node)) ids nodes.
Proof.
  induction ids as [| node_id ids IH]; intros nodes; simpl.
  - intros [= <-]. constructor.
  - unfold get_result.
    destruct (dict_get node_id results) as [[node |] |] eqn:Hget; try done.
    simpl. destruct (get_results results ids) as [nodes' |]; [| done].
    simpl. intros [= <-]. constructor; auto.
Qed.

(** Every node [_nodes_with_ids] returns carries one of the ids asked
    for. *)
Lemma _nodes_with_ids_Ok_ids {vector} (store : Store.t vector) sched pick
    (ids : list string) nodes node :
  (∀ node_id, node_id ∈ ids → decodable store node_id) →
  (_nodes_with_ids store sched pick ids).2 = Ok nodes →
  node ∈ nodes →
  ∃ node_id, node_id ∈ ids ∧ Node.id node = Some node_id.
Proof.
  intros Hdec. unfold _nodes_with_ids.
  destruct (nwi_results store sched pick ids Hdec) as (Hraised & _ & _ & Hres).
  cbn zeta. simpl. rewrite Hraised. intros Hok%get_results_Ok Hnode.
  apply list_elem_of_lookup in Hnode as [i Hi].
  destruct (Forall2_lookup_r _ _ _ _ _ Hok Hi) as (node_id & Hid & Hget).
  assert (node_id ∈ ids) as Hin by (by eapply list_elem_of_lookup_2).
  exists node_id. split; [done |].
  rewrite (Hres _ Hin) in Hget. injection Hget as Hf. by eapply fetched_id.
Qed.

(** ** [traversal_search] *)

Section TraversalFacts.
Context {vector : Type}.
Variable store : Store.t vector.
Variable depth : Z.
Variable seeds : list string.

Lemma ts_visited_ok_set visited_ids node_id n :
  ts_visited_ok store depth seeds visited_ids →
  (Z.of_nat n ≤ depth)%Z → within_hops store seeds n node_id →
  ts_visited_ok store depth seeds (dict_set node_id (Z.of_nat n) visited_ids).
Proof.
  intros Hok Hle Hw x d. destruct (decide (node_id = x)) as [-> | Hne].
  - rewrite dict_get_set_eq. intros [= <-]. eauto.
  - rewrite dict_get_set_ne by done. apply Hok.
Qed.

(** The depth test of [visit_nodes] lets only depths up to [depth]
    through. *)
Lemma ts_depth_test visited_ids node_id d :
  ts_visited_ok store depth seeds visited_ids →
  (d <=? default depth (dict_get node_id visited_ids))%Z = true →
  (d ≤ depth)%Z.
Proof.
  intros Hok Hle%Z.leb_le.
  destruct (dict_get node_id visited_ids) as [d' |] eqn:Hget; simpl in Hle; [| done].
  destruct (Hok _ _ Hget) as (n & _ & ? & _). lia.
Qed.

(** The tags collected by the loop over the tags of one node. *)
Lemma visit_tag_outgoing d tags : ∀ visited_tags outgoing_tags kv,
  kv ∈ (foldl (visit_tag depth d) (visited_tags, outgoing_tags) tags).2 →
  kv ∈ outgoing_tags ∨ kv ∈ tags.
Proof.
  induction tags as [| t tags IH]; intros vt og kv; simpl; [auto |].
  destruct (d <=? _)%Z; intros [Hin | Hin]%IH; rewrite ?elem_of_cons; auto.
  apply elem_of_set_add in Hin as [-> | ?]; auto.
Qed.

(** The loop over the rows passed to [visit_nodes]. *)
Lemma visit_node_fold n (rows : list (string * option (list (string * string)))) :
  ∀ visited_ids visited_tags outgoing_tags,
  (∀ row, row ∈ rows →
     within_hops store seeds n row.1 ∧
     ∀ kv, kv ∈ or_empty row.2 → kv ∈ link_to_tags_of store row.1) →
  ts_visited_ok store depth seeds visited_ids →
  (∀ kv, kv ∈ outgoing_tags →
     (Z.of_nat n < depth)%Z ∧
     ∃ a, within_hops store seeds n a ∧ kv ∈ link_to_tags_of store a) →
  let r := foldl (visit_node depth (Z.of_nat n))
             (visited_ids, visited_tags, outgoing_tags) rows in
  ts_visited_ok store depth seeds r.1.1 ∧
  ∀ kv, kv ∈ r.2 →
    (Z.of_nat n < depth)%Z ∧
    ∃ a, within_hops store seeds n a ∧ kv ∈ link_to_tags_of store a.
Proof.
  induction rows as [| [node_id tags] rows IH]; intros vi vt og Hrows Hok Hog;
    [done |].
  cbn [foldl]. destruct (Hrows _ (list_elem_of_here _ _)) as [Hw Htags].
  assert (∀ row, row ∈ rows →
            within_hops store seeds n row.1 ∧
            ∀ kv, kv ∈ or_empty row.2 → kv ∈ link_to_tags_of store row.1) as Hrows'.
  { intros row Hrow. apply Hrows. by right. }
  unfold visit_node at 2. simpl.
  destruct (Z.of_nat n <=? default depth (dict_get node_id vi))%Z eqn:Hle;
    [| by apply IH].
  pose proof (ts_depth_test _ _ _ Hok Hle) as Hdepth.
  pose proof (ts_visited_ok_set _ _ _ Hok Hdepth Hw) as Hok'.
  destruct ((Z.of_nat n <? depth)%Z && truthy tags) eqn:Hgo; [| by apply IH].
  apply andb_true_iff in Hgo as [Hlt%Z.ltb_lt _].
  pose proof (visit_tag_outgoing (Z.of_nat n) (or_empty tags) vt og) as Hnew.
  destruct (foldl (visit_tag depth (Z.of_nat n)) (vt, og) (or_empty tags))
    as [vt' og'].
  apply IH; [done | done |].
  intros kv [Hkv | Hkv]%Hnew; [by apply Hog |].
  split; [done |]. exists node_id. split; [done |]. by apply Htags.
Qed.

Lemma visit_nodes_ok n rows (s : ts_state) query_embedding k :
  (∀ row, row ∈ rows →
     within_hops store seeds n row.1 ∧
     ∀ kv, kv ∈ or_empty row.2 → kv ∈ link_to_tags_of store row.1) →
  ts_visited_ok store depth seeds (visited_ids s) →
  let r := visit_nodes (vector:=vector) depth (Z.of_nat n) rows s in
  ts_visited_ok store depth seeds (visited_ids r.1) ∧
  Forall (ts_call_ok store depth query_embedding k seeds) r.2.
Proof.
  intros Hrows Hok. unfold visit_nodes.
  pose proof (visit_node_fold n rows (visited_ids s) (visited_tags s) []
                Hrows Hok) as Hfold.
  destruct (foldl _ _ rows) as [[vi vt] og]. simpl in *.
  destruct Hfold as [Hvi Hog]; [by intros kv ?%elem_of_nil |].
  split; [done |]. apply Forall_forall.
  intros q ([kind value] & -> & Hkv)%list_elem_of_fmap.
  destruct (Hog _ Hkv) as (Hlt & a & Ha & Hin). simpl. eauto 10.
Qed.

Lemma visit_targets_new d targets (s : ts_state) : ∀ acc node_id,
  node_id ∈ foldl (λ new target,
                    let content_id := Target.target_content_id (vector:=vector) target in
                    if (d <? default depth (dict_get content_id (visited_ids s)))%Z
                    then set_add content_id new else new) acc targets →
  node_id ∈ acc ∨
  ∃ target, target ∈ targets ∧ Target.target_content_id target = node_id.
Proof.
  induction targets as [| t targets IH]; intros acc x; simpl; [auto |].
  intros [Hin | (t' & ? & ?)]%IH.
  - destruct (d <? _)%Z; [| auto].
    apply elem_of_set_add in Hin as [-> | ?]; [| auto].
    right. exists t. split; [left | done].
  - right. exists t'. split; [by right | done].
Qed.
End TraversalFacts.

Section TraversalInvariant.
Context {vector : Type}.
Variable store : Store.t vector.
Variable depth : Z.
Variable query_embedding : vector.
Variable k : Z.

Lemma rows_by_id node_id row :
  row ∈ query_ids_and_link_to_tags_by_id store node_id →
  row.1 = node_id ∧
  ∀ kv, kv ∈ or_empty row.2 → kv ∈ link_to_tags_of store node_id.
Proof.
  unfold query_ids_and_link_to_tags_by_id, link_to_tags_of.
  destruct (Store.passages store !! node_id) as [p |].
  - intros ->%list_elem_of_singleton. done.
  - by intros ?%elem_of_nil.
Qed.

Lemma rows_by_embedding row :
  row ∈ query_ids_and_link_to_tags_by_embedding store query_embedding k →
  row.1 ∈ ann_seeds store query_embedding k ∧
  ∀ kv, kv ∈ or_empty row.2 → kv ∈ link_to_tags_of store row.1.
Proof.
  intros Hrow. split.
  - unfold ann_seeds. apply list_elem_of_fmap. eauto.
  - unfold query_ids_and_link_to_tags_by_embedding in Hrow.
    apply list_elem_of_join in Hrow as (rows & Hrow & Hrows).
    apply list_elem_of_fmap in Hrows as (node_id & -> & _).
    apply rows_by_id in Hrow as [<- ?]. done.
Qed.

(** Every completion keeps the invariant of the traversal. *)
Lemma ts_inv_complete i st st' :
  cq_complete (ts_complete store depth) i st = Some st' →
  ts_inv store depth query_embedding k st →
  ts_inv store depth query_embedding k st'.
Proof.
  unfold ts_inv, cq_complete. cbn zeta.
  set (seeds := ann_seeds store query_embedding k).
  intros Hc [Hvis Hpend].
  destruct (pending st !! i) as [q |] eqn:Hi; [| done].
  pose proof (Forall_lookup_1 _ _ _ _ Hpend Hi) as Hq.
  assert (Forall (ts_call_ok store depth query_embedding k seeds)
            (delete i (pending st))) as Hrest.
  { by apply Forall_delete. }
  assert (∀ s new,
            ts_complete store depth q (shared st) = (s, new) →
            ts_visited_ok store depth seeds (visited_ids s) ∧
            Forall (ts_call_ok store depth query_embedding k seeds) new)
    as Hnew.
  { intros s new Hcomp. destruct q as [q' k' | kind value d | node_id d];
      simpl in Hcomp, Hq.
    - destruct Hq as [-> ->].
      pose proof (visit_nodes_ok store depth seeds 0
        (query_ids_and_link_to_tags_by_embedding store query_embedding k)
        (shared st) query_embedding k) as Hv.
      cbv zeta in Hv. change (Z.of_nat 0) with 0%Z in Hv.
      rewrite Hcomp in Hv. apply Hv; [| done].
      intros row [Hseed Htags]%rows_by_embedding. split; [| done].
      by constructor.
    - destruct Hq as (n & a & -> & Hlt & Ha & Hin).
      unfold visit_targets in Hcomp. injection Hcomp as <- <-.
      split; [done |]. apply Forall_forall.
      intros q (node_id & -> & Hid)%list_elem_of_fmap. simpl.
      apply visit_targets_new in Hid as [[]%elem_of_nil | (t & Ht & <-)].
      exists n. split; [done |]. split; [done |].
      apply (within_hop _ _ n a); [done |].
      unfold query_targets_by_kind_and_value in Ht.
      apply list_elem_of_filter in Ht as [[<- <-] Ht]. by exists t.
    - destruct Hq as (n & -> & Hlt & Hw).
      pose proof (visit_nodes_ok store depth seeds (S n)
        (query_ids_and_link_to_tags_by_id store node_id)
        (shared st) query_embedding k) as Hv.
      cbv zeta in Hv. rewrite Nat2Z.inj_succ in Hv. unfold Z.succ in Hv.
      rewrite Hcomp in Hv. apply Hv; [| done].
      intros row [-> Htags]%rows_by_id. done. }
  destruct (ts_complete store depth q (shared st)) as [s new].
  destruct (Hnew s new eq_refl) as [Hs Hcalls].
  injection Hc as <-. simpl. split; [done |]. by apply Forall_app.
Qed.

Lemma ts_inv_enter :
  ts_inv store depth query_embedding k
    (cq_execute (QueryIdsAndLinkToTagsByEmbedding query_embedding k)
       (Scope (TsState [] []) [] [])).
Proof.
  unfold ts_inv. simpl. split; [by intros x d [=] |].
  by repeat constructor.
Qed.

(** The invariant holds in every state the scope goes through. *)
Lemma ts_inv_reachable st :
  rtc (cq_step (ts_complete store depth))
    (cq_execute (QueryIdsAndLinkToTagsByEmbedding query_embedding k)
       (Scope (TsState [] []) [] [])) st →
  ts_inv store depth query_embedding k st.
Proof.
  intros Hrtc. eapply (rtc_ind_r (λ st, ts_inv store depth query_embedding k st));
    [apply ts_inv_enter | | exact Hrtc].
  intros s s' _ [i ? ? Hc] Hinv. by eapply ts_inv_complete.
Qed.
End TraversalInvariant.

Lemma cq_exit_idle {St Q} (complete : Q → St → St * list Q) fuel :
  ∀ pick (st : scope St Q),
  pending st = [] → cq_exit complete fuel pick st = st.
Proof.
  induction fuel as [| fuel IH]; intros pick st Hnil; simpl; [done |].
  rewrite cq_progress_idle by done. by apply IH.
Qed.

Lemma cq_progress_single {St Q} (complete : Q → St → St * list Q) n q s ex :
  cq_progress complete n (Scope s [q] ex)
  = Scope (complete q s).1 (complete q s).2 (ex ++ (complete q s).2).
Proof.
  unfold cq_progress, cq_complete. cbn [pending length].
  rewrite Nat.mod_1_r. cbn [lookup list_lookup shared executed].
  by destruct (complete q s).
Qed.

Lemma dict_keys_get {A V} `{EqDecision A} (k : A) (d : list (A * V)) :
  k ∈ dict_keys d → ∃ v, dict_get k d = Some v.
Proof.
  intros Hk. destruct (dict_get k d) as [v |] eqn:Hget; [eauto |].
  by apply dict_get_None_keys in Hget.
Qed.

Section TraversalDepthZero.
Context {vector : Type}.

(** With [depth = 0] a call of [visit_nodes(0, rows)] records the ids of
    the rows and schedules nothing. *)
Lemma visit_node_fold_0 (rows : list (string * option (list (string * string)))) :
  ∀ visited_ids visited_tags,
  (∀ node_id d, dict_get node_id visited_ids = Some d → d = 0%Z) →
  ∃ visited_ids',
    foldl (visit_node 0 0) (visited_ids, visited_tags, []) rows
    = (visited_ids', visited_tags, []) ∧
    (∀ node_id d, dict_get node_id visited_ids' = Some d → d = 0%Z) ∧
    ∀ node_id, node_id ∈ dict_keys visited_ids' ↔
               node_id ∈ dict_keys visited_ids ∨ node_id ∈ rows.*1.
Proof.
  induction rows as [| [node_id tags] rows IH]; intros vi vt Hz.
  - exists vi. simpl. split; [done |]. split; [done |].
    intros x. rewrite elem_of_nil. tauto.
  - cbn [foldl]. unfold visit_node at 2. simpl.
    assert ((0 <=? default 0 (dict_get node_id vi))%Z = true) as ->.
    { destruct (dict_get node_id vi) as [d |] eqn:Hget; [| done].
      by rewrite (Hz _ _ Hget). }
    destruct (IH (dict_set node_id 0%Z vi) vt) as (vi' & -> & Hz' & Hkeys).
    { intros x d. destruct (decide (node_id = x)) as [-> | Hne].
      - rewrite dict_get_set_eq. by intros [= <-].
      - rewrite dict_get_set_ne by done. apply Hz. }
    exists vi'. split; [done |]. split; [done |].
    intros x. rewrite Hkeys, dict_keys_set, elem_of_cons. tauto.
Qed.
End TraversalDepthZero.

Lemma length_link_to_tags_of {vector} (store : Store.t vector) node_id :
  (length (link_to_tags_of store node_id) ≤ max_tags store)%nat.
Proof.
  unfold link_to_tags_of, max_tags.
  destruct (Store.passages store !! node_id) as [p |] eqn:Hp; [| simpl; lia].
  apply max_list_elem_of_le, list_elem_of_fmap.
  exists (node_id, p). split; [done |]. by apply elem_of_map_to_list.
Qed.

Section TraversalReturns.
Context {vector : Type}.
Variable store : Store.t vector.
Variable depth : Z.

Lemma ts_visit_weight_pos L M r : (1 ≤ ts_visit_weight L M r)%nat.
Proof. destruct r; simpl; lia. Qed.

Lemma visit_tag_count d tags : ∀ visited_tags outgoing_tags,
  (length (foldl (visit_tag depth d) (visited_tags, outgoing_tags) tags).2
   ≤ length outgoing_tags + length tags)%nat.
Proof.
  induction tags as [| t tags IH]; intros vt og; simpl; [lia |].
  destruct (d <=? _)%Z.
  - specialize (IH (dict_set t d vt) (set_add t og)).
    pose proof (length_set_add t og). lia.
  - specialize (IH vt og). lia.
Qed.

(** [visit_nodes] collects at most one tag for each tag of its rows, and
    none at the depth limit. *)
Lemma visit_node_count d (rows : list (string * option (list (string * string)))) :
  ∀ visited_ids visited_tags outgoing_tags,
  (length (foldl (visit_node depth d)
             (visited_ids, visited_tags, outgoing_tags) rows).2
   ≤ length outgoing_tags
     + (if (d <? depth)%Z
        then sum_list_with (λ row, length (or_empty row.2)) rows else 0))%nat.
Proof.
  induction rows as [| [node_id tags] rows IH]; intros vi vt og.
  - simpl. destruct (d <? depth)%Z; lia.
  - cbn [foldl]. unfold visit_node at 2. cbn [fst snd].
    destruct (d <=? default depth (dict_get node_id vi))%Z.
    2:{ specialize (IH vi vt og). simpl. destruct (d <? depth)%Z; lia. }
    destruct (d <? depth)%Z eqn:Hlt; cbn [andb].
    2:{ specialize (IH (dict_set node_id d vi) vt og). lia. }
    destruct (truthy tags).
    + pose proof (visit_tag_count d (or_empty tags) vt og) as Htags.
      destruct (foldl (visit_tag depth d) (vt, og) (or_empty tags)) as [vt' og'].
      specialize (IH (dict_set node_id d vi) vt' og').
      simpl in *. lia.
    + specialize (IH (dict_set node_id d vi) vt og).
      simpl. lia.
Qed.

Lemma visit_nodes_weight d rows (s : ts_state) :
  (sum_list_with (ts_weight store depth)
     (visit_nodes (vector:=vector) depth d rows s).2
   ≤ (if (d <? depth)%Z
      then sum_list_with (λ row, length (or_empty row.2)) rows else 0)
     * ts_weight store depth (QueryTargetsByKindAndValue "" "" d))%nat.
Proof.
  unfold visit_nodes.
  pose proof (visit_node_count d rows (visited_ids s) (visited_tags s) []) as Hlen.
  destruct (foldl _ _ rows) as [[vi vt] og]. simpl in Hlen. cbn [snd].
  rewrite (sum_list_with_const _
             (ts_weight store depth (QueryTargetsByKindAndValue "" "" d))).
  - rewrite length_map. apply Nat.mul_le_mono_r. lia.
  - apply Forall_forall. by intros q ([kind value] & -> & _)%list_elem_of_fmap.
Qed.

Lemma visit_targets_weight d targets (s : ts_state) :
  (sum_list_with (ts_weight store depth)
     (visit_targets (vector:=vector) depth d targets s).2
   ≤ length targets * ts_weight store depth (QueryIdsAndLinkToTagsById "" d))%nat.
Proof.
  unfold visit_targets. cbv zeta. cbn [snd].
  rewrite (sum_list_with_const _
             (ts_weight store depth (QueryIdsAndLinkToTagsById "" d))).
  - rewrite length_map. apply Nat.mul_le_mono_r.
    assert (∀ acc : list string,
              (length (foldl (λ new target,
                         if (d <? default depth
                                    (dict_get (Target.target_content_id (vector:=vector) target)
                                       (visited_ids s)))%Z
                         then set_add (Target.target_content_id target) new
                         else new) acc targets)
               ≤ length acc + length targets)%nat) as Hfold.
    { induction targets as [| t targets IH]; intros acc; [simpl; lia |].
      cbn [foldl length].
      destruct (d <? _)%Z.
      - specialize (IH (set_add (Target.target_content_id t) acc)).
        pose proof (length_set_add (Target.target_content_id t) acc). lia.
      - specialize (IH acc). lia. }
    specialize (Hfold []). simpl in Hfold. lia.
  - apply Forall_forall. by intros q (node_id & -> & _)%list_elem_of_fmap.
Qed.

Lemma rows_by_id_tags node_id :
  (sum_list_with (λ row : string * option (list (string * string)),
                    length (or_empty row.2))
     (query_ids_and_link_to_tags_by_id store node_id) ≤ max_tags store)%nat.
Proof.
  pose proof (length_link_to_tags_of store node_id) as Hle.
  unfold query_ids_and_link_to_tags_by_id, link_to_tags_of in *.
  destruct (Store.passages store !! node_id); simpl in *; lia.
Qed.

Lemma rows_by_embedding_tags query_embedding k :
  (sum_list_with (λ row : string * option (list (string * string)),
                    length (or_empty row.2))
     (query_ids_and_link_to_tags_by_embedding store query_embedding k)
   ≤ length (Store.ann_passages store query_embedding k) * max_tags store)%nat.
Proof.
  unfold query_ids_and_link_to_tags_by_embedding.
  induction (Store.ann_passages store query_embedding k) as [| x xs IH];
    simpl; [lia |].
  rewrite sum_list_with_app. pose proof (rows_by_id_tags x). lia.
Qed.

(** The calls a callback of the traversal schedules weigh less than the
    call it belongs to. *)
Lemma ts_complete_weight q (s : ts_state) :
  (sum_list_with (ts_weight store depth) (ts_complete store depth q s).2
   < ts_weight store depth q)%nat.
Proof.
  destruct q as [query_embedding k | kind value d | node_id d]; cbn [ts_complete].
  - pose proof (visit_nodes_weight 0
      (query_ids_and_link_to_tags_by_embedding store query_embedding k) s) as Hw.
    pose proof (rows_by_embedding_tags query_embedding k) as Hrows.
    assert (ts_weight store depth (QueryTargetsByKindAndValue "" "" 0)
            = (1 + length (Store.targets store)
                   * ts_visit_weight (max_tags store) (length (Store.targets store))
                       (Z.to_nat (depth - 1)))%nat) as Hc by done.
    rewrite Hc in Hw. unfold ts_weight at 2.
    set (c := (1 + _ * ts_visit_weight _ _ _)%nat) in *.
    destruct (0 <? depth)%Z.
    + apply (Nat.mul_le_mono_r _ _ c) in Hrows. lia.
    + lia.
  - pose proof (visit_targets_weight d
      (query_targets_by_kind_and_value store kind value) s) as Hw.
    assert (length (query_targets_by_kind_and_value store kind value)
            ≤ length (Store.targets store))%nat as Hlen by apply length_filter.
    unfold ts_weight at 2. unfold ts_weight at 2 in Hw.
    set (c := ts_visit_weight _ _ _) in *.
    apply (Nat.mul_le_mono_r _ _ c) in Hlen. lia.
  - pose proof (visit_nodes_weight (d + 1)
      (query_ids_and_link_to_tags_by_id store node_id) s) as Hw.
    pose proof (rows_by_id_tags node_id) as Hrows.
    unfold ts_weight at 2. unfold ts_weight at 2 in Hw.
    destruct (d + 1 <? depth)%Z eqn:Hlt.
    + apply Z.ltb_lt in Hlt.
      assert (Z.to_nat (depth - (d + 1)) = S (Z.to_nat (depth - (d + 1 + 1))))
        as -> by lia.
      cbn [ts_visit_weight].
      set (c := (1 + _ * ts_visit_weight _ _ _)%nat) in *.
      apply (Nat.mul_le_mono_r _ _ c) in Hrows. lia.
    + pose proof (ts_visit_weight_pos (max_tags store)
                    (length (Store.targets store)) (Z.to_nat (depth - (d + 1)))).
      lia.
Qed.

(** [traversal_search] returns, whatever the order of completion, when
    [fuel] covers the weight of its first call. *)
Lemma traversal_search_returns (embed_query : string → vector) fuel pick
    sched' pick' query k :
  (ts_weight store depth
     (QueryIdsAndLinkToTagsByEmbedding (embed_query query) k) ≤ fuel)%nat →
  is_Some (traversal_search store embed_query depth fuel pick sched' pick'
             query k).
Proof.
  intros Hfuel. unfold traversal_search.
  assert (pending (cq_exit (ts_complete store depth) fuel pick
                     (ts_enter embed_query query k)) = []) as Hq.
  { apply (cq_exit_terminates _ (ts_weight store depth));
      [apply ts_complete_weight |].
    unfold ts_enter, cq_execute. cbn [pending app sum_list_with]. lia. }
  unfold quiescent. rewrite Hq. eauto.
Qed.
End TraversalReturns.

(** C5.  Every id [traversal_search] records in [visited_ids], and so the
    id of every node it returns, is reached from a row of the seeding
    query by at most [depth] tag-hops.  With [depth = 0] the one call
    issued in the scope is the seeding query, and the ids recorded are
    exactly the ids of its rows.  The search returns, in whatever order its
    calls complete, once [fuel] covers the weight of the seeding query. *)
Theorem traversal_search_within_depth {vector} (store : Store.t vector)
    (embed_query : string → vector) (depth : Z) (fuel : nat) (pick : nat → nat)
    (sched' : nat → list nat) (pick' : nat → nat) (query : string) (k : Z) :
  let seeds := ann_seeds store (embed_query query) k in
  (∀ calls visited r,
     traversal_search store embed_query depth fuel pick sched' pick' query k
     = Some (calls, visited, r) →
     (∀ node_id, node_id ∈ dict_keys visited →
        ∃ n, (Z.of_nat n ≤ depth)%Z ∧ within_hops store seeds n node_id) ∧
     ((∀ node_id, node_id ∈ dict_keys visited → decodable store node_id) →
      ∀ nodes node, r.2 = Ok nodes → node ∈ nodes →
        ∃ node_id n, Node.id node = Some node_id ∧
          (Z.of_nat n ≤ depth)%Z ∧ within_hops store seeds n node_id)) ∧
  (depth = 0%Z → (1 ≤ fuel)%nat →
   ∃ visited r,
     traversal_search store embed_query depth fuel pick sched' pick' query k
     = Some ([QueryIdsAndLinkToTagsByEmbedding (embed_query query) k], visited, r) ∧
     ∀ node_id, node_id ∈ dict_keys visited ↔ node_id ∈ seeds) ∧
  ((ts_weight store depth
      (QueryIdsAndLinkToTagsByEmbedding (embed_query query) k) ≤ fuel)%nat →
   is_Some (traversal_search store embed_query depth fuel pick sched' pick'
              query k)).
Proof.
  intros seeds. split; [| split; [| apply traversal_search_returns]].
  - intros calls visited r. unfold traversal_search.
    set (st := cq_exit _ fuel pick _).
    assert (ts_inv store depth (embed_query query) k st) as [Hvis _].
    { apply ts_inv_reachable. apply cq_exit_steps. }
    destruct (quiescent st); [| done]. intros [= <- <- <-].
    assert (∀ node_id, node_id ∈ dict_keys (visited_ids (shared st)) →
              ∃ n, (Z.of_nat n ≤ depth)%Z ∧ within_hops store seeds n node_id)
      as Hkeys.
    { intros x [d Hd]%dict_keys_get.
      destruct (Hvis _ _ Hd) as (n & -> & Hle & Hw). eauto. }
    split; [done |]. intros Hdec nodes node Hok Hnode.
    destruct (_nodes_with_ids_Ok_ids store sched' pick' _ nodes node Hdec Hok Hnode)
      as (x & Hx & Hid).
    destruct (Hkeys x Hx) as (n & Hle & Hw). eauto.
  - intros -> Hfuel. destruct fuel as [| fuel]; [lia |].
    unfold traversal_search, ts_enter, cq_execute. cbn [cq_exit pending app].
    rewrite cq_progress_single. cbn [ts_complete]. unfold visit_nodes.
    cbn [shared visited_ids visited_tags].
    destruct (visit_node_fold_0
                (query_ids_and_link_to_tags_by_embedding store (embed_query query) k)
                [] []) as (vi & -> & _ & Hkeys); [by intros x d [=] |].
    simpl. rewrite cq_exit_idle by done. simpl.
    eexists _, _. split; [done |].
    intros x. rewrite Hkeys. unfold dict_keys. simpl. rewrite elem_of_nil.
    unfold seeds, ann_seeds. tauto.
Qed.

(** ** [_get_adjacent] *)

Section GetAdjacentFacts.
Context {vector : Type}.
Variable store : Store.t vector.
Variable query_embedding : vector.
Variable k_per_tag : option Z.

Lemma add_sources_limit rows (s : ga_state vector) :
  Forall (ga_limit_is (or_default k_per_tag 10))
    (add_sources query_embedding k_per_tag rows s).2.
Proof.
  unfold add_sources.
  assert (∀ acc : list (string * string) * list (ga_call vector),
            Forall (ga_limit_is (or_default k_per_tag 10)) acc.2 →
            Forall (ga_limit_is (or_default k_per_tag 10))
              (foldl (λ acc row,
                        foldl (add_source_tag query_embedding k_per_tag) acc
                          (or_empty row)) acc rows).2) as Hfold.
  { induction rows as [| row rows IH]; intros acc Hacc; [done |].
    cbn [foldl]. apply IH. generalize (or_empty row). intros tags.
    revert acc Hacc. induction tags as [| t tags IHt]; intros acc Hacc; [done |].
    cbn [foldl]. apply IHt. destruct acc as [vt calls].
    unfold add_source_tag. case_decide; [done |].
    simpl. apply Forall_app. split; [done |]. by repeat constructor. }
  specialize (Hfold (ga_visited_tags s, []) (Forall_nil_2 _)).
  by destruct (foldl _ _ rows).
Qed.

(** Every query [_get_adjacent] issues on the targets table binds the
    limit [k_per_tag or 10]. *)
Lemma _get_adjacent_limit fuel pick source_ids visited_tags calls vt edges :
  _get_adjacent store fuel pick source_ids visited_tags query_embedding k_per_tag
  = Some (calls, vt, edges) →
  Forall (ga_limit_is (or_default k_per_tag 10)) calls.
Proof.
  unfold _get_adjacent.
  set (st := cq_exit _ fuel pick _).
  assert (Forall (ga_limit_is (or_default k_per_tag 10)) (executed st)) as Hex.
  { subst st.
    apply (cq_exit_preserves _
             (λ st, Forall (ga_limit_is (or_default k_per_tag 10)) (executed st))).
    - intros i s s' Hc Hs. unfold cq_complete in Hc.
      destruct (pending s !! i) as [q |]; [| done].
      assert (Forall (ga_limit_is (or_default k_per_tag 10))
                (ga_complete store query_embedding k_per_tag q (shared s)).2)
        as Hnew.
      { destruct q; simpl; [apply add_sources_limit | constructor]. }
      destruct (ga_complete _ _ _ q (shared s)) as [s1 new].
      injection Hc as <-. simpl. by apply Forall_app.
    - unfold ga_enter.
      assert (∀ st0 : scope (ga_state vector) (ga_call vector),
                Forall (ga_limit_is (or_default k_per_tag 10)) (executed st0) →
                Forall (ga_limit_is (or_default k_per_tag 10))
                  (executed (foldl (λ st source_id,
                                      cq_execute (QuerySourceTagsById source_id) st)
                               st0 source_ids))) as Hent.
      { induction source_ids as [| x xs IH]; intros st0 H0; [done |].
        cbn [foldl]. apply IH. simpl. apply Forall_app. split; [done |].
        by repeat constructor. }
      apply Hent. constructor. }
  destruct (quiescent st); [| done]. by intros [= <- <- <-].
Qed.
End GetAdjacentFacts.

Section GetAdjacentReturns.
Context {vector : Type}.
Variable store : Store.t vector.
Variable query_embedding : vector.
Variable k_per_tag : option Z.

(** [add_sources] schedules at most one query for each tag of its rows,
    each on the targets table. *)
Lemma add_sources_count rows (s : ga_state vector) :
  (length (add_sources query_embedding k_per_tag rows s).2
   ≤ sum_list_with (λ row, length (or_empty row)) rows)%nat ∧
  Forall (λ q, ga_weight store q = 1%nat)
    (add_sources query_embedding k_per_tag rows s).2.
Proof.
  unfold add_sources.
  assert (∀ acc : list (string * string) * list (ga_call vector),
            Forall (λ q, ga_weight store q = 1%nat) acc.2 →
            let r := foldl (λ acc row,
                              foldl (add_source_tag query_embedding k_per_tag) acc
                                (or_empty row)) acc rows in
            (length r.2
             ≤ length acc.2 + sum_list_with (λ row, length (or_empty row)) rows)%nat ∧
            Forall (λ q, ga_weight store q = 1%nat) r.2) as Hfold.
  { induction rows as [| row rows IH]; intros acc Hacc; simpl; [split; [lia | done] |].
    assert (let r := foldl (add_source_tag query_embedding k_per_tag) acc
                       (or_empty row) in
            (length r.2 ≤ length acc.2 + length (or_empty row))%nat ∧
            Forall (λ q, ga_weight store q = 1%nat) r.2) as [Hlen Hall].
    { generalize (or_empty row). intros tags. revert acc Hacc.
      induction tags as [| t tags IHt]; intros acc Hacc; simpl;
        [split; [lia | done] |].
      destruct acc as [vt calls]. unfold add_source_tag at 2 4.
      case_decide.
      - destruct (IHt (vt, calls) Hacc) as [Hl Ha]. simpl in *. split; [lia | done].
      - destruct (IHt (set_add t vt,
                       (calls ++ [QueryTargetsEmbeddingsByKindAndTagAndEmbedding
                                    t.1 t.2 query_embedding
                                    (or_default k_per_tag 10)])%list))
          as [Hl Ha].
        { simpl. apply Forall_app. split; [done |]. by repeat constructor. }
        simpl in *. rewrite length_app in Hl. simpl in Hl. split; [lia | done]. }
    destruct (IH _ Hall) as [Hl Ha]. cbv zeta in Hl, Ha. split; [lia | done]. }
  specialize (Hfold (ga_visited_tags s, []) (Forall_nil_2 _)).
  cbv zeta in Hfold. destruct (foldl _ _ rows) as [vt calls]. simpl in *.
  destruct Hfold. split; [lia | done].
Qed.

Lemma ga_complete_weight q (s : ga_state vector) :
  (sum_list_with (ga_weight store)
     (ga_complete store query_embedding k_per_tag q s).2
   < ga_weight store q)%nat.
Proof.
  destruct q as [source_id | kind tag q' limit]; simpl; [| lia].
  destruct (add_sources_count (query_source_tags_by_id store source_id) s)
    as [Hlen Hall].
  rewrite (sum_list_with_const _ 1%nat _ Hall).
  unfold query_source_tags_by_id, link_to_tags_of in *.
  destruct (Store.passages store !! source_id); simpl in *; lia.
Qed.

Lemma pending_ga_enter source_ids visited_tags :
  pending (ga_enter (vector:=vector) source_ids visited_tags)
  = map QuerySourceTagsById source_ids.
Proof.
  unfold ga_enter.
  assert (∀ st : scope (ga_state vector) (ga_call vector),
            pending (foldl (λ st source_id,
                              cq_execute (QuerySourceTagsById source_id) st)
                       st source_ids)
            = (pending st ++ map QuerySourceTagsById source_ids)%list) as Hfold.
  { induction source_ids as [| x xs IH]; intros st; simpl.
    - by rewrite app_nil_r.
    - rewrite IH. simpl. by rewrite <- app_assoc. }
  by rewrite Hfold.
Qed.

(** [_get_adjacent] returns, whatever the order of completion, when
    [fuel] covers one completion for each source and one for each of its
    tags. *)
Lemma _get_adjacent_returns fuel pick source_ids visited_tags :
  (sum_list_with (λ source_id, 1 + length (link_to_tags_of store source_id))
     source_ids ≤ fuel)%nat →
  is_Some (_get_adjacent store fuel pick source_ids visited_tags
             query_embedding k_per_tag).
Proof.
  intros Hfuel. unfold _get_adjacent.
  assert (pending (cq_exit (ga_complete store query_embedding k_per_tag) fuel pick
                     (ga_enter source_ids visited_tags)) = []) as Hq.
  { apply (cq_exit_terminates _ (ga_weight store)); [apply ga_complete_weight |].
    rewrite pending_ga_enter.
    assert (sum_list_with (ga_weight store)
              (map (QuerySourceTagsById (vector:=vector)) source_ids)
            = sum_list_with
                (λ source_id, 1 + length (link_to_tags_of store source_id))%nat
                source_ids) as ->; [| done].
    clear. induction source_ids as [| x xs IH]; simpl; [done | by rewrite IH]. }
  unfold quiescent. rewrite Hq. eauto.
Qed.
End GetAdjacentReturns.

(** ** [mmr_traversal_search] *)

Section MmrFacts.
Context {vector float helper : Type} `{!MmrHelper vector float helper}.
Variable store : Store.t vector.
Variable depth : Z.
Variable adjacent_k : Z.
Variable query_embedding : vector.
Variable roots : list string.

(** The loop over [adjacents] records depths of at least [1] only. *)
Lemma add_adjacent_depths next_depth (adjacents : list (Edge.t vector)) :
  ∀ new_candidates depths,
  (1 ≤ next_depth)%Z →
  (∀ node_id d, dict_get node_id depths = Some d →
     (0 ≤ d)%Z ∧ (d = 0%Z → node_id ∈ roots)) →
  ∀ node_id d,
    dict_get node_id
      (foldl (add_adjacent depth next_depth) (new_candidates, depths) adjacents).2
    = Some d →
    (0 ≤ d)%Z ∧ (d = 0%Z → node_id ∈ roots).
Proof.
  induction adjacents as [| adj adjacents IH]; intros nc depths Hnext Hok;
    [done |].
  cbn [foldl]. unfold add_adjacent at 2.
  destruct (next_depth <? _)%Z; apply IH; try done.
  intros x d. destruct (decide (Edge.target_content_id adj = x)) as [-> | Hne].
  - rewrite dict_get_set_eq. intros [= <-]. split; lia.
  - rewrite dict_get_set_ne by done. apply Hok.
Qed.

Lemma mmr_loop_inv fuel sched n : ∀ i (s s' : mmr_state vector helper) r,
  mmr_loop store depth adjacent_k query_embedding fuel sched n i s = Some (s', r) →
  mmr_inv depth adjacent_k roots s → mmr_inv depth adjacent_k roots s'.
Proof.
  induction n as [| n IH]; intros i s s' r; simpl.
  - by intros [= <- <-].
  - destruct (pop_best (mmr_helper s)) as [[selected_id |] helper'].
    2:{ intros [= <- <-]. done. }
    destruct (dict_get selected_id (mmr_depths s)) as [selected_depth |] eqn:Hsel.
    2:{ intros [= <- <-]. done. }
    intros Hloop (Hdepths & Hexp & Hcalls).
    destruct (Hdepths _ _ Hsel) as [Hge Hroot].
    destruct (selected_depth + 1 <? depth)%Z eqn:Hgate.
    + destruct (_get_adjacent _ _ _ _ _ _ _) as [[[calls vt] adjacents] |] eqn:Hadj;
        [| done].
      pose proof (add_adjacent_depths (selected_depth + 1) adjacents []
                    (mmr_depths s) ltac:(lia) Hdepths) as Hfold.
      destruct (foldl _ _ adjacents) as [nc depths'].
      apply IH in Hloop; [done |].
      split; [exact Hfold |]. split; simpl.
      * intros x d [Hx | [= -> ->]%list_elem_of_singleton]%elem_of_app; [auto |].
        apply Z.ltb_lt in Hgate. done.
      * apply Forall_app. split; [done |].
        exact (_get_adjacent_limit store query_embedding (Some adjacent_k)
                 _ _ _ _ _ _ _ Hadj).
    + apply IH in Hloop; [done |]. by split.
Qed.

(** The loop comes to its end when [fuel] covers the completions of one
    expansion. *)
Lemma mmr_loop_returns fuel sched n : ∀ i (s : mmr_state vector helper),
  (1 + max_tags store ≤ fuel)%nat →
  is_Some (mmr_loop store depth adjacent_k query_embedding fuel sched n i s).
Proof.
  induction n as [| n IH]; intros i s Hfuel; simpl; [eauto |].
  destruct (pop_best (mmr_helper s)) as [[selected_id |] helper']; [| eauto].
  destruct (dict_get selected_id (mmr_depths s)) as [selected_depth |]; [| eauto].
  destruct (selected_depth + 1 <? depth)%Z; [| by apply IH].
  destruct (_get_adjacent_returns store query_embedding (Some adjacent_k) fuel
              (sched i) [selected_id] (mmr_visited_tags s)) as [[[calls vt] adj] ->].
  { simpl. pose proof (length_link_to_tags_of store selected_id). lia. }
  destruct (foldl _ _ adj) as [nc depths']. by apply IH.
Qed.

Lemma depths_of_candidates (ids : list string) : ∀ depths node_id d,
  dict_get node_id (foldl (λ d candidate_id, dict_set candidate_id 0%Z d) depths ids)
  = Some d →
  dict_get node_id depths = Some d ∨ (d = 0%Z ∧ node_id ∈ ids).
Proof.
  induction ids as [| x ids IH]; intros depths node_id d; simpl; [auto |].
  intros [Hget | [-> Hin]]%IH.
  - destruct (decide (x = node_id)) as [-> | Hne].
    + rewrite dict_get_set_eq in Hget. injection Hget as <-.
      right. split; [done | left].
    + rewrite dict_get_set_ne in Hget by done. auto.
  - right. split; [done | by right].
Qed.
End MmrFacts.

Section MmrClaims.
Context {vector float helper : Type} `{!MmrHelper vector float helper}.
Variable store : Store.t vector.
Variable embed_query : string → vector.

Lemma mmr_traversal_search_inv fuel sched sched' pick' query k depth fetch_k
    adjacent_k (lambda_mult score_threshold : float)
    (s : mmr_state vector helper) r :
  mmr_traversal_search store embed_query fuel sched sched' pick' query k depth
    fetch_k adjacent_k lambda_mult score_threshold = Some (s, r) →
  mmr_inv depth adjacent_k
    (candidate_ids
       (mmr_helper (mmr_enter (helper:=helper) store embed_query query k fetch_k
                      lambda_mult score_threshold))) s.
Proof.
  unfold mmr_traversal_search.
  destruct (mmr_loop _ _ _ _ _ _ _ _ _) as [[s0 r0] |] eqn:Hloop; [| done].
  intros Heq. assert (s0 = s) as -> by (destruct r0; by injection Heq).
  eapply mmr_loop_inv; [exact Hloop |].
  unfold mmr_inv, mmr_enter. simpl. split; [| split; [| constructor]].
  - intros x d [[=] | [-> Hin]]%depths_of_candidates. split; [lia | done].
  - by intros x d ?%elem_of_nil.
Qed.

(** [mmr_traversal_search] comes to its end, whatever the helper and the
    order of completion. *)
Lemma mmr_traversal_search_returns fuel sched sched' pick' query k depth fetch_k
    adjacent_k (lambda_mult score_threshold : float) :
  (1 + max_tags store ≤ fuel)%nat →
  is_Some (mmr_traversal_search (helper:=helper) store embed_query fuel sched
             sched' pick' query k depth fetch_k adjacent_k lambda_mult
             score_threshold).
Proof.
  intros Hfuel. unfold mmr_traversal_search.
  destruct (mmr_loop_returns store depth adjacent_k (embed_query query) fuel sched
              (Z.to_nat k) 0
              (mmr_enter store embed_query query k fetch_k lambda_mult
                 score_threshold) Hfuel) as [[s [[] | e]] ->]; eauto.
Qed.

(** C6.  [_get_adjacent] is called for a selected id only when the depth
    recorded for it, plus one, is below [depth].  With [depth = 2] the
    ids expanded are recorded at depth [0] and are among the candidates
    the loop starts with; an id that is not among them, first met
    through an edge, is never expanded, whether or not it is selected.
    The search returns once [fuel] covers the completions of one
    expansion. *)
Theorem mmr_traversal_search_depth_gate fuel sched sched' pick' query k depth
    fetch_k adjacent_k (lambda_mult score_threshold : float) :
  ((1 + max_tags store ≤ fuel)%nat →
   is_Some (mmr_traversal_search (helper:=helper) store embed_query fuel sched
              sched' pick' query k depth fetch_k adjacent_k lambda_mult
              score_threshold)) ∧
  ∀ (s : mmr_state vector helper) r,
    mmr_traversal_search store embed_query fuel sched sched' pick' query k depth
      fetch_k adjacent_k lambda_mult score_threshold = Some (s, r) →
    let roots :=
      candidate_ids
        (mmr_helper (mmr_enter (helper:=helper) store embed_query query k fetch_k
                       lambda_mult score_threshold)) in
    (∀ node_id d, (node_id, d) ∈ expanded s → (d + 1 < depth)%Z) ∧
    (depth = 2%Z →
     (∀ node_id d, (node_id, d) ∈ expanded s → d = 0%Z ∧ node_id ∈ roots) ∧
     (∀ node_id, node_id ∉ roots → ∀ d, (node_id, d) ∉ expanded s)).
Proof.
  split; [apply mmr_traversal_search_returns |].
  intros s r Hs roots.
  destruct (mmr_traversal_search_inv _ _ _ _ _ _ _ _ _ _ _ _ _ Hs)
    as (_ & Hexp & _).
  fold roots in Hexp. split.
  - intros x d Hx. by destruct (Hexp x d Hx).
  - intros ->.
    assert (∀ node_id d, (node_id, d) ∈ expanded s → d = 0%Z ∧ node_id ∈ roots)
      as Hzero.
    { intros x d Hx. destruct (Hexp x d Hx) as (Hlt & Hge & Hroot).
      assert (d = 0%Z) as -> by lia. auto. }
    split; [done |]. intros x Hx d Hin. by destruct (Hzero x d Hin).
Qed.

End MmrClaims.

(** ** Construction *)


(** ** The write path over an object store *)

(** [_serialize_metadata] leaves every object there was as it was: the
    dict it changes is the copy it made. *)
Lemma heap_serialize_metadata md (h : gmap nat Heap.obj) :
  h ⊆ (Heap._serialize_metadata md h).1 ∧
  ∀ kvs, h !! md = Some (Heap.ODict kvs) →
    (Heap._serialize_metadata md h).2 = _serialize_metadata (PDict kvs).
Proof.
  unfold Heap._serialize_metadata, _serialize_metadata.
  destruct (h !! md) as [[| kvs |] |] eqn:Hmd; try (split; [done | by intros ? [=]]).
  destruct (dict_get "links" kvs) as [v |] eqn:Hlinks.
  2:{ split; [done |]. intros ? [= <-]. by rewrite Hlinks. }
  destruct v; try (split; [done |]; intros ? [= <-]; by rewrite Hlinks).
  unfold Heap.alloc. cbv zeta.
  assert (h !! fresh (dom h) = None) as Hfresh
    by apply not_elem_of_dom, is_fresh.
  rewrite alter_insert_eq, lookup_insert_eq. simpl. split.
  - by apply insert_subseteq.
  - intros ? [= <-]. by rewrite Hlinks.
Qed.

Section HeapWritePath.
Context {vector : Type}.
Variable token_hex : nat → string.
Variable embed_texts : list string → list vector.

Lemma heap_add_nodes_loop_subseteq
    (tuples : list (string * (string * (vector * (nat * nat))))) :
  ∀ (h : gmap nat Heap.obj) cq, h ⊆ (Heap.add_nodes_loop tuples h cq).1.1.
Proof.
  induction tuples as [| [node_id [text [emb [md lk]]]] tuples IH];
    intros h cq; simpl; [done |].
  destruct (h !! lk) as [[| | ls] |]; try done.
  destruct (tag_sets ls) as [to from].
  destruct (heap_serialize_metadata md h) as [Hsub _].
  destruct (Heap._serialize_metadata md h) as [h1 [mb | e]]; simpl in Hsub;
    [| done].
  destruct (_serialize_links ls) as [lb | e]; [| done].
  etrans; [exact Hsub | apply IH].
Qed.

Lemma heap_add_nodes_subseteq nodes (h : gmap nat Heap.obj) :
  h ⊆ (Heap.add_nodes token_hex embed_texts nodes h).1.1.
Proof.
  unfold Heap.add_nodes. destruct (Heap.read_nodes _ _ _ _) as [fields |]; [| done].
  cbv zeta.
  pose proof (heap_add_nodes_loop_subseteq
    (zip fields.*1
       (zip (map (λ f, f.2.1) fields)
          (zip (embed_texts (map (λ f, f.2.1) fields))
             (zip (map (λ f, f.2.2.1) fields) (map (λ f, f.2.2.2) fields)))))
    h []) as Hsub.
  by destruct (Heap.add_nodes_loop _ _ _) as [[h' cq] [[] | e]].
Qed.

Lemma heap_node_at_weaken (h h' : gmap nat Heap.obj) l node :
  h ⊆ h' → Heap.node_at h l = Some node → Heap.node_at h' l = Some node.
Proof.
  intros Hsub. unfold Heap.node_at.
  destruct (h !! l) as [[text id md lk | |] |] eqn:Hl; try done.
  destruct (h !! md) as [[| kvs |] |] eqn:Hmd; try done.
  destruct (h !! lk) as [[| | ls] |] eqn:Hlk; try done.
  rewrite (lookup_weaken _ _ _ _ Hl Hsub), (lookup_weaken _ _ _ _ Hmd Hsub),
    (lookup_weaken _ _ _ _ Hlk Hsub). done.
Qed.

(** C9.  [add_nodes] leaves every object it is passed as it was: after
    the call each object of the store is what it was before, so each
    [Node] has the [id] it had ([None] where the id was generated), the
    same set of links and the same metadata dict, also when that dict
    holds a set under ["links"]. *)
Theorem add_nodes_frame nodes (h : gmap nat Heap.obj) l o :
  h !! l = Some o →
  (Heap.add_nodes token_hex embed_texts nodes h).1.1 !! l = Some o ∧
  ∀ node, Heap.node_at h l = Some node →
    Heap.node_at (Heap.add_nodes token_hex embed_texts nodes h).1.1 l = Some node.
Proof.
  intros Hl. pose proof (heap_add_nodes_subseteq nodes h) as Hsub. split.
  - by eapply lookup_weaken.
  - intros node. by apply heap_node_at_weaken.
Qed.

Lemma heap_read_nodes (h : gmap nat Heap.obj) locs nodes :
  Forall2 (λ l node, Heap.node_at h l = Some node) locs nodes →
  ∀ draws, ∃ fields,
    Heap.read_nodes token_hex h locs draws = Ok fields ∧
    fields.*1 = assign_ids token_hex nodes draws ∧
    Forall2 (fields_of h) fields.*2 nodes.
Proof.
  induction 1 as [| l node locs nodes Hl _ IH]; intros draws.
  - exists []. by repeat split; try constructor.
  - unfold Heap.node_at in Hl. simpl.
    destruct (h !! l) as [[text id md lk | |] |]; try done.
    destruct (h !! md) as [[| kvs |] |] eqn:Hmd; try done.
    destruct (h !! lk) as [[| | ls] |] eqn:Hlk; try done.
    injection Hl as <-. simpl.
    assert (fields_of h (text, (md, lk)) (Node.mk text id (PDict kvs) ls)) as Hf.
    { unfold fields_of. simpl. eauto. }
    destruct id as [[| c s] |].
    + destruct (IH (S draws)) as (fields & -> & Hids & Hfs). simpl.
      eexists. split; [done |]. rewrite !fmap_cons, Hids. split; [done |].
      by constructor.
    + destruct (IH draws) as (fields & -> & Hids & Hfs). simpl.
      eexists. split; [done |]. rewrite !fmap_cons, Hids. split; [done |].
      by constructor.
    + destruct (IH (S draws)) as (fields & -> & Hids & Hfs). simpl.
      eexists. split; [done |]. rewrite !fmap_cons, Hids. split; [done |].
      by constructor.
Qed.

Lemma heap_tuples (h : gmap nat Heap.obj) (fields : list (string * (nat * nat))) nodes :
  Forall2 (fields_of h) fields nodes →
  ∀ (ids : list string) (embs : list vector),
    Forall2 (tuple_of h)
      (zip ids (zip fields.*1 (zip embs (zip (map (λ f, f.2.1) fields)
                                          (map (λ f, f.2.2) fields)))))
      (zip5 ids (map Node.text nodes) embs (map Node.metadata nodes)
         (map Node.links nodes)).
Proof.
  unfold zip5.
  induction 1 as [| f node fields nodes Hf _ IH]; intros ids embs.
  - destruct ids; constructor.
  - destruct ids as [| x ids]; [constructor |].
    destruct embs as [| e embs]; [constructor |]. simpl.
    constructor; [| apply IH].
    destruct Hf as (Htext & Hmd & Hlk). unfold tuple_of. simpl. done.
Qed.

Lemma heap_add_nodes_loop_refines (h0 : gmap nat Heap.obj)
    (tuples : list (string * (string * (vector * (nat * nat)))))
    (tuples' : list (string * (string * (vector * (pyval * list Link.t))))) :
  Forall2 (tuple_of h0) tuples tuples' →
  ∀ h cq, h0 ⊆ h →
    let r := Heap.add_nodes_loop tuples h cq in
    (r.1.2, r.2) = add_nodes_loop tuples' cq.
Proof.
  induction 1 as [| [x [t [e [md lk]]]] [x' [t' [e' [md' ls]]]] tuples tuples'
                    Ht _ IH]; intros h cq Hsub; [done |].
  destruct Ht as (Hx & Htext & He & (kvs & Hmd & Hkvs) & Hlk).
  simpl in Hx, Htext, He, Hmd, Hkvs, Hlk. subst x' t' e' md'.
  cbn [Heap.add_nodes_loop add_nodes_loop]. unfold node_statements.
  rewrite (lookup_weaken _ _ _ _ Hlk Hsub).
  destruct (tag_sets ls) as [to from].
  destruct (heap_serialize_metadata md h) as [Hsub1 Hres].
  specialize (Hres kvs (lookup_weaken _ _ _ _ Hmd Hsub)).
  destruct (Heap._serialize_metadata md h) as [h1 r1].
  cbn [fst snd] in Hsub1, Hres. subst r1. rewrite _serialize_links_eq.
  destruct (_serialize_metadata (PDict kvs)) as [mb | err]; simpl; [| done].
  apply IH. by etrans.
Qed.

(** Over a store in which the references denote the nodes [nodes], the
    call enqueues and returns what [add_nodes] does on [nodes]. *)
Lemma heap_add_nodes_refines (h : gmap nat Heap.obj) locs nodes :
  Forall2 (λ l node, Heap.node_at h l = Some node) locs nodes →
  let r := Heap.add_nodes token_hex embed_texts locs h in
  (r.1.2, r.2) = add_nodes token_hex embed_texts nodes.
Proof.
  intros Hnodes. unfold Heap.add_nodes, add_nodes.
  destruct (heap_read_nodes h locs nodes Hnodes 0) as (fields & -> & Hids & Hfs).
  cbv zeta.
  assert (map (λ f : string * (string * (nat * nat)), f.2.1) fields
          = map Node.text nodes) as Htexts.
  { clear Hids. revert Hfs. generalize nodes. clear.
    induction fields as [| [x [t [md lk]]] fields IH]; intros nodes Hfs;
      inversion Hfs as [| ? node ? nodes' Hf Hrest]; subst; [done |].
    simpl. destruct Hf as (Ht & _). simpl in Ht. f_equal; [done | by apply IH]. }
  rewrite Htexts, Hids.
  pose proof (heap_tuples h fields.*2 nodes Hfs (assign_ids token_hex nodes 0)
                (embed_texts (map Node.text nodes))) as Htup.
  assert ((fields.*2).*1 = map Node.text nodes) as Ht1.
  { rewrite <- Htexts. rewrite <- list_fmap_compose. done. }
  rewrite Ht1 in Htup.
  assert (map (λ f : string * (nat * nat), f.2.1) fields.*2
          = map (λ f : string * (string * (nat * nat)), f.2.2.1) fields) as Ht2.
  { by rewrite <- list_fmap_compose. }
  assert (map (λ f : string * (nat * nat), f.2.2) fields.*2
          = map (λ f : string * (string * (nat * nat)), f.2.2.2) fields) as Ht3.
  { by rewrite <- list_fmap_compose. }
  rewrite Ht2, Ht3 in Htup.
  pose proof (heap_add_nodes_loop_refines h _ _ Htup h [] (reflexivity h)) as Hloop.
  cbv zeta in Hloop.
  destruct (Heap.add_nodes_loop _ _ _) as [[h' cq] r].
  simpl in Hloop. rewrite <- Hloop. by destruct r as [[] | e].
Qed.
End HeapWritePath.

(** ** The statements on the example data *)

Lemma add_nodes_unrecognized_direction_witness :
  ¬ recognized (Link.direction ex_link_odd) ∧
  (map erase_links_blob (add_nodes ex_token_hex ex_embed_texts [ex_node_odd]).1
   = map erase_links_blob
       (add_nodes ex_token_hex ex_embed_texts
          (map (without_link ex_link_odd) [ex_node_odd])).1 ∧
   (add_nodes ex_token_hex ex_embed_texts [ex_node_odd]).2
   = (add_nodes ex_token_hex ex_embed_texts
        (map (without_link ex_link_odd) [ex_node_odd])).2) ∧
  ∀ cq ids i node,
    length (ex_embed_texts (map Node.text [ex_node_odd])) = length [ex_node_odd] →
    add_nodes ex_token_hex ex_embed_texts [ex_node_odd] = (cq, Ok ids) →
    [ex_node_odd] !! i = Some node → ex_link_odd ∈ Node.links node →
    ∃ node_id emb link_to_tags mb lb links',
      filter (λ s, is_insert_passage s) cq !! i
      = Some (InsertPassage node_id (Node.text node) emb link_to_tags mb lb) ∧
      _deserialize_links (Some lb) = Ok links' ∧ ex_link_odd ∈ links'.
Proof.
  assert (¬ recognized (Link.direction ex_link_odd)) as Hodd.
  { unfold recognized. simpl. intros [? | [? | ?]]; discriminate. }
  split; [exact Hodd |].
  exact (add_nodes_unrecognized_direction ex_token_hex ex_embed_texts
           [ex_node_odd] ex_link_odd Hodd).
Defined.

(** Scenario S2: with [depth = 1] the traversal seeded at [a] reaches
    [b]. *)
Example traversal_search_depth_1 :
  traversal_search ex_store ex_embed_query 1 10 id (λ n, [n]) id "query" 1
  = Some ([QueryIdsAndLinkToTagsByEmbedding 5 1;
           QueryTargetsByKindAndValue "hyperlink" "T" 0;
           QueryIdsAndLinkToTagsById "b" 0],
          [("a", 0%Z); ("b", 1%Z)],
          ([QueryById "a"; QueryById "b"],
           Ok [Node.mk "alpha" (Some "a") (PDict [])
                 [Link.mk "hyperlink" "out" "T"];
               Node.mk "beta" (Some "b") (PDict [])
                 [Link.mk "hyperlink" "in" "T"]])).
Proof. vm_compute. reflexivity. Qed.

(** Scenario S3: with [depth = 0] it returns the seed alone. *)
Example traversal_search_depth_0 :
  traversal_search ex_store ex_embed_query 0 10 id (λ n, [n]) id "query" 1
  = Some ([QueryIdsAndLinkToTagsByEmbedding 5 1],
          [("a", 0%Z)],
          ([QueryById "a"],
           Ok [Node.mk "alpha" (Some "a") (PDict [])
                 [Link.mk "hyperlink" "out" "T"]])).
Proof. vm_compute. reflexivity. Qed.

Lemma traversal_search_within_depth_witness :
  let seeds := ann_seeds ex_store (ex_embed_query "query") 1 in
  (∀ calls visited r,
     traversal_search ex_store ex_embed_query 1 10 id (λ n, [n]) id "query" 1
     = Some (calls, visited, r) →
     (∀ node_id, node_id ∈ dict_keys visited →
        ∃ n, (Z.of_nat n ≤ 1)%Z ∧ within_hops ex_store seeds n node_id) ∧
     ((∀ node_id, node_id ∈ dict_keys visited → decodable ex_store node_id) →
      ∀ nodes node, r.2 = Ok nodes → node ∈ nodes →
        ∃ node_id n, Node.id node = Some node_id ∧
          (Z.of_nat n ≤ 1)%Z ∧ within_hops ex_store seeds n node_id)) ∧
  (1%Z = 0%Z → (1 ≤ 10)%nat →
   ∃ visited r,
     traversal_search ex_store ex_embed_query 1 10 id (λ n, [n]) id "query" 1
     = Some ([QueryIdsAndLinkToTagsByEmbedding (ex_embed_query "query") 1],
             visited, r) ∧
     ∀ node_id, node_id ∈ dict_keys visited ↔ node_id ∈ seeds) ∧
  ((ts_weight ex_store 1
      (QueryIdsAndLinkToTagsByEmbedding (ex_embed_query "query") 1) ≤ 10)%nat →
   is_Some (traversal_search ex_store ex_embed_query 1 10 id (λ n, [n]) id
              "query" 1)).
Proof.
  exact (traversal_search_within_depth ex_store ex_embed_query 1 10 id
           (λ n, [n]) id "query" 1).
Defined.

(** Scenario S6: [a] and [c] are the candidates the loop starts with; [b],
    met through the tag of [a], is selected and is not expanded. *)
Lemma mmr_traversal_search_depth_gate_witness :
  (1 + max_tags ex_store ≤ 10)%nat ∧
  ∃ (s : mmr_state nat fifo_helper) r,
    mmr_traversal_search ex_store ex_embed_query 10 (λ _ n, n) (λ n, [n]) id
      "query" 3 2 2 10 () () = Some (s, r) ∧
    selected_ids (mmr_helper s) = ["a"; "c"; "b"] ∧
    expanded s = [("a", 0%Z); ("c", 0%Z)] ∧
    let roots :=
      candidate_ids
        (mmr_helper (mmr_enter (helper:=fifo_helper) ex_store ex_embed_query
                       "query" 3 2 () ())) in
    (∀ node_id d, (node_id, d) ∈ expanded s → (d + 1 < 2)%Z) ∧
    (2%Z = 2%Z →
     (∀ node_id d, (node_id, d) ∈ expanded s → d = 0%Z ∧ node_id ∈ roots) ∧
     (∀ node_id, node_id ∉ roots → ∀ d, (node_id, d) ∉ expanded s)).
Proof.
  split; [vm_compute; lia |].
  eexists _, _. split; [vm_compute; reflexivity |].
  split; [reflexivity |]. split; [reflexivity |].
  eapply (mmr_traversal_search_depth_gate (helper:=fifo_helper) ex_store
            ex_embed_query 10 (λ _ n, n) (λ n, [n]) id "query" 3 2 2 10 () ()).
  vm_compute. reflexivity.
Defined.

(** With [adjacent_k = 0] the expansion is not disabled: the query on the
    targets table is issued with the limit [10], and [b] is found. *)
Example mmr_traversal_search_adjacent_k_0 :
  option_map (λ r, (adjacent_calls r.1, selected_ids (mmr_helper r.1)))
    (mmr_traversal_search (helper:=fifo_helper) ex_store ex_embed_query 10
       (λ _ n, n) (λ n, [n]) id "query" 3 2 2 0 () ())
  = Some ([QuerySourceTagsById "a";
           QueryTargetsEmbeddingsByKindAndTagAndEmbedding "hyperlink" "T" 5 10;
           QuerySourceTagsById "c"],
          ["a"; "c"; "b"]).
Proof. vm_compute. reflexivity. Qed.

(** An id without a row: the error names it, and the id asked for twice
    is fetched once. *)
Example _nodes_with_ids_missing :
  _nodes_with_ids ex_store (λ n, [n]) id ["a"; "z"; "a"]
  = ([QueryById "a"; QueryById "z"], Raise (ValueError "No node with ID 'z'")).
Proof. vm_compute. reflexivity. Qed.

(** The metadata dict of the node of [ex_heap] holds a set under
    ["links"]: the call encodes a copy, at the new reference [3], and the
    dict at [1] keeps its set. *)
Example heap_add_nodes_copy :
  let r := Heap.add_nodes ex_token_hex ex_embed_texts [0%nat] ex_heap in
  r.1.1 !! 1%nat
  = Some (Heap.ODict [("links", PSet [PStr "x"; PStr "y"]); ("page", PInt 3)]) ∧
  r.1.1 !! 3%nat
  = Some (Heap.ODict [("links", PList [PStr "x"; PStr "y"]); ("page", PInt 3)]) ∧
  r.1.1 !! 0%nat = Some (Heap.ONode "alpha" None 1 2) ∧
  r.2 = Ok ["9f86d081884c7d65"].
Proof. vm_compute. done. Qed.

Lemma add_nodes_frame_witness :
  ex_heap !! 1%nat
  = Some (Heap.ODict [("links", PSet [PStr "x"; PStr "y"]); ("page", PInt 3)]) ∧
  (Heap.add_nodes ex_token_hex ex_embed_texts [0%nat] ex_heap).1.1 !! 1%nat
  = Some (Heap.ODict [("links", PSet [PStr "x"; PStr "y"]); ("page", PInt 3)]) ∧
  ∀ node, Heap.node_at ex_heap 1 = Some node →
    Heap.node_at (Heap.add_nodes ex_token_hex ex_embed_texts [0%nat] ex_heap).1.1 1
    = Some node.
Proof.
  split; [reflexivity |].
  apply (add_nodes_frame ex_token_hex ex_embed_texts [0%nat] ex_heap 1%nat).
  reflexivity.
Defined.

(** * Further properties

    ** Serialization: which metadata can be written *)





Lemma foldl_set_add_NoDup {A} `{EqDecision A} (xs : list A) : ∀ acc,
  NoDup (acc ++ xs) → foldl (λ acc x, set_add x acc) acc xs = (acc ++ xs)%list.
Proof.
  induction xs as [| x xs IH]; intros acc Hnd; simpl.
  - by rewrite app_nil_r.
  - assert (x ∉ acc) as Hx.
    { apply NoDup_app in Hnd as (_ & Hnd & _). intros Hin.
      apply (Hnd x Hin). left. }
    unfold set_add at 2. rewrite decide_False by done.
    rewrite IH; rewrite <- app_assoc; done.
Qed.


(** ** The write path: ids, short embeddings, failure *)

Section WritePathMore.
Context {vector : Type}.
Variable token_hex : nat → string.
Variable embed_texts : list string → list vector.

Lemma assign_ids_lookup nodes : ∀ draws i node,
  nodes !! i = Some node →
  assign_ids token_hex nodes draws !! i
  = Some (if has_id node then default "" (Node.id node)
          else token_hex
                 (draws + length (filter (λ n, has_id n = false) (take i nodes)))).
Proof.
  induction nodes as [| node0 nodes IH]; intros draws i node; [done |].
  destruct i as [| i]; simpl.
  - intros [= ->]. unfold has_id.
    destruct (Node.id node) as [[| c s] |]; simpl; rewrite ?Nat.add_0_r; done.
  - intros Hi.
    change (take (S i) (node0 :: nodes)) with (node0 :: take i nodes).
    assert (Hcount : length (filter (λ n, has_id n = false) (node0 :: take i nodes))
              = ((if has_id node0 then 0 else 1)
                 + length (filter (λ n, has_id n = false) (take i nodes)))%nat).
    { destruct (has_id node0) eqn:H0.
      - rewrite filter_cons_False; [done |]. by rewrite H0.
      - rewrite filter_cons_True by done. done. }
    rewrite Hcount. unfold has_id at 2.
    destruct (Node.id node0) as [[| c s] |] eqn:Hid0;
      cbn [lookup list_lookup]; rewrite (IH _ _ _ Hi);
      destruct (has_id node); try done; do 2 f_equal; lia.
Qed.

Lemma add_nodes_Ok_ids nodes cq ids :
  add_nodes token_hex embed_texts nodes = (cq, Ok ids) →
  ids = assign_ids token_hex nodes 0.
Proof.
  unfold add_nodes. destruct (add_nodes_loop _ _) as [cq0 [[] | e]]; [| done].
  by intros [= <- <-].
Qed.

(** X3.  The ids [add_nodes] returns, one per node and in the order of
    the nodes: a node's own id when it has one, and for the j-th node
    whose id is [None] or the empty string the j-th drawn token. *)
Theorem add_nodes_ids nodes cq ids :
  add_nodes token_hex embed_texts nodes = (cq, Ok ids) →
  length ids = length nodes ∧
  ∀ i node, nodes !! i = Some node →
    ids !! i
    = Some (if has_id node then default "" (Node.id node)
            else token_hex
                   (length (filter (λ n, has_id n = false) (take i nodes)))).
Proof.
  intros ->%add_nodes_Ok_ids. split; [apply length_assign_ids |].
  intros i node Hi. by rewrite (assign_ids_lookup _ 0 _ _ Hi).
Qed.

Lemma add_nodes_loop_prefix
    (tuples : list (string * (string * (vector * (pyval * list Link.t))))) :
  ∀ cq, ∃ segs,
    (add_nodes_loop tuples cq).1 = (cq ++ concat segs)%list ∧
    Forall2 (λ t seg, tuple_statements t = Ok seg)
      (take (length segs) tuples) segs ∧
    match (add_nodes_loop tuples cq).2 with
    | Ok _ => length segs = length tuples
    | Raise e =>
        ∃ t, tuples !! length segs = Some t ∧ tuple_statements t = Raise e
    end.
Proof.
  induction tuples as [| [node_id [text [emb [metadata links]]]] tuples IH];
    intros cq.
  - exists []. simpl. by rewrite app_nil_r.
  - cbn [add_nodes_loop].
    destruct (node_statements node_id text emb metadata links) as [stmts | e]
      eqn:Hst.
    + destruct (IH (cq ++ stmts)%list) as (segs & Hcq & Hall & Hres).
      exists (stmts :: segs). split; [| split].
      * rewrite Hcq. simpl. by rewrite <- app_assoc.
      * simpl. constructor; done.
      * destruct (add_nodes_loop tuples (cq ++ stmts)).2; simpl; [by f_equal | done].
    + exists []. simpl. split; [by rewrite app_nil_r |]. split; [constructor |].
      eexists. split; [done |]. done.
Qed.


Lemma tuple_statements_Ok
    (t : string * (string * (vector * (pyval * list Link.t)))) seg :
  tuple_statements t = Ok seg →
  ∃ mb lb,
    _serialize_metadata t.2.2.2.1 = Ok mb ∧
    _serialize_links t.2.2.2.2 = Ok lb ∧
    seg = InsertPassage t.1 t.2.1 t.2.2.1 (tag_sets t.2.2.2.2).1 mb lb
          :: map (λ '(kind, value), InsertTag t.1 kind value t.2.2.1)
               (tag_sets t.2.2.2.2).2.
Proof. apply node_statements_Ok. Qed.

Lemma tuple_statements_shape
    (tuples : list (string * (string * (vector * (pyval * list Link.t))))) segs :
  Forall2 (λ t seg, tuple_statements t = Ok seg) tuples segs →
  Forall (λ seg, ∃ p node_id emb tags,
            is_insert_passage p = true ∧
            seg = p :: map (λ '(kind, value), InsertTag node_id kind value emb) tags)
    segs.
Proof.
  induction 1 as [| t seg tuples segs Ht _ IH]; constructor; [| done].
  apply tuple_statements_Ok in Ht as (mb & lb & _ & _ & ->).
  eexists _, _, _, _. split; [| done]. done.
Qed.

Lemma length_filter_insert_passage (segs : list (list (statement vector))) :
  Forall (λ seg, ∃ p node_id emb tags,
            is_insert_passage p = true ∧
            seg = p :: map (λ '(kind, value), InsertTag node_id kind value emb) tags)
    segs →
  length (filter (λ s, is_insert_passage s) (concat segs)) = length segs.
Proof.
  induction 1 as [| seg0 segs (p & node_id & emb & tags & Hp & ->) _ IH]; [done |].
  simpl. rewrite filter_cons_True by (by rewrite Hp).
  rewrite filter_app, filter_insert_passage_tags. simpl. by rewrite IH.
Qed.

(** The tuples of the second loop: the i-th holds the fields of the
    i-th node, its id and its embedding; there are as many as the shorter
    of [nodes] and [text_embeddings]. *)
Lemma add_nodes_tuple nodes i t :
  zip5 (assign_ids token_hex nodes 0) (map Node.text nodes)
    (embed_texts (map Node.text nodes)) (map Node.metadata nodes)
    (map Node.links nodes) !! i = Some t →
  ∃ node node_id emb,
    nodes !! i = Some node ∧
    assign_ids token_hex nodes 0 !! i = Some node_id ∧
    embed_texts (map Node.text nodes) !! i = Some emb ∧
    t = (node_id, (Node.text node, (emb, (Node.metadata node, Node.links node)))).
Proof.
  unfold zip5.
  intros (node_id & t1 & -> & Hid & (text & t2 & -> & Htext &
    (emb & t3 & -> & Hemb & (md & links & -> & Hmd & Hlinks)%lookup_zip_with_Some)
      %lookup_zip_with_Some)%lookup_zip_with_Some)%lookup_zip_with_Some.
  rewrite list_lookup_fmap in Htext. rewrite list_lookup_fmap in Hmd.
  rewrite list_lookup_fmap in Hlinks.
  destruct (nodes !! i) as [node |] eqn:Hi; [| done].
  simpl in *. injection Htext as <-. injection Hmd as <-. injection Hlinks as <-.
  exists node, node_id, emb. done.
Qed.

Lemma length_add_nodes_tuples nodes :
  length (zip5 (assign_ids token_hex nodes 0) (map Node.text nodes)
            (embed_texts (map Node.text nodes)) (map Node.metadata nodes)
            (map Node.links nodes))
  = (length nodes `min` length (embed_texts (map Node.text nodes)))%nat.
Proof.
  unfold zip5. rewrite !length_zip_with, length_assign_ids, !length_map. lia.
Qed.

(** X4.  When the embedding model returns fewer vectors than there are
    nodes, [zip] stops at the last vector: rows are written for the
    first nodes only, while an id is returned for every node. *)
Theorem add_nodes_short_embeddings nodes cq ids :
  add_nodes token_hex embed_texts nodes = (cq, Ok ids) →
  length ids = length nodes ∧
  length (filter (λ s, is_insert_passage s) cq)
  = (length nodes `min` length (embed_texts (map Node.text nodes)))%nat ∧
  ∀ i s, filter (λ s, is_insert_passage s) cq !! i = Some s →
    ∃ node node_id emb mb lb,
      nodes !! i = Some node ∧ ids !! i = Some node_id ∧
      embed_texts (map Node.text nodes) !! i = Some emb ∧
      s = InsertPassage node_id (Node.text node) emb
            (tag_sets (Node.links node)).1 mb lb.
Proof.
  intros Hadd. pose proof (add_nodes_Ok_ids _ _ _ Hadd) as ->.
  split; [apply length_assign_ids |].
  unfold add_nodes in Hadd.
  set (tuples := zip5 _ _ _ _ _) in Hadd.
  destruct (add_nodes_loop_prefix tuples []) as (segs & Hcq & Hall & Hres).
  destruct (add_nodes_loop tuples []) as [cq0 [[] | e]]; [| done].
  injection Hadd as <-. simpl in Hcq, Hres. subst cq0.
  rewrite Hres, firstn_all in Hall.
  pose proof (tuple_statements_shape _ _ Hall) as Hshape.
  split.
  - rewrite (length_filter_insert_passage _ Hshape), Hres.
    apply length_add_nodes_tuples.
  - intros i s Hs.
    assert (is_Some (segs !! i)) as [seg Hseg].
    { apply lookup_lt_is_Some. rewrite <- (length_filter_insert_passage _ Hshape).
      by eapply lookup_lt_Some. }
    rewrite (filter_insert_passage_concat _ Hshape _ _ Hseg) in Hs.
    destruct (Forall2_lookup_r _ _ _ _ _ Hall Hseg) as (t & Ht & Hst).
    apply add_nodes_tuple in Ht as (node & node_id & emb & Hi & Hid & Hemb & ->).
    apply tuple_statements_Ok in Hst as (mb & lb & _ & _ & ->).
    simpl in Hs. injection Hs as <-.
    exists node, node_id, emb, mb, lb. done.
Qed.

End WritePathMore.

(** ** The traversal reaches every node within the depth *)

Lemma elem_of_delete_or {A} (l : list A) : ∀ i q x,
  l !! i = Some q → x ∈ l → x = q ∨ x ∈ delete i l.
Proof.
  induction l as [| y l IH]; intros i q x Hi Hx; [done |].
  destruct i as [| i]; simpl in *.
  - injection Hi as ->. apply elem_of_cons in Hx as [-> | Hx]; auto.
  - apply elem_of_cons in Hx as [-> | Hx].
    + right. left.
    + destruct (IH _ _ _ Hi Hx) as [-> | Hin]; [by left | right; by right].
Qed.

Lemma truthy_or_empty {A} (c : option (list A)) :
  truthy c = false → or_empty c = [].
Proof. by destruct c as [[| x l] |]. Qed.

Section DepthMaps.
Context {K : Type} `{EqDecision K}.

(** A depth map is only ever lowered. *)
Lemma visited_within_dict_set (visited : list (K * Z)) depth key d key' e :
  (d <=? default depth (dict_get key visited))%Z = true →
  visited_within visited key' e →
  visited_within (dict_set key d visited) key' e.
Proof.
  intros Hle (v & Hv & Hve). apply Z.leb_le in Hle.
  destruct (decide (key = key')) as [<- | Hne].
  - exists d. rewrite dict_get_set_eq. rewrite Hv in Hle. simpl in Hle.
    split; [done | lia].
  - exists v. rewrite dict_get_set_ne by done. done.
Qed.

(** After the test [d <= visited.get(key, depth)] and the assignment it
    guards, [key] is recorded at [d] or less. *)
Lemma visited_within_test (visited : list (K * Z)) depth key d :
  (d ≤ depth)%Z →
  visited_within
    (if (d <=? default depth (dict_get key visited))%Z
     then dict_set key d visited else visited) key d.
Proof.
  intros Hd. destruct (d <=? _)%Z eqn:Hle.
  - exists d. by rewrite dict_get_set_eq.
  - apply Z.leb_gt in Hle.
    destruct (dict_get key visited) as [v |] eqn:Hv; simpl in Hle; [| lia].
    exists v. split; [done | lia].
Qed.
End DepthMaps.

Section TraversalComplete.
Context {vector : Type}.
Variable store : Store.t vector.
Variable depth : Z.

Lemma visit_tag_fold d tags : ∀ T out T' out',
  foldl (visit_tag depth d) (T, out) tags = (T', out') →
  (∀ t e, visited_within T t e → visited_within T' t e) ∧
  ((d ≤ depth)%Z → ∀ t, t ∈ tags → visited_within T' t d) ∧
  (∀ t e, dict_get t T' = Some e →
     dict_get t T = Some e ∨ (e = d ∧ t ∈ out')) ∧
  (∀ t, t ∈ out → t ∈ out').
Proof.
  induction tags as [| kv tags IH]; intros T out T' out'; simpl.
  - intros [= <- <-]. split; [done |]. split; [by intros _ t ?%elem_of_nil |].
    split; [by left | done].
  - destruct (d <=? default depth (dict_get kv T))%Z eqn:Hle.
    + intros (Hm & Ht & Hc & Ho)%IH. split; [| split; [| split]].
      * intros t e Hw. apply Hm. by eapply visited_within_dict_set.
      * intros Hd t [-> | Hin]%elem_of_cons; [| by apply Ht].
        apply Hm. exists d. by rewrite dict_get_set_eq.
      * intros t e Hget. destruct (Hc _ _ Hget) as [Hget1 | ?]; [| by right].
        destruct (decide (kv = t)) as [<- | Hne].
        -- rewrite dict_get_set_eq in Hget1. injection Hget1 as <-.
           right. split; [done |]. apply Ho, elem_of_set_add. by left.
        -- rewrite dict_get_set_ne in Hget1 by done. by left.
      * intros t Hin. apply Ho, elem_of_set_add. by right.
    + intros (Hm & Ht & Hc & Ho)%IH. split; [done |]. split; [| done].
      intros Hd t [-> | Hin]%elem_of_cons; [| by apply Ht].
      apply Hm. pose proof (visited_within_test T depth kv d Hd) as Hw.
      by rewrite Hle in Hw.
Qed.

Lemma visit_node_fold_complete d
    (rows : list (string * option (list (string * string)))) :
  ∀ V T out V' T' out',
  foldl (visit_node depth d) (V, T, out) rows = (V', T', out') →
  (∀ row, row ∈ rows → or_empty row.2 = link_to_tags_of store row.1) →
  (∀ x e, visited_within V x e → visited_within V' x e) ∧
  (∀ t e, visited_within T t e → visited_within T' t e) ∧
  ((d ≤ depth)%Z → ∀ row, row ∈ rows → visited_within V' row.1 d) ∧
  (ts_tags_ok store depth (TsState V T) →
   ts_tags_ok store depth (TsState V' T')) ∧
  (∀ t e, dict_get t T' = Some e →
     dict_get t T = Some e ∨ (e = d ∧ t ∈ out')) ∧
  (∀ t, t ∈ out → t ∈ out').
Proof.
  induction rows as [| [x tags] rows IH]; intros V T out V' T' out'.
  - simpl. intros [= <- <- <-] _. repeat split; try done.
    + by intros _ row ?%elem_of_nil.
    + by left.
  - cbn [foldl]. intros Hfold Hrows.
    assert (Hx : or_empty tags = link_to_tags_of store x).
    { apply (Hrows (x, tags)). left. }
    assert (Hrows' : ∀ row, row ∈ rows →
              or_empty row.2 = link_to_tags_of store row.1).
    { intros row Hin. apply Hrows. by right. }
    unfold visit_node at 2 in Hfold. cbn [fst snd] in Hfold.
    destruct (d <=? default depth (dict_get x V))%Z eqn:Hle.
    + destruct ((d <? depth)%Z && truthy tags) eqn:Hgo.
      * destruct (foldl (visit_tag depth d) (T, out) (or_empty tags))
          as [T1 out1] eqn:Htags.
        apply visit_tag_fold in Htags as (Hm1 & Ht1 & Hc1 & Ho1).
        apply IH in Hfold as (HmV & HmT & Ha & Hb & Hc & Ho); [| done].
        apply andb_true_iff in Hgo as [Hlt%Z.ltb_lt _].
        split; [| split; [| split; [| split; [| split]]]].
        -- intros y e Hw. apply HmV. by eapply visited_within_dict_set.
        -- intros t e Hw. by apply HmT, Hm1.
        -- intros Hd row [-> | Hin]%elem_of_cons; [| by apply Ha].
           apply HmV. exists d. by rewrite dict_get_set_eq.
        -- intros Hok. apply Hb. intros y v Hy Hv t Ht. cbn [visited_ids visited_tags] in *.
           destruct (decide (x = y)) as [<- | Hne].
           ++ rewrite dict_get_set_eq in Hy. injection Hy as <-.
              apply Ht1; [lia |]. by rewrite Hx.
           ++ rewrite dict_get_set_ne in Hy by done.
              apply Hm1. by apply (Hok y).
        -- intros t e Hget. destruct (Hc _ _ Hget) as [Hget1 | ?]; [| by right].
           destruct (Hc1 _ _ Hget1) as [? | [-> Hin]]; [by left |].
           right. split; [done |]. by apply Ho.
        -- intros t Hin. by apply Ho, Ho1.
      * apply IH in Hfold as (HmV & HmT & Ha & Hb & Hc & Ho); [| done].
        split; [| split; [| split; [| split; [| split]]]]; try done.
        -- intros y e Hw. apply HmV. by eapply visited_within_dict_set.
        -- intros Hd row [-> | Hin]%elem_of_cons; [| by apply Ha].
           apply HmV. exists d. by rewrite dict_get_set_eq.
        -- intros Hok. apply Hb. intros y v Hy Hv t Ht. cbn [visited_ids visited_tags] in *.
           destruct (decide (x = y)) as [<- | Hne].
           ++ rewrite dict_get_set_eq in Hy. injection Hy as <-.
              apply andb_false_iff in Hgo as [Hge%Z.ltb_ge | Hno]; [lia |].
              rewrite <- Hx, (truthy_or_empty _ Hno) in Ht.
              by apply elem_of_nil in Ht.
           ++ rewrite dict_get_set_ne in Hy by done. by apply (Hok y).
    + apply IH in Hfold as (HmV & HmT & Ha & Hb & Hc & Ho); [| done].
      split; [| split; [| split; [| split; [| split]]]]; try done.
      intros Hd row [-> | Hin]%elem_of_cons; [| by apply Ha].
      apply HmV. pose proof (visited_within_test V depth x d Hd) as Hw.
      by rewrite Hle in Hw.
Qed.

Lemma visit_nodes_complete d rows (s s' : ts_state) (new : list (ts_call vector)) :
  visit_nodes depth d rows s = (s', new) →
  (∀ row, row ∈ rows → or_empty row.2 = link_to_tags_of store row.1) →
  (∀ x e, visited_within (visited_ids s) x e →
          visited_within (visited_ids s') x e) ∧
  (∀ t e, visited_within (visited_tags s) t e →
          visited_within (visited_tags s') t e) ∧
  ((d ≤ depth)%Z → ∀ row, row ∈ rows → visited_within (visited_ids s') row.1 d) ∧
  (ts_tags_ok store depth s → ts_tags_ok store depth s') ∧
  (∀ t e, dict_get t (visited_tags s') = Some e →
     dict_get t (visited_tags s) = Some e ∨
     (e = d ∧ QueryTargetsByKindAndValue t.1 t.2 d ∈ new)).
Proof.
  unfold visit_nodes.
  destruct (foldl (visit_node depth d) (visited_ids s, visited_tags s, []) rows)
    as [[V' T'] out'] eqn:Hfold.
  intros [= <- <-] Hrows.
  apply visit_node_fold_complete in Hfold as (HmV & HmT & Ha & Hb & Hc & _);
    [| done].
  cbn [visited_ids visited_tags]. destruct s as [V T].
  split; [done |]. split; [done |]. split; [done |]. split; [done |].
  intros t e Hget. destruct (Hc _ _ Hget) as [? | [-> Hin]]; [by left |].
  right. split; [done |]. apply list_elem_of_fmap. exists t. by destruct t.
Qed.

Lemma visit_targets_scheduled d (targets : list (Target.t vector)) (s : ts_state) :
  ∀ acc,
  let new := foldl (λ new target,
               let content_id := Target.target_content_id target in
               if (d <? default depth (dict_get content_id (visited_ids s)))%Z
               then set_add content_id new else new) acc targets in
  (∀ x, x ∈ acc → x ∈ new) ∧
  ∀ target, target ∈ targets →
    (d <? default depth
            (dict_get (Target.target_content_id target) (visited_ids s)))%Z = true →
    Target.target_content_id target ∈ new.
Proof.
  induction targets as [| t targets IH]; intros acc; cbv zeta.
  - split; [done |]. by intros target ?%elem_of_nil.
  - cbn [foldl].
    destruct (d <? default depth (dict_get (Target.target_content_id t) (visited_ids s)))%Z
      eqn:Hlt.
    + destruct (IH (set_add (Target.target_content_id t) acc)) as [Hacc Hall].
      split.
      * intros x Hx. apply Hacc, elem_of_set_add. by right.
      * intros target [-> | Hin]%elem_of_cons Hc; [| by apply Hall].
        apply Hacc, elem_of_set_add. by left.
    + destruct (IH acc) as [Hacc Hall]. split; [done |].
      intros target [-> | Hin]%elem_of_cons Hc; [congruence | by apply Hall].
Qed.

(** The callback [visit_targets(d, rows)] leaves every target recorded
    within [d + 1], or schedules the query that visits it. *)
Lemma visit_targets_complete d (targets : list (Target.t vector)) (s : ts_state)
    target :
  (d < depth)%Z → target ∈ targets →
  visited_within (visited_ids s) (Target.target_content_id target) (d + 1) ∨
  QueryIdsAndLinkToTagsById (Target.target_content_id target) d
  ∈ (visit_targets depth d targets s).2.
Proof.
  intros Hd Hin.
  destruct (d <? default depth
                   (dict_get (Target.target_content_id target) (visited_ids s)))%Z
    eqn:Hlt.
  - right. unfold visit_targets. cbn [snd]. apply list_elem_of_fmap.
    eexists. split; [done |].
    by apply (visit_targets_scheduled d targets s []).
  - left. apply Z.ltb_ge in Hlt.
    destruct (dict_get (Target.target_content_id target) (visited_ids s))
      as [v |] eqn:Hv; simpl in Hlt; [| lia].
    exists v. split; [done | lia].
Qed.

Lemma rows_by_id_faithful node_id row :
  row ∈ query_ids_and_link_to_tags_by_id store node_id →
  row.1 = node_id ∧ or_empty row.2 = link_to_tags_of store row.1.
Proof.
  unfold query_ids_and_link_to_tags_by_id, link_to_tags_of.
  destruct (Store.passages store !! node_id) as [p |] eqn:Hp.
  - intros ->%list_elem_of_singleton. simpl. by rewrite Hp.
  - by intros ?%elem_of_nil.
Qed.

Lemma rows_by_embedding_faithful query_embedding k row :
  row ∈ query_ids_and_link_to_tags_by_embedding store query_embedding k →
  or_empty row.2 = link_to_tags_of store row.1.
Proof.
  unfold query_ids_and_link_to_tags_by_embedding.
  intros (rows & Hrow & Hrows)%list_elem_of_join.
  apply list_elem_of_fmap in Hrows as (node_id & -> & _).
  by apply rows_by_id_faithful in Hrow as [_ ?].
Qed.

Lemma rows_by_id_stored node_id :
  is_Some (Store.passages store !! node_id) →
  ∃ row, row ∈ query_ids_and_link_to_tags_by_id store node_id ∧ row.1 = node_id.
Proof.
  intros [p Hp]. unfold query_ids_and_link_to_tags_by_id. rewrite Hp.
  eexists. split; [left | done].
Qed.

Lemma visited_within_le {K} `{EqDecision K} (visited : list (K * Z)) key e e' :
  (e ≤ e')%Z → visited_within visited key e → visited_within visited key e'.
Proof. intros Hle (v & Hv & Hve). exists v. split; [done | lia]. Qed.

Variable query_embedding : vector.
Variable k : Z.

(** Every completion keeps what the traversal maintains. *)
Lemma ts_closed_complete i st st' :
  (0 ≤ depth)%Z → targets_stored store →
  cq_complete (ts_complete store depth) i st = Some st' →
  ts_inv store depth query_embedding k st →
  ts_closed store depth query_embedding k st →
  ts_closed store depth query_embedding k st'.
Proof.
  intros Hdepth Hstored Hc [_ Hpend] (Hseeds & Htags & Htargets).
  unfold cq_complete in Hc.
  destruct (pending st !! i) as [q |] eqn:Hi; [| done].
  pose proof (Forall_lookup_1 _ _ _ _ Hpend Hi) as Hq.
  destruct (ts_complete store depth q (shared st)) as [s' new] eqn:Hcomp.
  injection Hc as <-.
  assert ((∀ x e, visited_within (visited_ids (shared st)) x e →
                  visited_within (visited_ids s') x e) ∧
          (∀ t e, visited_within (visited_tags (shared st)) t e →
                  visited_within (visited_tags s') t e) ∧
          ts_tags_ok store depth s' ∧
          (∀ t e, dict_get t (visited_tags s') = Some e →
             dict_get t (visited_tags (shared st)) = Some e ∨
             QueryTargetsByKindAndValue t.1 t.2 e ∈ new) ∧
          (q = QueryIdsAndLinkToTagsByEmbedding query_embedding k →
           ∀ x, x ∈ ann_seeds store query_embedding k →
             visited_within (visited_ids s') x 0) ∧
          (∀ y d, q = QueryIdsAndLinkToTagsById y d →
             is_Some (Store.passages store !! y) →
             visited_within (visited_ids s') y (d + 1)) ∧
          (∀ kind value d, q = QueryTargetsByKindAndValue kind value d →
             ∀ target, target ∈ Store.targets store →
               (Target.kind target, Target.tag target) = (kind, value) →
               visited_within (visited_ids s') (Target.target_content_id target) (d + 1) ∨
               QueryIdsAndLinkToTagsById (Target.target_content_id target) d ∈ new))
    as (HmV & HmT & Htags' & HnewT & Hqemb & Hqid & Hqtg).
  { destruct q as [q' k' | kind value d | node_id d]; simpl in Hcomp, Hq.
    - destruct Hq as [-> ->].
      apply visit_nodes_complete in Hcomp as (HmV & HmT & Ha & Hb & Hc);
        [| apply rows_by_embedding_faithful].
      split; [done |]. split; [done |]. split; [by apply Hb |].
      split; [| split; [| split]]; try done.
      + intros t e Hget. destruct (Hc _ _ Hget) as [? | [-> ?]]; auto.
      + intros _ x (row & -> & Hrow)%list_elem_of_fmap. by apply Ha.
    - destruct Hq as (n & a & -> & Hlt & _).
      unfold visit_targets in Hcomp. injection Hcomp as <- <-.
      split; [done |]. split; [done |]. split; [done |].
      split; [by left |]. split; [done |]. split; [done |].
      intros kind' value' d' [= -> -> <-] target Hin [= Hk Hv].
      apply (visit_targets_complete _ (query_targets_by_kind_and_value store kind' value'));
        [done |].
      unfold query_targets_by_kind_and_value. apply list_elem_of_filter. done.
    - destruct Hq as (n & -> & Hlt & _).
      apply visit_nodes_complete in Hcomp as (HmV & HmT & Ha & Hb & Hc);
        [| intros row Hrow; by apply rows_by_id_faithful in Hrow as [_ ?]].
      split; [done |]. split; [done |]. split; [by apply Hb |].
      split; [| split; [| split]]; try done.
      + intros t e Hget. destruct (Hc _ _ Hget) as [? | [-> ?]]; auto.
      + intros y d [= -> <-] (row & Hrow & <-)%rows_by_id_stored.
        apply Ha; [lia | done]. }
  assert (Hh : ∀ y e, is_Some (Store.passages store !! y) →
            ts_handled st y e →
            ts_handled (Scope s' (delete i (pending st) ++ new)
                          (executed st ++ new)) y e).
  { intros y e Hy [Hw | (d & Hin & Hde)].
    - left. by apply HmV.
    - destruct (elem_of_delete_or _ _ _ _ Hi Hin) as [Heq | Hin'].
      + left. apply (visited_within_le _ _ (d + 1)); [done |].
        by apply Hqid.
      + right. exists d. split; [| done]. apply elem_of_app. by left. }
  split; [| split].
  - destruct Hseeds as [Hin | Hall].
    + destruct (elem_of_delete_or _ _ _ _ Hi Hin) as [Heq | Hin'].
      * right. by apply Hqemb.
      * left. apply elem_of_app. by left.
    + right. intros x Hx. by apply HmV, Hall.
  - done.
  - intros t d Hget. cbn [shared pending] in *.
    destruct (HnewT _ _ Hget) as [Hold | Hnew].
    + destruct (Htargets _ _ Hold) as [Hin | Hall].
      * destruct (elem_of_delete_or _ _ _ _ Hi Hin) as [Heq | Hin'].
        -- right. intros target Ht Hkt.
           destruct (Hqtg t.1 t.2 d (eq_sym Heq) target Ht) as [Hw | Hnew'].
           ++ by destruct t.
           ++ by left.
           ++ right. exists d. split; [| done]. apply elem_of_app. by right.
        -- left. apply elem_of_app. by left.
      * right. intros target Ht Hkt. apply Hh; [by apply Hstored |].
        by apply Hall.
    + left. apply elem_of_app. by right.
Qed.

Lemma ts_closed_enter :
  ts_closed store depth query_embedding k
    (cq_execute (QueryIdsAndLinkToTagsByEmbedding query_embedding k)
       (Scope (TsState [] []) [] [])).
Proof.
  split; [| split].
  - left. simpl. left.
  - by intros x v [=].
  - by intros t d [=].
Qed.

(** Once no call is pending, every node within [depth] hops of a seed is
    recorded, no deeper than the hops that lead to it. *)
Lemma ts_closed_reaches st :
  pending st = [] →
  ts_closed store depth query_embedding k st →
  ∀ n node_id,
    within_hops store (ann_seeds store query_embedding k) n node_id →
    (Z.of_nat n ≤ depth)%Z →
    visited_within (visited_ids (shared st)) node_id (Z.of_nat n).
Proof.
  intros Hnil (Hseeds & Htags & Htargets) n node_id Hw.
  induction Hw as [x Hx | n a b Ha IH (target & Ht & Htag & Hb)]; intros Hn.
  - destruct Hseeds as [Hin | Hall]; [| by apply Hall].
    rewrite Hnil in Hin. by apply elem_of_nil in Hin.
  - destruct IH as (v & Hv & Hvn); [lia |].
    destruct (Htags a v Hv ltac:(lia) _ Htag) as (d & Hd & Hdv).
    destruct (Htargets _ _ Hd) as [Hin | Hall].
    { rewrite Hnil in Hin. by apply elem_of_nil in Hin. }
    destruct (Hall target Ht eq_refl) as [Hwb | (d' & Hin & _)].
    + rewrite Hb in Hwb. apply (visited_within_le _ _ (d + 1)); [lia | done].
    + rewrite Hnil in Hin. by apply elem_of_nil in Hin.
Qed.
End TraversalComplete.

Lemma quiescent_pending {St Q} (st : scope St Q) :
  quiescent st = true → pending st = [].
Proof. unfold quiescent. by destruct (pending st). Qed.

Section TraversalCompleteFacts.
Context {vector : Type}.
Variable store : Store.t vector.
Variable embed_query : string → vector.
Variable depth : Z.

(** The state [traversal_search] leaves its scope in. *)
Lemma traversal_search_final fuel pick sched' pick' query k calls visited r :
  traversal_search store embed_query depth fuel pick sched' pick' query k
  = Some (calls, visited, r) →
  ∃ st,
    st = cq_exit (ts_complete store depth) fuel pick (ts_enter embed_query query k) ∧
    pending st = [] ∧ visited_ids (shared st) = visited ∧ executed st = calls ∧
    r = _nodes_with_ids store sched' pick' (dict_keys visited).
Proof.
  unfold traversal_search.
  set (st := cq_exit _ fuel pick _).
  destruct (quiescent st) eqn:Hq; [| done]. intros [= <- <- <-].
  exists st. split; [done |]. split; [by apply quiescent_pending | done].
Qed.

Lemma traversal_search_sound fuel pick sched' pick' query k calls visited r :
  traversal_search store embed_query depth fuel pick sched' pick' query k
  = Some (calls, visited, r) →
  ∀ node_id d, dict_get node_id visited = Some d →
    ∃ n, d = Z.of_nat n ∧ (d ≤ depth)%Z ∧
      within_hops store (ann_seeds store (embed_query query) k) n node_id.
Proof.
  intros (st & -> & _ & <- & _)%traversal_search_final.
  assert (ts_inv store depth (embed_query query) k
            (cq_exit (ts_complete store depth) fuel pick
               (ts_enter embed_query query k))) as [Hvis _].
  { apply ts_inv_reachable. apply cq_exit_steps. }
  exact Hvis.
Qed.

Lemma traversal_search_reaches fuel pick sched' pick' query k calls visited r :
  (0 ≤ depth)%Z → targets_stored store →
  traversal_search store embed_query depth fuel pick sched' pick' query k
  = Some (calls, visited, r) →
  ∀ n node_id,
    within_hops store (ann_seeds store (embed_query query) k) n node_id →
    (Z.of_nat n ≤ depth)%Z →
    visited_within visited node_id (Z.of_nat n).
Proof.
  intros Hdepth Hstored (st & -> & Hnil & <- & _)%traversal_search_final.
  apply (ts_closed_reaches store depth (embed_query query) k); [done |].
  refine (proj2 (cq_exit_preserves (ts_complete store depth)
    (λ st, ts_inv store depth (embed_query query) k st ∧
           ts_closed store depth (embed_query query) k st) fuel pick _ _ _)).
  - intros i st st' Hc [Hinv Hcl]. split.
    + by eapply ts_inv_complete.
    + by eapply ts_closed_complete.
  - split; [apply ts_inv_enter | apply ts_closed_enter].
Qed.

(** The depth recorded for an id is the length of a shortest chain of
    hops from a seed. *)
Lemma traversal_search_depth fuel pick sched' pick' query k calls visited r :
  (0 ≤ depth)%Z → targets_stored store →
  traversal_search store embed_query depth fuel pick sched' pick' query k
  = Some (calls, visited, r) →
  ∀ node_id d,
    dict_get node_id visited = Some d ↔
    ∃ n, d = Z.of_nat n ∧ (d ≤ depth)%Z ∧
      within_hops store (ann_seeds store (embed_query query) k) n node_id ∧
      ∀ m, within_hops store (ann_seeds store (embed_query query) k) m node_id →
           (n ≤ m)%nat.
Proof.
  intros Hdepth Hstored Hrun node_id d.
  pose proof (traversal_search_sound _ _ _ _ _ _ _ _ _ Hrun) as Hsound.
  pose proof (traversal_search_reaches _ _ _ _ _ _ _ _ _ Hdepth Hstored Hrun)
    as Hreach.
  split.
  - intros Hget. destruct (Hsound _ _ Hget) as (n & -> & Hle & Hw).
    exists n. split; [done |]. split; [done |]. split; [done |].
    intros m Hm. destruct (decide (Z.of_nat m ≤ depth)%Z) as [Hmd | Hmd]; [| lia].
    destruct (Hreach _ _ Hm Hmd) as (v & Hv & Hvm).
    rewrite Hget in Hv. injection Hv as <-. lia.
  - intros (n & -> & Hle & Hw & Hmin).
    destruct (Hreach _ _ Hw Hle) as (v & Hv & Hvn).
    destruct (Hsound _ _ Hv) as (n' & -> & _ & Hw').
    pose proof (Hmin _ Hw'). rewrite Hv. f_equal. lia.
Qed.
End TraversalCompleteFacts.

(** X6.  With a depth that is not negative, and when every row of the
    targets table refers to a stored node, [traversal_search] records every
    node that [depth] or fewer hops lead to from a seed, in whatever order
    its calls complete: the traversal misses nothing within its depth. *)
Theorem traversal_search_complete {vector} (store : Store.t vector)
    (embed_query : string → vector) (depth : Z) fuel pick sched' pick' query k
    calls visited r :
  (0 ≤ depth)%Z → targets_stored store →
  traversal_search store embed_query depth fuel pick sched' pick' query k
  = Some (calls, visited, r) →
  ∀ n node_id,
    within_hops store (ann_seeds store (embed_query query) k) n node_id →
    (Z.of_nat n ≤ depth)%Z →
    node_id ∈ dict_keys visited ∧
    ∃ d, dict_get node_id visited = Some d ∧ (d ≤ Z.of_nat n)%Z.
Proof.
  intros Hdepth Hstored Hrun n node_id Hw Hn.
  destruct (traversal_search_reaches _ _ _ _ _ _ _ _ _ _ _ _ Hdepth Hstored Hrun
              _ _ Hw Hn) as (v & Hv & Hvn).
  split; [| eauto].
  apply dict_get_Some_elem in Hv. unfold dict_keys.
  apply list_elem_of_fmap. by exists (node_id, v).
Qed.

(** X7.  Under the same conditions the depth [traversal_search] records
    for an id is the length of a shortest chain of hops from a seed to it,
    and an id is recorded exactly when such a chain of at most [depth]
    hops exists. *)
Theorem traversal_search_shortest {vector} (store : Store.t vector)
    (embed_query : string → vector) (depth : Z) fuel pick sched' pick' query k
    calls visited r :
  (0 ≤ depth)%Z → targets_stored store →
  traversal_search store embed_query depth fuel pick sched' pick' query k
  = Some (calls, visited, r) →
  ∀ node_id d,
    dict_get node_id visited = Some d ↔
    ∃ n, d = Z.of_nat n ∧ (d ≤ depth)%Z ∧
      within_hops store (ann_seeds store (embed_query query) k) n node_id ∧
      ∀ m, within_hops store (ann_seeds store (embed_query query) k) m node_id →
           (n ≤ m)%nat.
Proof. apply traversal_search_depth. Qed.

(** ** [_nodes_with_ids] under any schedule *)

Lemma get_results_ext results results' (ids : list string) :
  (∀ node_id, node_id ∈ ids → dict_get node_id results = dict_get node_id results') →
  get_results results ids = get_results results' ids.
Proof.
  induction ids as [| node_id ids IH]; intros Heq; [done |].
  simpl. unfold get_result. rewrite (Heq node_id) by left.
  rewrite IH; [done |]. intros x Hx. apply Heq. by right.
Qed.

Lemma Forall2_omap {A B} (f : A → option B) (l : list A) (k : list B) :
  Forall2 (λ x y, f x = Some y) l k → omap f l = k.
Proof.
  induction 1 as [| x y l k Hxy _ IH]; [done |].
  simpl. rewrite Hxy. f_equal. exact IH.
Qed.

Section NodesWithIdsSchedules.
Context {vector : Type}.
Variable store : Store.t vector.

Lemma nwi_progress_executed n (st : scope nwi_state nwi_call) :
  executed (cq_progress (nwi_complete store) n st) = executed st.
Proof.
  unfold cq_progress, cq_complete.
  destruct (pending st !! _) as [[node_id] |]; [| done].
  simpl. by rewrite app_nil_r.
Qed.

Lemma nwi_exit_executed fuel pick (st : scope nwi_state nwi_call) :
  executed (cq_exit (nwi_complete store) fuel pick st) = executed st.
Proof.
  revert pick st. induction fuel as [| fuel IH]; intros pick st; [done |].
  simpl. by rewrite IH, nwi_progress_executed.
Qed.

(** The calls the loop issues: one for each id not met before, in the
    order of the list. *)
Lemma nwi_loop_executed (ids : list string) : ∀ sched (seen : list string) st,
  (∀ node_id, node_id ∈ (seen ++ ids)%list → decodable store node_id) →
  nwi_inv store seen st →
  executed st = map QueryById seen →
  executed (nwi_loop store ids sched st)
  = map QueryById (foldl (λ acc x, set_add x acc) seen ids).
Proof.
  induction ids as [| node_id ids IH]; intros sched seen st Hdec Hinv Hex;
    [done |].
  assert (Hex1 : executed (nwi_loop store [node_id] sched st)
                 = map QueryById (set_add node_id seen)).
  { cbn [nwi_loop].
    set (st1 := foldl (λ st n, cq_progress (nwi_complete store) n st) st (sched 0)).
    assert (nwi_inv store seen st1 ∧ executed st1 = executed st) as [Hinv' Hex'].
    { subst st1. generalize (sched 0). intros picks. revert st Hinv Hex.
      induction picks as [| n picks IHp]; intros st Hinv Hex; simpl; [done |].
      destruct (IHp (cq_progress (nwi_complete store) n st)) as [? Heq].
      - apply (cq_progress_preserves _ (nwi_inv store seen)); [| done].
        intros i s s' Hc. apply (nwi_inv_complete store seen i); [| done].
        intros x Hx. apply Hdec, elem_of_app. by left.
      - by rewrite nwi_progress_executed.
      - split; [done |]. by rewrite Heq, nwi_progress_executed. }
    destruct Hinv' as (_ & _ & _ & _ & _ & Hnew & Hres).
    unfold set_add. destruct (decide (node_id ∈ seen)) as [Hin | Hnin].
    - rewrite (Hres _ Hin). destruct (decide _); by rewrite Hex', Hex.
    - rewrite (Hnew _ Hnin). simpl. by rewrite Hex', Hex, map_app. }
  assert (Hinv1 : nwi_inv store (seen ++ [node_id]) (nwi_loop store [node_id] sched st)).
  { apply nwi_inv_loop; [| done]. intros x Hx. apply Hdec.
    rewrite (cons_middle node_id seen ids), app_assoc, elem_of_app. by left. }
  change (nwi_loop store (node_id :: ids) sched st)
    with (nwi_loop store ids (λ n, sched (S n)) (nwi_loop store [node_id] sched st)).
  cbn [foldl].
  apply IH; [| | done].
  - intros x Hx. apply Hdec. rewrite elem_of_app in Hx.
    rewrite elem_of_app, elem_of_cons.
    destruct Hx as [Hx%elem_of_set_add | Hx]; tauto.
  - apply (nwi_inv_ext store (seen ++ [node_id])); [| done].
    intros x. rewrite elem_of_set_add, elem_of_app, list_elem_of_singleton. tauto.
Qed.

Lemma nwi_inv_initial :
  nwi_inv store [] (Scope (NwiState [] None) [] []).
Proof.
  unfold nwi_inv. simpl. split; [done |]. do 2 (split; [constructor |]).
  split; [intros x; by rewrite !elem_of_nil |].
  split; [by intros x ?%elem_of_nil |].
  split; [done | by intros x ?%elem_of_nil].
Qed.

(** What [_nodes_with_ids] issues and returns when the rows decode. *)
Lemma _nodes_with_ids_eq sched pick (ids : list string) :
  (∀ node_id, node_id ∈ ids → decodable store node_id) →
  _nodes_with_ids store sched pick ids
  = (map QueryById (first_occurrences ids),
     get_results (map (λ node_id, (node_id, fetched store node_id)) ids) ids).
Proof.
  intros Hdec. unfold _nodes_with_ids. cbv zeta.
  destruct (nwi_results store sched pick ids Hdec) as (Hraised & _ & _ & Hres).
  cbv zeta in Hraised, Hres. rewrite Hraised. f_equal.
  - rewrite nwi_exit_executed.
    apply (nwi_loop_executed ids sched []); [done | apply nwi_inv_initial | done].
  - apply get_results_ext. intros x Hx. rewrite (Hres _ Hx).
    clear -Hx. induction ids as [| y ids IH]; [by apply elem_of_nil in Hx |].
    simpl. destruct (decide (x = y)) as [-> | Hne]; [done |].
    apply IH. apply elem_of_cons in Hx as [? | ?]; done.
Qed.

(** When every id has a row that decodes, the nodes returned are the
    nodes the rows decode to, in the order of the ids. *)
Lemma _nodes_with_ids_stored sched pick (ids : list string) :
  (∀ node_id, node_id ∈ ids → decodable store node_id) →
  (∀ node_id, node_id ∈ ids → is_Some (Store.passages store !! node_id)) →
  (_nodes_with_ids store sched pick ids).2 = Ok (omap (fetched store) ids).
Proof.
  intros Hdec Hall. unfold _nodes_with_ids. cbv zeta.
  destruct (nwi_results store sched pick ids Hdec) as (Hraised & _ & _ & Hres).
  cbv zeta in Hraised, Hres. cbn [snd]. rewrite Hraised.
  destruct (get_results_fetched store _ ids Hres Hdec) as [Hok _].
  destruct (Hok Hall) as (nodes & -> & Hlen & Hnth). f_equal. symmetry.
  apply Forall2_omap. apply Forall2_same_length_lookup_2; [done |].
  intros i x node Hx Hnode. destruct (Hnth _ _ Hx) as (node' & Hn' & Hf).
  congruence.
Qed.
End NodesWithIdsSchedules.

(** X8.  When the rows of the ids decode, what [_nodes_with_ids] does is
    the same in whatever order its calls complete: it issues one query for
    each distinct id, in the order of first occurrence, and the value it
    returns or the exception it raises does not depend on the schedule. *)
Theorem _nodes_with_ids_schedule_independent {vector} (store : Store.t vector)
    sched pick sched2 pick2 (ids : list string) :
  (∀ node_id, node_id ∈ ids → decodable store node_id) →
  (_nodes_with_ids store sched pick ids).1 = map QueryById (first_occurrences ids) ∧
  _nodes_with_ids store sched pick ids = _nodes_with_ids store sched2 pick2 ids.
Proof.
  intros Hdec. rewrite !(_nodes_with_ids_eq store _ _ ids Hdec). done.
Qed.

Section NodesWithIdsPoisoned.
Context {vector : Type}.
Variable store : Store.t vector.





End NodesWithIdsPoisoned.


(** ** The traversal under any schedule *)

Lemma dict_keys_dict_set {A V} `{EqDecision A} (k : A) (v : V) (d : list (A * V)) :
  dict_keys (dict_set k v d) = set_add k (dict_keys d).
Proof.
  unfold dict_keys, set_add. induction d as [| [k' v'] d IH]; [done |].
  simpl. destruct (decide (k = k')) as [<- | Hne].
  - rewrite decide_True by left. done.
  - rewrite fmap_cons, IH. simpl.
    destruct (decide (k ∈ d.*1)) as [Hin | Hnin].
    + rewrite decide_True by (by right). done.
    + rewrite decide_False; [done |]. intros [? | ?]%elem_of_cons; done.
Qed.

Lemma NoDup_dict_keys_set {A V} `{EqDecision A} (k : A) (v : V) (d : list (A * V)) :
  NoDup (dict_keys d) → NoDup (dict_keys (dict_set k v d)).
Proof. rewrite dict_keys_dict_set. apply NoDup_set_add. Qed.

Lemma dict_keys_is_Some {A V} `{EqDecision A} (k : A) (d : list (A * V)) :
  k ∈ dict_keys d ↔ is_Some (dict_get k d).
Proof.
  split.
  - intros [v Hv]%dict_keys_get. by rewrite Hv.
  - intros [v Hv]. destruct (decide (k ∈ dict_keys d)) as [| Hn]; [done |].
    apply dict_get_None_keys in Hn. congruence.
Qed.

Section TraversalSchedules.
Context {vector : Type}.
Variable store : Store.t vector.
Variable depth : Z.

Lemma visit_node_fold_NoDup d
    (rows : list (string * option (list (string * string)))) :
  ∀ V T out,
  NoDup (dict_keys V) →
  NoDup (dict_keys (foldl (visit_node depth d) (V, T, out) rows).1.1).
Proof.
  induction rows as [| [x tags] rows IH]; intros V T out Hnd; [done |].
  cbn [foldl]. unfold visit_node at 2. cbn [fst snd].
  destruct (d <=? default depth (dict_get x V))%Z; [| by apply IH].
  destruct ((d <? depth)%Z && truthy tags).
  - destruct (foldl (visit_tag depth d) (T, out) (or_empty tags)) as [T1 out1].
    by apply IH, NoDup_dict_keys_set.
  - by apply IH, NoDup_dict_keys_set.
Qed.

Lemma ts_complete_NoDup (q : ts_call vector) (s : ts_state) :
  NoDup (dict_keys (visited_ids s)) →
  NoDup (dict_keys (visited_ids (ts_complete store depth q s).1)).
Proof.
  intros Hnd.
  assert (∀ d rows, NoDup (dict_keys (visited_ids
            (visit_nodes (vector:=vector) depth d rows s).1))) as Hvn.
  { intros d rows. unfold visit_nodes.
    pose proof (visit_node_fold_NoDup d rows (visited_ids s) (visited_tags s) [] Hnd)
      as Hf.
    by destruct (foldl _ _ rows) as [[V' T'] out']. }
  destruct q as [q' k' | kind value d | node_id d]; simpl; [apply Hvn | done | apply Hvn].
Qed.

Lemma seeds_stored (query_embedding : vector) k node_id :
  node_id ∈ ann_seeds store query_embedding k →
  is_Some (Store.passages store !! node_id).
Proof.
  unfold ann_seeds, query_ids_and_link_to_tags_by_embedding.
  intros (row & -> & (rows & Hrow & Hrows)%list_elem_of_join)%list_elem_of_fmap.
  apply list_elem_of_fmap in Hrows as (y & -> & _).
  unfold query_ids_and_link_to_tags_by_id in Hrow.
  destruct (Store.passages store !! y) as [p |] eqn:Hp.
  - apply list_elem_of_singleton in Hrow as ->. simpl. by rewrite Hp.
  - by apply elem_of_nil in Hrow.
Qed.

Lemma within_hops_stored seeds n node_id :
  targets_stored store →
  (∀ x, x ∈ seeds → is_Some (Store.passages store !! x)) →
  within_hops store seeds n node_id →
  is_Some (Store.passages store !! node_id).
Proof.
  intros Hstored Hseeds [x Hx | m a b _ (target & Ht & _ & <-)]; [by apply Hseeds |].
  by apply Hstored.
Qed.

Variable embed_query : string → vector.

Lemma traversal_search_NoDup fuel pick sched' pick' query k calls visited r :
  traversal_search store embed_query depth fuel pick sched' pick' query k
  = Some (calls, visited, r) →
  NoDup (dict_keys visited).
Proof.
  intros (st & -> & _ & <- & _)%traversal_search_final.
  apply (cq_exit_preserves (ts_complete store depth)
           (λ st, NoDup (dict_keys (visited_ids (shared st))))).
  - intros i st st' Hc Hnd. unfold cq_complete in Hc.
    destruct (pending st !! i) as [q |]; [| done].
    pose proof (ts_complete_NoDup q (shared st) Hnd) as Hnd'.
    destruct (ts_complete store depth q (shared st)) as [s' new].
    by injection Hc as <-.
  - simpl. constructor.
Qed.

(** Every id the traversal records has a row, so looking the ids up
    returns a node for each. *)
Lemma traversal_search_nodes fuel pick sched' pick' query k calls visited r :
  targets_stored store →
  (∀ node_id, node_id ∈ dict_keys visited → decodable store node_id) →
  traversal_search store embed_query depth fuel pick sched' pick' query k
  = Some (calls, visited, r) →
  r.2 = Ok (omap (fetched store) (dict_keys visited)).
Proof.
  intros Hstored Hdec Hrun.
  pose proof (traversal_search_sound _ _ _ _ _ _ _ _ _ _ _ _ Hrun) as Hsound.
  apply traversal_search_final in Hrun as (st & _ & _ & _ & _ & ->).
  apply _nodes_with_ids_stored; [done |].
  intros x [d Hd]%dict_keys_get.
  destruct (Hsound _ _ Hd) as (n & _ & _ & Hw).
  eapply within_hops_stored; [done | | done].
  apply seeds_stored.
Qed.
End TraversalSchedules.

(** X10.  Two runs of [traversal_search] on the same store, whose calls
    complete in different orders, record the same ids at the same depths
    and return the same nodes, up to the order of the list: the order of
    completion decides the order of the result only. *)
Theorem traversal_search_schedule_independent {vector} (store : Store.t vector)
    (embed_query : string → vector) (depth : Z) (query : string) (k : Z)
    fuel pick sched' pick' calls visited r
    fuel2 pick2 sched2' pick2' calls2 visited2 r2 :
  (0 ≤ depth)%Z → targets_stored store →
  (∀ node_id, node_id ∈ dict_keys visited → decodable store node_id) →
  traversal_search store embed_query depth fuel pick sched' pick' query k
  = Some (calls, visited, r) →
  traversal_search store embed_query depth fuel2 pick2 sched2' pick2' query k
  = Some (calls2, visited2, r2) →
  (∀ node_id, dict_get node_id visited = dict_get node_id visited2) ∧
  dict_keys visited ≡ₚ dict_keys visited2 ∧
  ∃ nodes nodes2, r.2 = Ok nodes ∧ r2.2 = Ok nodes2 ∧ nodes ≡ₚ nodes2.
Proof.
  intros Hdepth Hstored Hdec Hrun Hrun2.
  pose proof (traversal_search_depth _ _ _ _ _ _ _ _ _ _ _ _ Hdepth Hstored Hrun)
    as Hd1.
  pose proof (traversal_search_depth _ _ _ _ _ _ _ _ _ _ _ _ Hdepth Hstored Hrun2)
    as Hd2.
  assert (Hmaps : ∀ node_id, dict_get node_id visited = dict_get node_id visited2).
  { intros x. destruct (dict_get x visited) as [d |] eqn:H1.
    - symmetry. apply Hd2. by apply Hd1.
    - destruct (dict_get x visited2) as [d |] eqn:H2; [| done].
      apply Hd2, Hd1 in H2. congruence. }
  assert (Hperm : dict_keys visited ≡ₚ dict_keys visited2).
  { apply NoDup_Permutation.
    - by eapply traversal_search_NoDup.
    - by eapply traversal_search_NoDup.
    - intros x. by rewrite !dict_keys_is_Some, Hmaps. }
  split; [done |]. split; [done |].
  exists (omap (fetched store) (dict_keys visited)),
         (omap (fetched store) (dict_keys visited2)).
  split; [by eapply traversal_search_nodes |]. split.
  - eapply traversal_search_nodes; [done | | done].
    intros x Hx. apply Hdec. by rewrite Hperm.
  - by rewrite Hperm.
Qed.

(** ** Edge cases of the traversal, and [similarity_search] *)

Section TraversalEdgeCases.
Context {vector : Type}.
Variable store : Store.t vector.

(** With a negative depth the test [d <= visited_ids.get(id, depth)]
    fails for every row. *)
Lemma visit_node_fold_negative depth
    (rows : list (string * option (list (string * string)))) T out :
  (depth < 0)%Z →
  foldl (visit_node depth 0) ([], T, out) rows = ([], T, out).
Proof.
  intros Hd. induction rows as [| [x tags] rows IH]; [done |].
  cbn [foldl]. unfold visit_node at 2. cbn [fst snd dict_get default].
  assert ((0 <=? depth)%Z = false) as -> by (apply Z.leb_gt; lia).
  apply IH.
Qed.

(** With [depth = 0] the seeding callback records the ids of its rows in
    the order of the rows. *)
Lemma visit_node_fold_0_keys
    (rows : list (string * option (list (string * string)))) :
  ∀ V T,
  (∀ node_id d, dict_get node_id V = Some d → d = 0%Z) →
  ∃ V',
    foldl (visit_node 0 0) (V, T, []) rows = (V', T, []) ∧
    dict_keys V' = foldl (λ acc x, set_add x acc) (dict_keys V) rows.*1.
Proof.
  induction rows as [| [node_id tags] rows IH]; intros V T Hz.
  - exists V. done.
  - cbn [foldl]. unfold visit_node at 2. simpl.
    assert ((0 <=? default 0 (dict_get node_id V))%Z = true) as ->.
    { destruct (dict_get node_id V) as [d |] eqn:Hget; [| done].
      by rewrite (Hz _ _ Hget). }
    destruct (IH (dict_set node_id 0%Z V) T) as (V' & -> & Hkeys).
    { intros x d. destruct (decide (node_id = x)) as [-> | Hne].
      - rewrite dict_get_set_eq. by intros [= <-].
      - rewrite dict_get_set_ne by done. apply Hz. }
    exists V'. split; [done |]. by rewrite Hkeys, dict_keys_dict_set.
Qed.

Lemma yield_nodes_decodable (rows : list Row.t) :
  Forall (λ row, is_ok (_row_to_node row) = true) rows →
  ∃ nodes, yield_nodes rows = (nodes, None) ∧
    Forall2 (λ row node, _row_to_node row = Ok node) rows nodes.
Proof.
  induction 1 as [| row rows Hrow _ (nodes & IH & Hall)].
  - exists []. split; [done | constructor].
  - simpl. destruct (_row_to_node row) as [node |] eqn:Hnode; [| done].
    rewrite IH. exists (node :: nodes). split; [done |]. by constructor.
Qed.

Lemma yield_nodes_fetched (ids : list string) :
  (∀ node_id, node_id ∈ ids → decodable store node_id) →
  yield_nodes (mjoin (map (query_by_id store) ids))
  = (omap (fetched store)
       (mjoin (map (query_ids_and_link_to_tags_by_id store) ids)).*1, None).
Proof.
  induction ids as [| x ids IH]; intros Hdec; [done |].
  cbn [map mjoin list_join].
  assert (decodable store x) as Hx by (apply Hdec; left).
  assert (IH' := IH (λ y Hy, Hdec y (list_elem_of_further _ _ _ Hy))).
  unfold decodable in Hx. unfold fetched in *.
  unfold query_by_id at 1. unfold query_ids_and_link_to_tags_by_id at 1.
  unfold query_by_id in Hx.
  destruct (Store.passages store !! x) as [p |] eqn:Hp.
  - specialize (Hx _ (list_elem_of_here _ _)).
    cbn [app fmap list_fmap fst yield_nodes omap list_omap].
    unfold query_by_id at 2. rewrite Hp.
    destruct (_row_to_node _) as [node |]; [| done].
    exact (f_equal (λ r : list Node.t * option exn,
                      let '(nodes, e) := r in (node :: nodes, e)) IH').
  - exact IH'.
Qed.

(** The rows of the nearest-neighbour query decode to the nodes fetched
    for their ids. *)
Lemma query_by_embedding_fetched (q : vector) (k : Z) :
  (∀ node_id, node_id ∈ ann_seeds store q k → decodable store node_id) →
  yield_nodes (query_by_embedding store q k)
  = (omap (fetched store) (ann_seeds store q k), None).
Proof.
  intros Hdec. apply yield_nodes_fetched. intros x Hx.
  destruct (Store.passages store !! x) as [p |] eqn:Hp.
  - apply Hdec. unfold ann_seeds, query_ids_and_link_to_tags_by_embedding.
    apply list_elem_of_fmap. exists (x, Passage.link_to_tags p). split; [done |].
    apply list_elem_of_join. eexists. split; [| apply list_elem_of_fmap; eauto].
    unfold query_ids_and_link_to_tags_by_id. rewrite Hp. left.
  - intros row. unfold query_by_id. rewrite Hp. by intros ?%elem_of_nil.
Qed.
End TraversalEdgeCases.

(** X11.  With a negative depth [traversal_search] records nothing, not
    even the rows of the seeding query, and returns the empty list after
    that one query. *)
Theorem traversal_search_negative_depth {vector} (store : Store.t vector)
    (embed_query : string → vector) (depth : Z) fuel pick sched' pick' query k :
  (depth < 0)%Z → (1 ≤ fuel)%nat →
  traversal_search store embed_query depth fuel pick sched' pick' query k
  = Some ([QueryIdsAndLinkToTagsByEmbedding (embed_query query) k], [], ([], Ok [])).
Proof.
  intros Hd Hfuel. destruct fuel as [| fuel]; [lia |].
  unfold traversal_search, ts_enter, cq_execute. cbn [cq_exit pending app].
  rewrite cq_progress_single. cbn [ts_complete]. unfold visit_nodes.
  cbn [shared visited_ids visited_tags].
  rewrite visit_node_fold_negative by done.
  simpl. rewrite cq_exit_idle by done. done.
Qed.

(** X12.  With [depth = 0] [traversal_search] returns what
    [similarity_search] yields for the embedding of the query: the nodes
    of the nearest rows, in the order of the rows.  The rows are taken to
    decode and the backend to return no row twice. *)
Theorem traversal_search_depth_0_similarity {vector} (store : Store.t vector)
    (embed_query : string → vector) fuel pick sched' pick' query k :
  (1 ≤ fuel)%nat →
  NoDup (ann_seeds store (embed_query query) k) →
  (∀ node_id, node_id ∈ ann_seeds store (embed_query query) k →
     decodable store node_id) →
  ∃ calls visited r nodes,
    traversal_search store embed_query 0 fuel pick sched' pick' query k
    = Some (calls, visited, r) ∧
    dict_keys visited = ann_seeds store (embed_query query) k ∧
    r.2 = Ok nodes ∧
    similarity_search store (embed_query query) k = (nodes, None).
Proof.
  intros Hfuel Hnd Hdec. destruct fuel as [| fuel]; [lia |].
  unfold traversal_search, ts_enter, cq_execute. cbn [cq_exit pending app].
  rewrite cq_progress_single. cbn [ts_complete]. unfold visit_nodes.
  cbn [shared visited_ids visited_tags].
  destruct (visit_node_fold_0_keys
              (query_ids_and_link_to_tags_by_embedding store (embed_query query) k)
              [] []) as (V & -> & Hkeys); [by intros x d [=] |].
  simpl. rewrite cq_exit_idle by done. simpl.
  assert (dict_keys V = ann_seeds store (embed_query query) k) as HV.
  { rewrite Hkeys. simpl. by rewrite foldl_set_add_NoDup. }
  eexists _, V, _, _. split; [done |]. split; [done |].
  unfold similarity_search. rewrite query_by_embedding_fetched by done.
  split; [| done]. rewrite HV. apply _nodes_with_ids_stored; [done |].
  apply seeds_stored.
Qed.



(** X14.  When the nearest rows decode, [similarity_search] yields the
    nodes [_nodes_with_ids] returns for the ids of those rows. *)
Theorem similarity_search_nodes_with_ids {vector} (store : Store.t vector)
    (embedding : vector) (k : Z) sched pick :
  (∀ node_id, node_id ∈ ann_seeds store embedding k → decodable store node_id) →
  ∃ nodes,
    similarity_search store embedding k = (nodes, None) ∧
    (_nodes_with_ids store sched pick (ann_seeds store embedding k)).2 = Ok nodes ∧
    map Node.id nodes = map Some (ann_seeds store embedding k).
Proof.
  intros Hdec. exists (omap (fetched store) (ann_seeds store embedding k)).
  split; [by apply query_by_embedding_fetched |].
  split; [apply _nodes_with_ids_stored; [done | apply seeds_stored] |].
  assert (∀ x, x ∈ ann_seeds store embedding k → is_Some (fetched store x)) as Hf.
  { intros x Hx. destruct (fetched store x) eqn:Hfx; [done |].
    apply fetched_None in Hfx; [| by apply Hdec].
    apply seeds_stored in Hx as [p Hp]. congruence. }
  revert Hf. generalize (ann_seeds store embedding k). intros ids Hf.
  induction ids as [| x ids IH]; [done |].
  destruct (Hf x) as [node Hnode]; [left |].
  cbn [omap list_omap map]. rewrite Hnode. cbn [map].
  rewrite (fetched_id _ _ _ Hnode). f_equal. apply IH.
  intros y Hy. apply Hf. by right.
Qed.

Section TraversalDistinct.
Context {vector : Type}.
Variable store : Store.t vector.

Lemma _nodes_with_ids_Ok_fetched sched pick (ids : list string) nodes :
  (∀ node_id, node_id ∈ ids → decodable store node_id) →
  (_nodes_with_ids store sched pick ids).2 = Ok nodes →
  Forall2 (λ node_id node, fetched store node_id = Some node) ids nodes.
Proof.
  intros Hdec. unfold _nodes_with_ids.
  destruct (nwi_results store sched pick ids Hdec) as (Hraised & _ & _ & Hres).
  cbn zeta. simpl. rewrite Hraised. intros Hok%get_results_Ok.
  apply Forall2_same_length_lookup_2; [by eapply Forall2_length |].
  intros i x node Hx Hnode.
  destruct (Forall2_lookup_l _ _ _ _ _ Hok Hx) as (node' & Hn' & Hget).
  rewrite (Hres x) in Hget by (by eapply list_elem_of_lookup_2). congruence.
Qed.
End TraversalDistinct.

(** X15.  [traversal_search] returns no node twice: the nodes it returns
    carry the ids it recorded, one node for each id and in the order in
    which the ids were first recorded.  The rows are taken to decode. *)
Theorem traversal_search_distinct {vector} (store : Store.t vector)
    (embed_query : string → vector) (depth : Z) fuel pick sched' pick' query k
    calls visited r nodes :
  (∀ node_id, node_id ∈ dict_keys visited → decodable store node_id) →
  traversal_search store embed_query depth fuel pick sched' pick' query k
  = Some (calls, visited, r) →
  r.2 = Ok nodes →
  map Node.id nodes = map Some (dict_keys visited) ∧
  NoDup (map Node.id nodes).
Proof.
  intros Hdec Hrun Hok.
  pose proof (traversal_search_NoDup _ _ _ _ _ _ _ _ _ _ _ _ Hrun) as Hnd.
  apply traversal_search_final in Hrun as (st & _ & _ & _ & _ & ->).
  apply _nodes_with_ids_Ok_fetched in Hok; [| done].
  assert (map Node.id nodes = map Some (dict_keys visited)) as Heq.
  { clear -Hok. induction Hok as [| x node ids nodes Hx _ IH]; [done |].
    simpl. rewrite (fetched_id _ _ _ Hx). by f_equal. }
  split; [done |]. rewrite Heq.
  apply (NoDup_fmap_2 Some). done.
Qed.

(** ** [_get_adjacent]: the tags queried and the edges returned *)

Lemma elem_of_dict_set {A V} `{EqDecision A} (k : A) (v : V) (d : list (A * V)) x :
  x ∈ dict_set k v d → x = (k, v) ∨ x ∈ d.
Proof.
  induction d as [| [k' v'] d IH]; simpl.
  - intros ->%list_elem_of_singleton. by left.
  - destruct (decide (k = k')) as [<- | Hne].
    + intros [-> | Hx]%elem_of_cons; [by left | right; by right].
    + intros [-> | Hx]%elem_of_cons; [right; left |].
      destruct (IH Hx) as [? | ?]; [by left | right; by right].
Qed.

Lemma foldl_nested {A B C} (f : A → C → A) (g : B → list C) (rows : list B) :
  ∀ acc, foldl (λ acc row, foldl f acc (g row)) acc rows
         = foldl f acc (mjoin (map g rows)).
Proof.
  induction rows as [| row rows IH]; intros acc; [done |].
  cbn [foldl map mjoin list_join]. by rewrite foldl_app, IH.
Qed.

Section GetAdjacentQueries.
Context {vector : Type}.
Variable store : Store.t vector.
Variable query_embedding : vector.
Variable k_per_tag : option Z.

(** The loop over the tags of a source: a query is scheduled for each
    tag that is not in the set, once, and the tag joins the set. *)
Lemma add_source_tag_fold (tags : list (string * string)) :
  ∀ vt (calls : list (ga_call vector)),
  ∃ new,
    foldl (add_source_tag query_embedding k_per_tag) (vt, calls) tags
    = ((foldl (add_source_tag query_embedding k_per_tag) (vt, calls) tags).1,
       (calls ++ new)%list) ∧
    omap ga_query_source new = [] ∧
    NoDup (omap ga_query_tag new) ∧
    (∀ t, t ∈ omap ga_query_tag new ↔ t ∈ tags ∧ t ∉ vt) ∧
    (∀ t, t ∈ (foldl (add_source_tag query_embedding k_per_tag) (vt, calls) tags).1
          ↔ t ∈ vt ∨ t ∈ tags).
Proof.
  induction tags as [| t0 tags IH]; intros vt calls.
  - exists []. simpl. rewrite app_nil_r. split; [done |]. split; [done |].
    split; [constructor |]. split; intros t; rewrite elem_of_nil; tauto.
  - cbn [foldl]. unfold add_source_tag at 2 4 6.
    destruct (decide (t0 ∈ vt)) as [Hin | Hnin].
    + destruct (IH vt calls) as (new & Heq & Hsrc & Hnd & Hq & Hvt).
      exists new. split; [done |]. split; [done |]. split; [done |]. split.
      * intros t. rewrite Hq, elem_of_cons. split; [tauto |].
        intros [[-> | ?] ?]; [done | tauto].
      * intros t. rewrite Hvt, elem_of_cons. split; [tauto |].
        intros [? | [-> | ?]]; tauto.
    + destruct (IH (set_add t0 vt)
                  (calls ++ [QueryTargetsEmbeddingsByKindAndTagAndEmbedding
                               t0.1 t0.2 query_embedding
                               (or_default k_per_tag 10)])%list)
        as (new & Heq & Hsrc & Hnd & Hq & Hvt).
      exists (QueryTargetsEmbeddingsByKindAndTagAndEmbedding
                t0.1 t0.2 query_embedding (or_default k_per_tag 10) :: new).
      split; [by rewrite Heq at 1; rewrite <- app_assoc |].
      split; [done |].
      assert (Ht0 : (t0.1, t0.2) = t0) by (by destruct t0).
      cbn [omap list_omap ga_query_tag]. rewrite Ht0.
      split; [| split].
      * apply NoDup_cons. split; [| done]. rewrite Hq, elem_of_set_add. tauto.
      * intros t. rewrite elem_of_cons, Hq, elem_of_set_add, elem_of_cons.
        destruct (decide (t = t0)) as [-> | Hne]; tauto.
      * intros t. rewrite Hvt, elem_of_set_add, elem_of_cons. tauto.
Qed.

Lemma source_tags_flat source_id :
  mjoin (map or_empty (query_source_tags_by_id store source_id))
  = link_to_tags_of store source_id.
Proof.
  unfold query_source_tags_by_id, link_to_tags_of.
  destruct (Store.passages store !! source_id); simpl; [by rewrite app_nil_r | done].
Qed.

(** The callback [add_sources] on the row of a source. *)
Lemma add_sources_spec source_id (s : ga_state vector) :
  ∃ new,
    add_sources query_embedding k_per_tag
      (query_source_tags_by_id store source_id) s
    = (GaState (add_sources query_embedding k_per_tag
                  (query_source_tags_by_id store source_id) s).1.(ga_visited_tags)
         (ga_targets s), new) ∧
    omap ga_query_source new = [] ∧
    NoDup (omap ga_query_tag new) ∧
    (∀ t, t ∈ omap ga_query_tag new
          ↔ t ∈ link_to_tags_of store source_id ∧ t ∉ ga_visited_tags s) ∧
    (∀ t, t ∈ (add_sources query_embedding k_per_tag
                 (query_source_tags_by_id store source_id) s).1.(ga_visited_tags)
          ↔ t ∈ ga_visited_tags s ∨ t ∈ link_to_tags_of store source_id).
Proof.
  unfold add_sources. rewrite foldl_nested, source_tags_flat.
  destruct (add_source_tag_fold (link_to_tags_of store source_id)
              (ga_visited_tags s) []) as (new & Heq & Hsrc & Hnd & Hq & Hvt).
  rewrite Heq. cbn [fst snd app ga_visited_tags]. exists new.
  rewrite Heq in Hvt. cbn [fst] in Hvt. done.
Qed.

(** The callback [add_targets]: [setdefault] keeps the first embedding
    seen for a target id. *)
Lemma add_targets_spec (rows : list (Target.t vector)) :
  ∀ targets : list (string * vector),
  let targets' :=
    foldl (λ targets row,
             dict_setdefault (Target.target_content_id row)
               (Target.target_text_embedding row) targets) targets rows in
  (NoDup (dict_keys targets) → NoDup (dict_keys targets')) ∧
  (∀ x, x ∈ targets → x ∈ targets') ∧
  (∀ row, row ∈ rows → Target.target_content_id row ∈ dict_keys targets') ∧
  (∀ x, x ∈ targets' →
     x ∈ targets ∨
     ∃ row, row ∈ rows ∧
       x = (Target.target_content_id row, Target.target_text_embedding row)).
Proof.
  induction rows as [| row rows IH]; intros targets; cbv zeta.
  - simpl. split; [done |]. split; [done |].
    split; [by intros row ?%elem_of_nil | by left].
  - cbn [foldl].
    set (t1 := dict_setdefault (Target.target_content_id row)
                 (Target.target_text_embedding row) targets).
    assert (Ht1 : (NoDup (dict_keys targets) → NoDup (dict_keys t1)) ∧
                  (∀ x, x ∈ targets → x ∈ t1) ∧
                  Target.target_content_id row ∈ dict_keys t1 ∧
                  (∀ x, x ∈ t1 → x ∈ targets ∨
                     x = (Target.target_content_id row,
                          Target.target_text_embedding row))).
    { subst t1. unfold dict_setdefault.
      destruct (dict_get (Target.target_content_id row) targets) as [v |] eqn:Hget.
      - split; [done |]. split; [done |]. split; [| by left].
        apply dict_keys_is_Some. by rewrite Hget.
      - split; [apply NoDup_dict_keys_set |]. split.
        + intros [k v] Hx. apply dict_get_None_keys in Hget.
          assert (k ≠ Target.target_content_id row).
          { intros ->. apply Hget. unfold dict_keys.
            apply list_elem_of_fmap. by exists (Target.target_content_id row, v). }
          clear -Hx H. induction targets as [| [k' v'] d IHd];
            [by apply elem_of_nil in Hx |].
          simpl. destruct (decide (Target.target_content_id row = k')) as [<- | Hne].
          * apply elem_of_cons in Hx as [[= -> ->] | Hx]; [done | by right].
          * apply elem_of_cons in Hx as [[= -> ->] | Hx]; [left | right; auto].
        + split; [apply dict_keys_set; by left |].
          intros x Hx. apply elem_of_dict_set in Hx as [-> | ?]; auto. }
    destruct Ht1 as (Hnd1 & Hsub1 & Hrow1 & Hfrom1).
    destruct (IH t1) as (Hnd & Hsub & Hrows & Hfrom). cbv zeta in *.
    split; [auto |]. split; [auto |]. split.
    + intros row' [-> | Hin]%elem_of_cons; [| by apply Hrows].
      unfold dict_keys in *. apply list_elem_of_fmap in Hrow1 as ([k v] & Hk & Hkv).
      apply list_elem_of_fmap. exists (k, v). split; [done | by apply Hsub].
    + intros x Hx. destruct (Hfrom x Hx) as [Hx1 | (row' & Hin & ->)].
      * destruct (Hfrom1 x Hx1) as [? | ->]; [by left |].
        right. exists row. split; [left | done].
      * right. exists row'. split; [by right | done].
Qed.
End GetAdjacentQueries.

Section GetAdjacentInvariant.
Context {vector : Type}.
Variable store : Store.t vector.
Variable query_embedding : vector.
Variable k_per_tag : option Z.
Variable source_ids : list string.
Variable visited_tags : list (string * string).

Lemma ga_enter_eq :
  ga_enter (vector:=vector) source_ids visited_tags
  = Scope (GaState visited_tags []) (map QuerySourceTagsById source_ids)
      (map QuerySourceTagsById source_ids).
Proof.
  unfold ga_enter.
  assert (∀ (s : ga_state vector) (p e : list (ga_call vector)),
            foldl (λ st source_id, cq_execute (QuerySourceTagsById source_id) st)
              (Scope s p e) source_ids
            = Scope s (p ++ map QuerySourceTagsById source_ids)
                (e ++ map QuerySourceTagsById source_ids)) as Hfold.
  { induction source_ids as [| x xs IH]; intros s p e; simpl.
    - by rewrite !app_nil_r.
    - unfold cq_execute at 2. simpl. rewrite IH, <- !app_assoc. done. }
  by rewrite Hfold.
Qed.

Lemma omap_sources (ids : list string) :
  omap ga_query_source (map (QuerySourceTagsById (vector:=vector)) ids) = ids ∧
  omap ga_query_tag (map (QuerySourceTagsById (vector:=vector)) ids) = [].
Proof.
  induction ids as [| x xs [IH1 IH2]]; [done |].
  simpl. split; [by f_equal | done].
Qed.

Lemma ga_inv_enter :
  ga_inv store source_ids visited_tags (ga_enter source_ids visited_tags).
Proof.
  rewrite ga_enter_eq. unfold ga_inv. cbn [executed pending shared ga_visited_tags ga_targets].
  destruct (omap_sources source_ids) as [Hs Ht]. rewrite Hs, Ht.
  split; [constructor |].
  split; [intros t; rewrite elem_of_nil; tauto |].
  split; [by intros t ?%elem_of_nil |].
  split; [intros s Hs'; left; apply list_elem_of_fmap; eauto |].
  split; [done |]. split; [done |]. split; [constructor |].
  split; [by intros id emb ?%elem_of_nil |]. intros q Hq. by left.
Qed.

Lemma ga_inv_complete i st st' :
  cq_complete (ga_complete store query_embedding k_per_tag) i st = Some st' →
  ga_inv store source_ids visited_tags st →
  ga_inv store source_ids visited_tags st'.
Proof.
  intros Hc (Hnd & Hvt & Hq & Hsrc & Hsources & Hpe & Hndt & Hfrom & Hcov).
  unfold cq_complete in Hc.
  destruct (pending st !! i) as [q |] eqn:Hi; [| done].
  assert (Hqp : q ∈ pending st) by (by eapply list_elem_of_lookup_2).
  destruct q as [s0 | kind tag q' limit]; cbn [ga_complete] in Hc.
  - destruct (add_sources_spec store query_embedding k_per_tag s0 (shared st))
      as (new & Heq & Hns & Hndn & Hqn & Hvtn).
    rewrite Heq in Hc. injection Hc as <-.
    set (vt' := ga_visited_tags
                  (add_sources query_embedding k_per_tag
                     (query_source_tags_by_id store s0) (shared st)).1) in *.
    assert (Hs0 : s0 ∈ source_ids).
    { rewrite <- Hsources. apply list_elem_of_omap.
      exists (QuerySourceTagsById s0). split; [by apply Hpe | done]. }
    unfold ga_inv.
    cbn [executed pending shared ga_visited_tags ga_targets].
    rewrite !omap_app, Hns, app_nil_r.
    split; [| split; [| split; [| split; [| split; [| split; [| split; [| split]]]]]]].
    + apply NoDup_app. split; [done |]. split; [| done].
      intros t Ht Htn. apply Hqn in Htn as [_ Hn]. apply Hn, Hvt. by right.
    + intros t. rewrite Hvtn, elem_of_app, Hqn, Hvt.
      destruct (decide (t ∈ visited_tags));
        destruct (decide (t ∈ omap ga_query_tag (executed st))); tauto.
    + intros t [Ht | Ht]%elem_of_app; [by apply Hq |].
      apply Hqn in Ht as [Htag Hn]. split; [| eauto].
      intros Hin. apply Hn, Hvt. by left.
    + intros s Hs. destruct (Hsrc s Hs) as [Hin | Hall].
      * destruct (elem_of_delete_or _ _ _ _ Hi Hin) as [[= ->] | Hin'].
        -- right. intros t Ht. apply Hvtn. by right.
        -- left. apply elem_of_app. by left.
      * right. intros t Ht. apply Hvtn. left. by apply Hall.
    + done.
    + intros q [Hin | Hin]%elem_of_app; apply elem_of_app; [left | by right].
      apply Hpe. by eapply list_elem_of_delete_inv.
    + done.
    + intros id emb Hin. destruct (Hfrom id emb Hin) as (q & row & Hqe & Hrest).
      exists q, row. split; [apply elem_of_app; by left | done].
    + intros q [Hin | Hin]%elem_of_app; [| left; apply elem_of_app; by right].
      destruct (Hcov q Hin) as [Hp | Hall]; [| by right].
      destruct (elem_of_delete_or _ _ _ _ Hi Hp) as [-> | Hin'].
      * right. by intros row ?%elem_of_nil.
      * left. apply elem_of_app. by left.
  - unfold add_targets in Hc. injection Hc as <-.
    destruct (add_targets_spec
                (query_targets_embeddings_by_kind_and_tag_and_embedding
                   store kind tag q' limit) (ga_targets (shared st)))
      as (Hnd' & Hsub & Hrows & Hfrom'). cbv zeta in *.
    unfold ga_inv.
    cbn [executed pending shared ga_visited_tags ga_targets].
    rewrite !app_nil_r.
    split; [done |]. split; [done |]. split; [done |].
    split; [| split; [done |]; split; [| split; [auto |]; split]].
    + intros s Hs. destruct (Hsrc s Hs) as [Hin | Hall]; [| by right].
      destruct (elem_of_delete_or _ _ _ _ Hi Hin) as [[=] | Hin']. by left.
    + intros q Hin. apply Hpe. by eapply list_elem_of_delete_inv.
    + intros id emb Hin. destruct (Hfrom' _ Hin) as [Hold | (row & Hrow & [= -> ->])].
      * by apply Hfrom.
      * exists (QueryTargetsEmbeddingsByKindAndTagAndEmbedding kind tag q' limit), row.
        split; [by apply Hpe |]. done.
    + intros q Hin. destruct (Hcov q Hin) as [Hp | Hall].
      * destruct (elem_of_delete_or _ _ _ _ Hi Hp) as [-> | Hin']; [| by left].
        right. apply Hrows.
      * right. intros row Hrow. specialize (Hall row Hrow).
        unfold dict_keys in *. apply list_elem_of_fmap in Hall as ([k v] & Hk & Hkv).
        apply list_elem_of_fmap. exists (k, v). split; [done | by apply Hsub].
Qed.

(** The state [_get_adjacent] leaves its scope in. *)
Lemma _get_adjacent_final fuel pick calls vt edges :
  _get_adjacent store fuel pick source_ids visited_tags query_embedding k_per_tag
  = Some (calls, vt, edges) →
  ∃ st, pending st = [] ∧ executed st = calls ∧
    ga_visited_tags (shared st) = vt ∧
    edges = map (λ '(content_id, embedding), Edge.mk content_id embedding)
              (ga_targets (shared st)) ∧
    ga_inv store source_ids visited_tags st.
Proof.
  unfold _get_adjacent.
  set (st := cq_exit _ fuel pick _).
  destruct (quiescent st) eqn:Hq; [| done]. intros [= <- <- <-].
  exists st. split; [by apply quiescent_pending |]. do 3 (split; [done |]).
  subst st. apply cq_exit_preserves; [| apply ga_inv_enter].
  intros i s s' Hc. by apply (ga_inv_complete i s s').
Qed.

Lemma _get_adjacent_tags_spec fuel pick calls vt edges :
  _get_adjacent store fuel pick source_ids visited_tags query_embedding k_per_tag
  = Some (calls, vt, edges) →
  omap ga_query_source calls = source_ids ∧
  NoDup (omap ga_query_tag calls) ∧
  (∀ t, t ∈ omap ga_query_tag calls ↔
        ((t ∉ visited_tags) ∧ ∃ s, s ∈ source_ids ∧ t ∈ link_to_tags_of store s)) ∧
  (∀ t, t ∈ vt ↔
        (t ∈ visited_tags ∨ ∃ s, s ∈ source_ids ∧ t ∈ link_to_tags_of store s)).
Proof.
  intros Hrun.
  apply _get_adjacent_final in Hrun
    as (st & Hnil & <- & <- & _ & (Hnd & Hvt & Hq & Hsrc & Hsources & _)).
  cbv zeta in *.
  assert (Hall : ∀ s t, s ∈ source_ids → t ∈ link_to_tags_of store s →
                   t ∈ ga_visited_tags (shared st)).
  { intros s t Hs Ht. destruct (Hsrc s Hs) as [Hp | Hall]; [| by apply Hall].
    rewrite Hnil in Hp. by apply elem_of_nil in Hp. }
  split; [done |]. split; [done |]. split.
  - intros t. split; [apply Hq |]. intros [Hn (s & Hs & Ht)].
    destruct (proj1 (Hvt t) (Hall s t Hs Ht)); done.
  - intros t. rewrite Hvt. split.
    + intros [? | Ht]; [by left |]. right. by apply Hq.
    + intros [? | (s & Hs & Ht)]; [by left |]. by apply Hvt, (Hall s).
Qed.
End GetAdjacentInvariant.

(** X16.  [_get_adjacent] reads the tags of each source once, and queries
    the targets table once for each tag of a source that was not in
    [visited_tags], and for no other tag; the set it leaves to the caller
    holds the tags it was given and the tags of the sources. *)
Theorem _get_adjacent_tags {vector} (store : Store.t vector) fuel pick
    (source_ids : list string) (visited_tags : list (string * string))
    (query_embedding : vector) (k_per_tag : option Z) calls vt edges :
  _get_adjacent store fuel pick source_ids visited_tags query_embedding k_per_tag
  = Some (calls, vt, edges) →
  omap ga_query_source calls = source_ids ∧
  NoDup (omap ga_query_tag calls) ∧
  (∀ t, t ∈ omap ga_query_tag calls ↔
        ((t ∉ visited_tags) ∧ ∃ s, s ∈ source_ids ∧ t ∈ link_to_tags_of store s)) ∧
  (∀ t, t ∈ vt ↔
        (t ∈ visited_tags ∨ ∃ s, s ∈ source_ids ∧ t ∈ link_to_tags_of store s)).
Proof. apply _get_adjacent_tags_spec. Qed.

(** X17.  The edges [_get_adjacent] returns have pairwise distinct target
    ids; each carries the id and the embedding of a row one of its queries
    on the targets table returned, and every row returned has an edge for
    its id. *)
Theorem _get_adjacent_edges {vector} (store : Store.t vector) fuel pick
    (source_ids : list string) (visited_tags : list (string * string))
    (query_embedding : vector) (k_per_tag : option Z) calls vt edges :
  _get_adjacent store fuel pick source_ids visited_tags query_embedding k_per_tag
  = Some (calls, vt, edges) →
  NoDup (map Edge.target_content_id edges) ∧
  (∀ edge, edge ∈ edges →
     ∃ q row, q ∈ calls ∧ row ∈ ga_rows store q ∧
       Target.target_content_id row = Edge.target_content_id edge ∧
       Target.target_text_embedding row = Edge.target_text_embedding edge) ∧
  (∀ q row, q ∈ calls → row ∈ ga_rows store q →
     ∃ edge, edge ∈ edges ∧
       Edge.target_content_id edge = Target.target_content_id row).
Proof.
  intros Hrun.
  apply _get_adjacent_final in Hrun
    as (st & Hnil & <- & _ & -> & (_ & _ & _ & _ & _ & _ & Hndt & Hfrom & Hcov)).
  assert (Hids : map Edge.target_content_id
                   (map (λ '(content_id, embedding), Edge.mk content_id embedding)
                      (ga_targets (shared st)))
                 = dict_keys (ga_targets (shared st))).
  { unfold dict_keys. generalize (ga_targets (shared st)). intros l.
    induction l as [| [id emb] l IH]; [done |]. simpl. by f_equal. }
  split; [by rewrite Hids |]. split.
  - intros edge ([id emb] & -> & Hin)%list_elem_of_fmap. by apply Hfrom.
  - intros q row Hq Hrow. destruct (Hcov q Hq) as [Hp | Hall].
    { rewrite Hnil in Hp. by apply elem_of_nil in Hp. }
    specialize (Hall row Hrow). unfold dict_keys in Hall.
    apply list_elem_of_fmap in Hall as ([id emb] & Hid & Hin).
    exists (Edge.mk id emb). split; [| done].
    apply list_elem_of_fmap. by exists (id, emb).
Qed.

(** ** [mmr_traversal_search]: its adjacency queries *)

Section MmrQueries.
Context {vector float helper : Type} `{!MmrHelper vector float helper}.
Variable store : Store.t vector.
Variable depth : Z.
Variable adjacent_k : Z.
Variable query_embedding : vector.

Lemma mmr_loop_queries fuel sched n : ∀ i (s s' : mmr_state vector helper) r,
  mmr_loop store depth adjacent_k query_embedding fuel sched n i s = Some (s', r) →
  mmr_queries_inv s →
  mmr_queries_inv s' ∧
  (length (expanded s') ≤ length (expanded s) + n)%nat.
Proof.
  induction n as [| n IH]; intros i s s' r; simpl.
  - intros [= <- <-] Hinv. split; [done | lia].
  - destruct (pop_best (mmr_helper s)) as [[selected_id |] helper'].
    2:{ intros [= <- <-] Hinv. split; [done | simpl; lia]. }
    destruct (dict_get selected_id (mmr_depths s)) as [selected_depth |] eqn:Hsel.
    2:{ intros [= <- <-] Hinv. split; [done | simpl; lia]. }
    intros Hloop (Hnd & Hvt & Hsrc).
    destruct (selected_depth + 1 <? depth)%Z eqn:Hgate.
    + destruct (_get_adjacent _ _ _ _ _ _ _) as [[[calls vt] adjacents] |] eqn:Hadj;
        [| done].
      apply _get_adjacent_tags_spec in Hadj as (Hs & Hndc & Hq & Hvt').
      destruct (foldl _ _ adjacents) as [nc depths'].
      apply IH in Hloop as [Hinv Hlen].
      * split; [done |]. simpl in Hlen. rewrite length_app in Hlen. simpl in Hlen. lia.
      * unfold mmr_queries_inv. cbn [adjacent_calls mmr_visited_tags expanded].
        rewrite !omap_app, Hs, Hsrc, fmap_app. split; [| split; [| done]].
        -- apply NoDup_app. split; [done |]. split; [| done].
           intros t Ht Htc. apply Hq in Htc as [Hn _]. by apply Hn, Hvt.
        -- intros t [Ht | Ht]%elem_of_app; apply Hvt'.
           ++ left. by apply Hvt.
           ++ right. by apply Hq.
    + apply IH in Hloop as [Hinv Hlen]; [| done].
      split; [done |]. simpl in Hlen. lia.
Qed.


(** The loop over [adjacents] gives a depth to every new candidate. *)
Lemma add_adjacent_cover next_depth (adjacents : list (Edge.t vector)) :
  ∀ new_candidates depths,
  (next_depth < depth + 1)%Z →
  let r := foldl (add_adjacent depth next_depth) (new_candidates, depths) adjacents in
  (∀ y, is_Some (dict_get y depths) → is_Some (dict_get y r.2)) ∧
  (∀ y, y ∈ dict_keys r.1 → y ∈ dict_keys new_candidates ∨ is_Some (dict_get y r.2)).
Proof.
  induction adjacents as [| adj adjacents IH]; intros nc depths Hnext; cbv zeta.
  - simpl. split; [done | by left].
  - cbn [foldl]. unfold add_adjacent at 2 4.
    set (id := Edge.target_content_id adj).
    set (depths1 := if (next_depth <? default (depth + 1) (dict_get id depths))%Z
                    then dict_set id next_depth depths else depths).
    assert (H1 : (∀ y, is_Some (dict_get y depths) → is_Some (dict_get y depths1)) ∧
                 is_Some (dict_get id depths1)).
    { subst depths1. destruct (next_depth <? _)%Z eqn:Hlt.
      - split; [| by rewrite dict_get_set_eq].
        intros y Hy. destruct (decide (id = y)) as [<- | Hne].
        + by rewrite dict_get_set_eq.
        + by rewrite dict_get_set_ne.
      - split; [done |]. apply Z.ltb_ge in Hlt.
        destruct (dict_get id depths); [done | simpl in Hlt; lia]. }
    destruct H1 as [Hmono Hid].
    destruct (IH (dict_set id (Edge.target_text_embedding adj) nc) depths1 Hnext)
      as [Hm Hk]. cbv zeta in Hm, Hk.
    split; [auto |].
    intros y Hy. destruct (Hk y Hy) as [Hin | ?]; [| by right].
    apply dict_keys_set in Hin as [-> | ?]; [right; by apply Hm | by left].
Qed.

Lemma mmr_loop_no_key_error fuel sched n : ∀ i (s s' : mmr_state vector helper) r,
  mmr_helper_laws vector float helper →
  mmr_depths_cover s →
  mmr_loop store depth adjacent_k query_embedding fuel sched n i s = Some (s', r) →
  r = Ok ().
Proof.
  induction n as [| n IH]; intros i s s' r Hlaws Hcover; simpl.
  - by intros [= <- <-].
  - destruct Hlaws as (Hpop & Hrest & Hadd).
    destruct (pop_best (mmr_helper s)) as [[selected_id |] helper'] eqn:Hp.
    2:{ by intros [= <- <-]. }
    destruct (Hcover selected_id (Hpop _ _ _ Hp)) as [selected_depth Hsel].
    rewrite Hsel.
    assert (Hcover' : ∀ x, x ∈ candidate_ids helper' →
                        is_Some (dict_get x (mmr_depths s))).
    { intros x Hx. apply Hcover. by eapply Hrest. }
    destruct (selected_depth + 1 <? depth)%Z eqn:Hgate.
    + destruct (_get_adjacent _ _ _ _ _ _ _) as [[[calls vt] adjacents] |];
        [| done].
      destruct (add_adjacent_cover (selected_depth + 1) adjacents [] (mmr_depths s))
        as [Hm Hk]; [apply Z.ltb_lt in Hgate; lia |]. cbv zeta in Hm, Hk.
      destruct (foldl _ _ adjacents) as [nc depths']. cbn [fst snd] in Hm, Hk.
      apply IH; [done |].
      intros x Hx. cbn [mmr_helper mmr_depths] in *.
      destruct (Hadd _ _ _ Hx) as [Hold | Hnew]; [by apply Hm, Hcover' |].
      destruct (Hk x Hnew) as [[]%elem_of_nil | ?]; done.
    + apply IH; done.
Qed.
End MmrQueries.

Lemma depths_of_candidates_cover (ids : list string) : ∀ depths x,
  x ∈ ids ∨ is_Some (dict_get x depths) →
  is_Some (dict_get x (foldl (λ d candidate_id, dict_set candidate_id 0%Z d) depths ids)).
Proof.
  induction ids as [| y ids IH]; intros depths x; simpl.
  - intros [[]%elem_of_nil | ?]; done.
  - intros Hx. apply IH. destruct (decide (y = x)) as [-> | Hne].
    + right. by rewrite dict_get_set_eq.
    + rewrite dict_get_set_ne by done.
      destruct Hx as [[-> | ?]%elem_of_cons | ?]; [done | by left | by right].
Qed.

Section MmrMore.
Context {vector float helper : Type} `{!MmrHelper vector float helper}.
Variable store : Store.t vector.
Variable embed_query : string → vector.

(** X18.  In a whole run of [mmr_traversal_search] no tag is queried
    twice on the targets table; the tags of a node are read once for
    each expansion, in the order of the expansions; and at most [k] nodes
    are expanded. *)
Theorem mmr_traversal_search_queries fuel sched sched' pick' query k depth
    fetch_k adjacent_k (lambda_mult score_threshold : float)
    (s : mmr_state vector helper) r :
  mmr_traversal_search store embed_query fuel sched sched' pick' query k depth
    fetch_k adjacent_k lambda_mult score_threshold = Some (s, r) →
  NoDup (omap ga_query_tag (adjacent_calls s)) ∧
  omap ga_query_source (adjacent_calls s) = (expanded s).*1 ∧
  (length (expanded s) ≤ Z.to_nat k)%nat.
Proof.
  unfold mmr_traversal_search.
  destruct (mmr_loop _ _ _ _ _ _ _ _ _) as [[s0 r0] |] eqn:Hloop; [| done].
  intros Heq. assert (s0 = s) as -> by (destruct r0; by injection Heq).
  apply mmr_loop_queries in Hloop as [(Hnd & _ & Hsrc) Hlen].
  - done.
  - unfold mmr_queries_inv, mmr_enter. simpl. split; [constructor |].
    split; [by intros t ?%elem_of_nil | done].
Qed.


(** X20.  When the helper pops candidates only, and its candidates are
    those it was given, [depths[selected_id]] never raises [KeyError]:
    every candidate the loop adds has been given a depth. *)
Theorem mmr_traversal_search_no_key_error fuel sched sched' pick' query k depth
    fetch_k adjacent_k (lambda_mult score_threshold : float)
    (s : mmr_state vector helper) r :
  mmr_helper_laws vector float helper →
  mmr_traversal_search store embed_query fuel sched sched' pick' query k depth
    fetch_k adjacent_k lambda_mult score_threshold = Some (s, r) →
  r = Ok (_nodes_with_ids store sched' pick' (selected_ids (mmr_helper s))).
Proof.
  intros Hlaws. unfold mmr_traversal_search.
  destruct (mmr_loop _ _ _ _ _ _ _ _ _) as [[s0 r0] |] eqn:Hloop; [| done].
  apply mmr_loop_no_key_error in Hloop as ->; [| done |].
  - by intros [= <- <-].
  - unfold mmr_depths_cover, mmr_enter. simpl.
    intros x Hx. apply depths_of_candidates_cover. by left.
Qed.
End MmrMore.

(** ** Writing and reading back *)

Section WritesFacts.
Context {vector : Type}.
Implicit Types tables : gmap string (Passage.t vector) * list (Target.t vector).







End WritesFacts.



Section WriteThenRead.
Context {vector : Type}.
Variable token_hex : nat → string.
Variable embed_texts : list string → list vector.







End WriteThenRead.

(** ** [LinkExtractorTransformer.transform_documents] *)

(** The i-th tuple of the starred [zip] exists when there is an iterable
    and each has an i-th element; it holds these elements in order. *)
Lemma zip_star_lookup {A} (iterables : list (list A)) : ∀ i row,
  zip_star iterables !! i = Some row ↔
  iterables ≠ [] ∧ Forall2 (λ xs x, xs !! i = Some x) iterables row.
Proof.
  induction iterables as [| xs iterables IH]; intros i row.
  - simpl. split; [done | by intros [? _]].
  - cbn [zip_star]. destruct iterables as [| ys iterables].
    + rewrite list_lookup_fmap. split.
      * destruct (xs !! i) as [x |] eqn:Hx; [| done]. simpl. intros [= <-].
        split; [done |]. by repeat constructor.
      * intros [_ Hall]. apply Forall2_cons_inv_l in Hall as (x & row' & Hx & Hn & ->).
        apply Forall2_nil_inv_l in Hn as ->. by rewrite Hx.
    + rewrite lookup_zip_with_Some. split.
      * intros (x & row' & -> & Hx & [_ Hall]%IH). split; [done |]. by constructor.
      * intros [_ Hall]. apply Forall2_cons_inv_l in Hall as (x & row' & Hx & Hall & ->).
        exists x, row'. split; [done |]. split; [done |]. apply IH. done.
Qed.

(** X24.  [transform_documents] calls [add_links] on the i-th document
    exactly when there is an extractor and every extractor yielded an i-th
    set of links, with these sets as arguments in the order of the
    extractors; it makes the calls in the order of the documents and
    returns the documents it was given.  So with no extractor no call is
    made, and a document beyond the shortest extraction gets the links of
    no extractor. *)
Theorem transform_documents_calls {Document}
    (link_extractors : list (list Document → list (list Link.t)))
    (documents : list Document) :
  (transform_documents link_extractors documents).2 = documents ∧
  (∀ i document links,
     (transform_documents link_extractors documents).1 !! i = Some (document, links) ↔
     link_extractors ≠ [] ∧ documents !! i = Some document ∧
     Forall2 (λ extractor l, extractor documents !! i = Some l)
       link_extractors links) ∧
  (link_extractors = [] → (transform_documents link_extractors documents).1 = []).
Proof.
  split; [done |]. split.
  - intros i document links. unfold transform_documents. cbv zeta. cbn [fst].
    rewrite lookup_zip_with_Some. setoid_rewrite zip_star_lookup.
    split.
    + intros (d & l & [= -> ->] & Hd & Hne & Hall).
      split; [by destruct link_extractors |]. split; [done |].
      by apply Forall2_fmap_l in Hall.
    + intros (Hne & Hd & Hall). exists document, links.
      split; [done |]. split; [done |]. split; [by destruct link_extractors |].
      by apply Forall2_fmap_l.
  - intros ->. unfold transform_documents. simpl. by destruct documents.
Qed.

(** ** The further properties on the example data *)

(** A decidable statement about concrete data, by evaluation. *)
Ltac by_evaluation := apply (bool_decide_unpack _); vm_compute; exact I.


Lemma add_nodes_ids_witness :
  ∃ cq ids,
    add_nodes ex_token_hex ex_embed_texts [ex_node_odd; ex_node] = (cq, Ok ids) ∧
    length ids = length [ex_node_odd; ex_node] ∧
    ∀ i node, [ex_node_odd; ex_node] !! i = Some node →
      ids !! i
      = Some (if has_id node then default "" (Node.id node)
              else ex_token_hex
                     (length (filter (λ n, has_id n = false)
                                (take i [ex_node_odd; ex_node])))).
Proof.
  eexists _, _. split; [vm_compute; reflexivity |].
  eapply (add_nodes_ids ex_token_hex ex_embed_texts [ex_node_odd; ex_node]).
  vm_compute. reflexivity.
Defined.

(** Two nodes and one vector: one row is written, two ids are
    returned. *)
Lemma add_nodes_short_embeddings_witness :
  ∃ cq ids,
    add_nodes ex_token_hex ex_embed_one [ex_node; ex_node_odd] = (cq, Ok ids) ∧
    length ids = 2%nat ∧
    length (filter (λ s, is_insert_passage s) cq) = 1%nat ∧
    length ids = length [ex_node; ex_node_odd] ∧
    length (filter (λ s, is_insert_passage s) cq)
    = (length [ex_node; ex_node_odd]
       `min` length (ex_embed_one (map Node.text [ex_node; ex_node_odd])))%nat ∧
    ∀ i s, filter (λ s, is_insert_passage s) cq !! i = Some s →
      ∃ node node_id emb mb lb,
        [ex_node; ex_node_odd] !! i = Some node ∧ ids !! i = Some node_id ∧
        ex_embed_one (map Node.text [ex_node; ex_node_odd]) !! i = Some emb ∧
        s = InsertPassage node_id (Node.text node) emb
              (tag_sets (Node.links node)).1 mb lb.
Proof.
  eexists _, _. split; [vm_compute; reflexivity |].
  split; [reflexivity |]. split; [reflexivity |].
  apply (add_nodes_short_embeddings ex_token_hex ex_embed_one [ex_node; ex_node_odd]).
  vm_compute. reflexivity.
Defined.


Lemma ex_store_targets_stored : targets_stored ex_store.
Proof.
  intros target Hin. apply list_elem_of_singleton in Hin as ->.
  vm_compute. eauto.
Qed.

Lemma ex_store_decodable node_id :
  node_id ∈ ["a"; "b"; "c"] → decodable ex_store node_id.
Proof.
  intros Hx. apply decodable_check.
  repeat (apply elem_of_cons in Hx as [-> | Hx]; [reflexivity |]).
  by apply elem_of_nil in Hx.
Qed.

Lemma traversal_search_complete_witness :
  (0 ≤ 1)%Z ∧ targets_stored ex_store ∧
  ∃ calls visited r,
    traversal_search ex_store ex_embed_query 1 10 id (λ n, [n]) id "query" 1
    = Some (calls, visited, r) ∧
    dict_keys visited = ["a"; "b"] ∧
    ∀ n node_id,
      within_hops ex_store (ann_seeds ex_store (ex_embed_query "query") 1) n node_id →
      (Z.of_nat n ≤ 1)%Z →
      node_id ∈ dict_keys visited ∧
      ∃ d, dict_get node_id visited = Some d ∧ (d ≤ Z.of_nat n)%Z.
Proof.
  split; [lia |]. split; [exact ex_store_targets_stored |].
  eexists _, _, _. split; [exact traversal_search_depth_1 |].
  split; [reflexivity |].
  apply (traversal_search_complete ex_store ex_embed_query 1 10 id (λ n, [n]) id
           "query" 1 _ _ _ ltac:(lia) ex_store_targets_stored
           traversal_search_depth_1).
Defined.

Lemma traversal_search_shortest_witness :
  (0 ≤ 1)%Z ∧ targets_stored ex_store ∧
  ∃ calls visited r,
    traversal_search ex_store ex_embed_query 1 10 id (λ n, [n]) id "query" 1
    = Some (calls, visited, r) ∧
    visited = [("a", 0%Z); ("b", 1%Z)] ∧
    ∀ node_id d,
      dict_get node_id visited = Some d ↔
      ∃ n, d = Z.of_nat n ∧ (d ≤ 1)%Z ∧
        within_hops ex_store (ann_seeds ex_store (ex_embed_query "query") 1) n node_id ∧
        ∀ m, within_hops ex_store (ann_seeds ex_store (ex_embed_query "query") 1)
               m node_id → (n ≤ m)%nat.
Proof.
  split; [lia |]. split; [exact ex_store_targets_stored |].
  eexists _, _, _. split; [exact traversal_search_depth_1 |].
  split; [reflexivity |].
  apply (traversal_search_shortest ex_store ex_embed_query 1 10 id (λ n, [n]) id
           "query" 1 _ _ _ ltac:(lia) ex_store_targets_stored
           traversal_search_depth_1).
Defined.

(** The same search with another order of completion and of the fetches
    of [_nodes_with_ids]. *)
Lemma traversal_search_schedule_independent_witness :
  (0 ≤ 1)%Z ∧ targets_stored ex_store ∧
  ∃ calls visited r calls2 visited2 r2,
    (∀ node_id, node_id ∈ dict_keys visited → decodable ex_store node_id) ∧
    traversal_search ex_store ex_embed_query 1 10 id (λ n, [n]) id "query" 1
    = Some (calls, visited, r) ∧
    traversal_search ex_store ex_embed_query 1 7 (λ n, S n) (λ _, []) (λ n, S n)
      "query" 1
    = Some (calls2, visited2, r2) ∧
    (∀ node_id, dict_get node_id visited = dict_get node_id visited2) ∧
    dict_keys visited ≡ₚ dict_keys visited2 ∧
    ∃ nodes nodes2, r.2 = Ok nodes ∧ r2.2 = Ok nodes2 ∧ nodes ≡ₚ nodes2.
Proof.
  split; [lia |]. split; [exact ex_store_targets_stored |].
  assert (Hdec : ∀ node_id, node_id ∈ dict_keys [("a", 0%Z); ("b", 1%Z)] →
                   decodable ex_store node_id).
  { intros x Hx. apply ex_store_decodable. simpl in Hx.
    apply elem_of_cons in Hx as [-> | Hx]; [left |].
    apply list_elem_of_singleton in Hx as ->. right. left. }
  assert (Hrun2 : traversal_search ex_store ex_embed_query 1 7 (λ n, S n) (λ _, [])
                    (λ n, S n) "query" 1
                  = Some ([QueryIdsAndLinkToTagsByEmbedding 5 1;
                           QueryTargetsByKindAndValue "hyperlink" "T" 0;
                           QueryIdsAndLinkToTagsById "b" 0],
                          [("a", 0%Z); ("b", 1%Z)],
                          ([QueryById "a"; QueryById "b"],
                           Ok [Node.mk "alpha" (Some "a") (PDict [])
                                 [Link.mk "hyperlink" "out" "T"];
                               Node.mk "beta" (Some "b") (PDict [])
                                 [Link.mk "hyperlink" "in" "T"]]))).
  { vm_compute. reflexivity. }
  eexists _, _, _, _, _, _. split; [exact Hdec |].
  split; [exact traversal_search_depth_1 |]. split; [exact Hrun2 |].
  exact (traversal_search_schedule_independent ex_store ex_embed_query 1 "query" 1
           10 id (λ n, [n]) id _ _ _ 7 (λ n, S n) (λ _, []) (λ n, S n) _ _ _
           ltac:(lia) ex_store_targets_stored Hdec traversal_search_depth_1 Hrun2).
Defined.

Lemma _nodes_with_ids_schedule_independent_witness :
  (∀ node_id, node_id ∈ ["b"; "a"; "b"] → decodable ex_store node_id) ∧
  (_nodes_with_ids ex_store (λ n, [n]) id ["b"; "a"; "b"]).1
  = map QueryById (first_occurrences ["b"; "a"; "b"]) ∧
  _nodes_with_ids ex_store (λ n, [n]) id ["b"; "a"; "b"]
  = _nodes_with_ids ex_store (λ _, []) (λ n, S n) ["b"; "a"; "b"].
Proof.
  assert (Hdec : ∀ node_id, node_id ∈ ["b"; "a"; "b"] → decodable ex_store node_id).
  { intros x Hx. apply ex_store_decodable.
    repeat (apply elem_of_cons in Hx as [-> | Hx];
            [by_evaluation |]).
    by apply elem_of_nil in Hx. }
  split; [exact Hdec |].
  exact (_nodes_with_ids_schedule_independent ex_store (λ n, [n]) id (λ _, [])
           (λ n, S n) ["b"; "a"; "b"] Hdec).
Defined.


Lemma traversal_search_negative_depth_witness :
  (-1 < 0)%Z ∧ (1 ≤ 10)%nat ∧
  traversal_search ex_store ex_embed_query (-1) 10 id (λ n, [n]) id "query" 3
  = Some ([QueryIdsAndLinkToTagsByEmbedding (ex_embed_query "query") 3], [],
          ([], Ok [])).
Proof.
  split; [lia |]. split; [lia |].
  apply (traversal_search_negative_depth ex_store ex_embed_query (-1) 10 id
           (λ n, [n]) id "query" 3); lia.
Defined.

Lemma ex_store_seeds_decodable k node_id :
  node_id ∈ ann_seeds ex_store (ex_embed_query "query") k → decodable ex_store node_id.
Proof.
  intros Hx. apply ex_store_decodable.
  unfold ann_seeds, query_ids_and_link_to_tags_by_embedding in Hx.
  apply list_elem_of_fmap in Hx as (row & -> & (rows & Hrow & Hrows)%list_elem_of_join).
  apply list_elem_of_fmap in Hrows as (y & -> & Hy).
  apply rows_by_id in Hrow as [-> _].
  simpl in Hy. apply elem_of_take in Hy as (i & Hy & _).
  apply list_elem_of_lookup_2 in Hy.
  repeat (apply elem_of_cons in Hy as [-> | Hy];
          [by_evaluation |]).
  by apply elem_of_nil in Hy.
Qed.

Lemma traversal_search_depth_0_similarity_witness :
  (1 ≤ 10)%nat ∧
  NoDup (ann_seeds ex_store (ex_embed_query "query") 2) ∧
  (∀ node_id, node_id ∈ ann_seeds ex_store (ex_embed_query "query") 2 →
     decodable ex_store node_id) ∧
  ∃ calls visited r nodes,
    traversal_search ex_store ex_embed_query 0 10 id (λ n, [n]) id "query" 2
    = Some (calls, visited, r) ∧
    dict_keys visited = ann_seeds ex_store (ex_embed_query "query") 2 ∧
    r.2 = Ok nodes ∧
    similarity_search ex_store (ex_embed_query "query") 2 = (nodes, None).
Proof.
  assert (Hnd : NoDup (ann_seeds ex_store (ex_embed_query "query") 2)).
  { by_evaluation. }
  split; [lia |]. split; [exact Hnd |].
  split; [apply ex_store_seeds_decodable |].
  exact (traversal_search_depth_0_similarity ex_store ex_embed_query 10 id
           (λ n, [n]) id "query" 2 ltac:(lia) Hnd (ex_store_seeds_decodable 2)).
Defined.

Lemma similarity_search_nodes_with_ids_witness :
  (∀ node_id, node_id ∈ ann_seeds ex_store (ex_embed_query "query") 2 →
     decodable ex_store node_id) ∧
  ∃ nodes,
    similarity_search ex_store (ex_embed_query "query") 2 = (nodes, None) ∧
    (_nodes_with_ids ex_store (λ n, [n]) id
       (ann_seeds ex_store (ex_embed_query "query") 2)).2 = Ok nodes ∧
    map Node.id nodes = map Some (ann_seeds ex_store (ex_embed_query "query") 2).
Proof.
  split; [apply ex_store_seeds_decodable |].
  exact (similarity_search_nodes_with_ids ex_store (ex_embed_query "query") 2
           (λ n, [n]) id (ex_store_seeds_decodable 2)).
Defined.

Lemma traversal_search_distinct_witness :
  ∃ calls visited r nodes,
    (∀ node_id, node_id ∈ dict_keys visited → decodable ex_store node_id) ∧
    traversal_search ex_store ex_embed_query 1 10 id (λ n, [n]) id "query" 1
    = Some (calls, visited, r) ∧
    r.2 = Ok nodes ∧
    map Node.id nodes = map Some (dict_keys visited) ∧
    NoDup (map Node.id nodes).
Proof.
  assert (Hdec : ∀ node_id, node_id ∈ dict_keys [("a", 0%Z); ("b", 1%Z)] →
                   decodable ex_store node_id).
  { intros x Hx. apply ex_store_decodable. simpl in Hx.
    apply elem_of_cons in Hx as [-> | Hx]; [left |].
    apply list_elem_of_singleton in Hx as ->. right. left. }
  eexists _, _, _, _. split; [exact Hdec |].
  split; [exact traversal_search_depth_1 |]. split; [reflexivity |].
  exact (traversal_search_distinct ex_store ex_embed_query 1 10 id (λ n, [n]) id
           "query" 1 _ _ _ _ Hdec traversal_search_depth_1 eq_refl).
Defined.

(** The tag of [a] is queried once; [b] is the one target. *)
Lemma _get_adjacent_tags_witness :
  ∃ calls vt edges,
    _get_adjacent ex_store 10 id ["a"; "a"] [("keyword", "K")] 5 (Some 10%Z)
    = Some (calls, vt, edges) ∧
    calls = [QuerySourceTagsById "a"; QuerySourceTagsById "a";
             QueryTargetsEmbeddingsByKindAndTagAndEmbedding "hyperlink" "T" 5 10] ∧
    omap ga_query_source calls = ["a"; "a"] ∧
    NoDup (omap ga_query_tag calls) ∧
    (∀ t, t ∈ omap ga_query_tag calls ↔
          ((t ∉ [("keyword", "K")]) ∧
           ∃ s, s ∈ ["a"; "a"] ∧ t ∈ link_to_tags_of ex_store s)) ∧
    (∀ t, t ∈ vt ↔
          (t ∈ [("keyword", "K")] ∨
           ∃ s, s ∈ ["a"; "a"] ∧ t ∈ link_to_tags_of ex_store s)).
Proof.
  eexists _, _, _. split; [vm_compute; reflexivity |]. split; [reflexivity |].
  eapply (_get_adjacent_tags ex_store 10 id ["a"; "a"] [("keyword", "K")] 5
            (Some 10%Z)).
  vm_compute. reflexivity.
Defined.

Lemma _get_adjacent_edges_witness :
  ∃ calls vt edges,
    _get_adjacent ex_store 10 id ["a"] [] 5 (Some 10%Z) = Some (calls, vt, edges) ∧
    edges = [Edge.mk "b" 4] ∧
    NoDup (map Edge.target_content_id edges) ∧
    (∀ edge, edge ∈ edges →
       ∃ q row, q ∈ calls ∧ row ∈ ga_rows ex_store q ∧
         Target.target_content_id row = Edge.target_content_id edge ∧
         Target.target_text_embedding row = Edge.target_text_embedding edge) ∧
    (∀ q row, q ∈ calls → row ∈ ga_rows ex_store q →
       ∃ edge, edge ∈ edges ∧
         Edge.target_content_id edge = Target.target_content_id row).
Proof.
  eexists _, _, _. split; [vm_compute; reflexivity |]. split; [reflexivity |].
  eapply (_get_adjacent_edges ex_store 10 id ["a"] [] 5 (Some 10%Z)).
  vm_compute. reflexivity.
Defined.

Lemma mmr_traversal_search_queries_witness :
  ∃ (s : mmr_state nat fifo_helper) r,
    mmr_traversal_search ex_store ex_embed_query 10 (λ _ n, n) (λ n, [n]) id
      "query" 3 2 2 10 () () = Some (s, r) ∧
    adjacent_calls s
    = [QuerySourceTagsById "a";
       QueryTargetsEmbeddingsByKindAndTagAndEmbedding "hyperlink" "T" 5 10;
       QuerySourceTagsById "c"] ∧
    NoDup (omap ga_query_tag (adjacent_calls s)) ∧
    omap ga_query_source (adjacent_calls s) = (expanded s).*1 ∧
    (length (expanded s) ≤ Z.to_nat 3)%nat.
Proof.
  eexists _, _. split; [vm_compute; reflexivity |]. split; [reflexivity |].
  eapply (mmr_traversal_search_queries (helper:=fifo_helper) ex_store
            ex_embed_query 10 (λ _ n, n) (λ n, [n]) id "query" 3 2 2 10 () ()).
  vm_compute. reflexivity.
Defined.


(** The helper of the examples pops candidates only. *)
Lemma fifo_helper_laws : mmr_helper_laws nat () fifo_helper.
Proof.
  split; [| split].
  - intros h h' x. simpl. destruct (fifo_candidates h) as [| c cs]; [done |].
    intros [= <- <-]. left.
  - intros h h' o y. simpl. destruct (fifo_candidates h) as [| c cs] eqn:Hc.
    + intros [= <- <-]. by rewrite Hc.
    + intros [= <- <-]. simpl. by right.
  - intros cs h y. simpl. generalize (fifo_candidates h). intros acc. revert acc.
    induction cs as [| c cs IH]; intros acc; simpl; [by left |].
    intros Hy. apply IH in Hy as [Hy | Hy]; [| right; by right].
    case_decide; [by left |].
    rewrite fmap_app in Hy. apply elem_of_app in Hy as [? | ->%list_elem_of_singleton];
      [by left | right; left].
Qed.

Lemma mmr_traversal_search_no_key_error_witness :
  mmr_helper_laws nat () fifo_helper ∧
  ∃ (s : mmr_state nat fifo_helper) r,
    mmr_traversal_search ex_store ex_embed_query 10 (λ _ n, n) (λ n, [n]) id
      "query" 3 2 2 10 () () = Some (s, r) ∧
    r = Ok (_nodes_with_ids ex_store (λ n, [n]) id (selected_ids (mmr_helper s))).
Proof.
  split; [exact fifo_helper_laws |].
  eexists _, _. split; [vm_compute; reflexivity |].
  eapply (mmr_traversal_search_no_key_error (helper:=fifo_helper) ex_store
            ex_embed_query 10 (λ _ n, n) (λ n, [n]) id "query" 3 2 2 10 () ()
            _ _ fifo_helper_laws).
  vm_compute. reflexivity.
Defined.




